(** * Returns-based style analysis: a shallow embedding of [factor_analysis.py]

    The script turns price series into periodic returns and regresses fund
    returns on factor returns (VIF diagnostic, OLS, LassoLars with an AIC
    selected penalty).  The numerical kernels belong to pandas, statsmodels
    and scikit-learn; here the table plumbing of pandas is written out, and
    the numerical kernels are parameters of a [Section].  Where a statement
    is about what the libraries compute, the scikit-learn estimators are
    written out around their kernels (module [sklearn]), and the
    pseudo-inverse fit of statsmodels is characterised by the least-norm
    least-squares solution, which an exact solver (module [lstsq]) computes.

    Numbers are an exact-arithmetic rendering of IEEE doubles: rounding is
    not modelled, the special values (infinities, NaN) are. *)

From Stdlib Require Import String Ascii ZArith QArith Bool Arith Lia List.
From Stdlib Require Import Permutation Sorted Qcanon.
Import ListNotations.

Local Open Scope string_scope.
Local Open Scope list_scope.
Local Open Scope Z_scope.

(** ** Numbers *)

Inductive float : Type :=
| Fin (q : Q)
| PInf
| NInf
| NaN.

Definition isnan (x : float) : bool :=
  match x with NaN => true | _ => false end.

Definition fzero : float := Fin 0.
Definition fone : float := Fin 1.

Definition fneg (a : float) : float :=
  match a with
  | Fin x => Fin (Qred (- x))
  | PInf => NInf
  | NInf => PInf
  | NaN => NaN
  end.

Definition fadd (a b : float) : float :=
  match a, b with
  | NaN, _ | _, NaN => NaN
  | Fin x, Fin y => Fin (Qred (x + y))
  | PInf, NInf | NInf, PInf => NaN
  | PInf, _ | _, PInf => PInf
  | NInf, _ | _, NInf => NInf
  end.

Definition fsub (a b : float) : float := fadd a (fneg b).

Definition fmul (a b : float) : float :=
  match a, b with
  | NaN, _ | _, NaN => NaN
  | Fin x, Fin y => Fin (Qred (x * y))
  | Fin x, PInf | PInf, Fin x =>
      if Qeq_bool x 0 then NaN else if Qle_bool 0 x then PInf else NInf
  | Fin x, NInf | NInf, Fin x =>
      if Qeq_bool x 0 then NaN else if Qle_bool 0 x then NInf else PInf
  | PInf, PInf | NInf, NInf => PInf
  | PInf, NInf | NInf, PInf => NInf
  end.

(** Division as numpy performs it on float64: a zero divisor gives an
    infinity (or NaN for 0/0) and a warning, never an exception. *)
Definition fdiv (a b : float) : float :=
  match a, b with
  | NaN, _ | _, NaN => NaN
  | Fin x, Fin y =>
      if Qeq_bool y 0
      then (if Qeq_bool x 0 then NaN else if Qle_bool 0 x then PInf else NInf)
      else Fin (Qred (x / y))
  | Fin _, _ => Fin 0
  | PInf, Fin y => if Qle_bool 0 y then PInf else NInf
  | NInf, Fin y => if Qle_bool 0 y then NInf else PInf
  | _, _ => NaN
  end.

(** [a == b] on floats: false as soon as a NaN is involved. *)
Definition feqb (a b : float) : bool :=
  match a, b with
  | Fin x, Fin y => Qeq_bool x y
  | PInf, PInf | NInf, NInf => true
  | _, _ => false
  end.

(** [a <= b] on floats. *)
Definition fleb (a b : float) : bool :=
  match a, b with
  | NaN, _ | _, NaN => false
  | NInf, _ | _, PInf => true
  | Fin x, Fin y => Qle_bool x y
  | _, _ => false
  end.

(** [np.maximum] / [np.minimum]: a NaN operand wins. *)
Definition fmax (a b : float) : float :=
  if isnan a then a else if isnan b then b else if fleb a b then b else a.

Definition fmin (a b : float) : float :=
  if isnan a then a else if isnan b then b else if fleb a b then a else b.

(** ** Python exceptions *)

(** Exceptions raised inside the libraries (pandas, numpy, statsmodels,
    scikit-learn, urllib). *)
Inductive lib_exn : Type :=
| ValueError
| TypeError
| KeyError
| InvalidIndexError
| LinAlgError
| URLError.

(** What a call of the script can raise.  [InsufficientDataError] and
    [SingularDesignError] are the names of the design document's taxonomy. *)
Inductive exn : Type :=
| UnboundLocalError
| Lib (e : lib_exn)
| InsufficientDataError
| SingularDesignError.

Inductive result (A : Type) : Type :=
| Ok (a : A)
| Raise (e : exn).

Arguments Ok {A} a.
Arguments Raise {A} e.

Definition bind {A B : Type} (m : result A) (f : A -> result B) : result B :=
  match m with
  | Ok a => f a
  | Raise e => Raise e
  end.

Notation "x <- m ;; k" := (bind m (fun x => k))
  (at level 61, m at next level, right associativity).

(** The answer of a call into a library or to the price provider: a value,
    or one of the library's exceptions. *)
Inductive outcome (A : Type) : Type :=
| Returned (a : A)
| Failed (e : lib_exn).

Arguments Returned {A} a.
Arguments Failed {A} e.

(** An exception of a callee is not caught anywhere in the script: it
    propagates unchanged. *)
Definition propagate {A : Type} (o : outcome A) : result A :=
  match o with
  | Returned a => Ok a
  | Failed e => Raise (Lib e)
  end.

(** ** Labels and tables *)

Record date : Type := mkDate { year : Z; month : Z; day : Z }.

Definition date_compare (a b : date) : comparison :=
  match Z.compare (year a) (year b) with
  | Eq => match Z.compare (month a) (month b) with
          | Eq => Z.compare (day a) (day b)
          | c => c
          end
  | c => c
  end.

Definition date_eqb (a b : date) : bool :=
  match date_compare a b with Eq => true | _ => false end.

Definition date_leb (a b : date) : bool :=
  match date_compare a b with Gt => false | _ => true end.

Inductive label : Type :=
| LStr (s : string)
| LInt (n : Z)
| LDate (d : date).

Definition label_eqb (a b : label) : bool :=
  match a, b with
  | LStr s, LStr t => String.eqb s t
  | LInt n, LInt m => Z.eqb n m
  | LDate d, LDate e => date_eqb d e
  | _, _ => false
  end.

Definition is_date (l : label) : bool :=
  match l with LDate _ => true | _ => false end.

(** Order used when an index is sorted: dates by calendar order; labels of
    other kinds are left where they are. *)
Definition label_leb (a b : label) : bool :=
  match a, b with
  | LDate d, LDate e => date_leb d e
  | _, _ => true
  end.

Definition matrix : Type := list (list float).

(** A [pd.DataFrame] of floats: row labels, column labels, and the cells
    row by row (what [.values] returns). *)
Record DataFrame : Type := mkDF {
  index : list label;
  columns : list label;
  values : matrix
}.

(** [pd.DataFrame()] *)
Definition empty_frame : DataFrame := mkDF [] [] [].

Definition nrows (df : DataFrame) : nat := length (index df).
Definition ncols (df : DataFrame) : nat := length (columns df).

Fixpoint labels_eqb (a b : list label) : bool :=
  match a, b with
  | [], [] => true
  | x :: a', y :: b' => label_eqb x y && labels_eqb a' b'
  | _, _ => false
  end.

Definition mem_label (l : label) (ls : list label) : bool :=
  existsb (label_eqb l) ls.

Fixpoint has_duplicates (ls : list label) : bool :=
  match ls with
  | [] => false
  | l :: ls' => mem_label l ls' || has_duplicates ls'
  end.

(** Row of [df] labelled [l], or a row of NaN when [l] is not in the index
    (what reindexing on a larger index gives). *)
Fixpoint lookup_row (l : label) (idx : list label) (rows : matrix)
  (width : nat) : list float :=
  match idx, rows with
  | k :: idx', r :: rows' =>
      if label_eqb l k then r else lookup_row l idx' rows' width
  | _, _ => repeat NaN width
  end.

Fixpoint insert_label (l : label) (sorted : list label) : list label :=
  match sorted with
  | [] => [l]
  | k :: rest =>
      if label_leb l k then l :: sorted else k :: insert_label l rest
  end.

Definition sort_labels (ls : list label) : list label :=
  fold_right insert_label [] ls.

(** Union of two indexes as [pd.concat(..., axis=1)] builds it: the left
    index followed by the labels only the right one has, sorted when both
    are date indexes. *)
Definition union_index (a b : list label) : list label :=
  let u := a ++ filter (fun l => negb (mem_label l a)) b in
  if forallb is_date a && forallb is_date b then sort_labels u else u.

(** [sum(obj.shape) > 0]: the test by which [pd.concat] discards empty
    frames before joining. *)
Definition is_empty (df : DataFrame) : bool :=
  Nat.eqb (nrows df + ncols df) 0.

(** [pd.concat([a, b], axis=1)]: outer join on the row labels. *)
Definition concat_axis1 (a b : DataFrame) : result DataFrame :=
  if is_empty a then Ok b
  else if is_empty b then Ok a
  else if labels_eqb (index a) (index b) then
    Ok (mkDF (index a) (columns a ++ columns b)
             (map (fun rr => fst rr ++ snd rr) (combine (values a) (values b))))
  else if has_duplicates (index a) || has_duplicates (index b) then
    Raise (Lib InvalidIndexError)
  else
    let idx := union_index (index a) (index b) in
    Ok (mkDF idx (columns a ++ columns b)
             (map (fun l => lookup_row l (index a) (values a) (ncols a)
                            ++ lookup_row l (index b) (values b) (ncols b))
                  idx)).

(** [df.columns = names]: the assignment needs as many names as columns. *)
Definition set_columns (df : DataFrame) (names : list label) : result DataFrame :=
  if Nat.eqb (length names) (ncols df)
  then Ok (mkDF (index df) names (values df))
  else Raise (Lib ValueError).

(** [df.index = names] *)
Definition set_index (df : DataFrame) (names : list label) : result DataFrame :=
  if Nat.eqb (length names) (nrows df)
  then Ok (mkDF names (columns df) (values df))
  else Raise (Lib ValueError).

(** ** Returns: [pct_change], [dropna], [resample('M').last()] *)

(** [fillna(method='pad')]: a NaN cell takes the last value above it in
    its column. *)
Fixpoint ffill_rows (prev : list float) (rows : matrix) : matrix :=
  match rows with
  | [] => []
  | r :: rest =>
      let r' := map (fun xp => if isnan (fst xp) then snd xp else fst xp)
                    (combine r prev) in
      r' :: ffill_rows r' rest
  end.

Definition ffill (rows : matrix) : matrix :=
  match rows with
  | [] => []
  | r :: rest => r :: ffill_rows r rest
  end.

(** One cell of [data / data.shift(1) - 1]. *)
Definition pct (x prev : float) : float := fsub (fdiv x prev) fone.

Fixpoint pct_rows (prev : list float) (rows : matrix) : matrix :=
  match rows with
  | [] => []
  | r :: rest =>
      map (fun xp => pct (fst xp) (snd xp)) (combine r prev) :: pct_rows r rest
  end.

(** [df.pct_change()] with the defaults of the pandas the script was written
    for ([periods=1], [fill_method='pad']): pad, then divide each row by the
    row above; the row above the first one is all NaN. *)
Definition pct_change (df : DataFrame) : DataFrame :=
  let data := ffill (values df) in
  mkDF (index df) (columns df) (pct_rows (repeat NaN (ncols df)) data).

Definition has_nan (row : list float) : bool := existsb isnan row.

(** [df.dropna()]: the rows without any NaN. *)
Definition dropna (df : DataFrame) : DataFrame :=
  let kept := filter (fun lr => negb (has_nan (snd lr)))
                     (combine (index df) (values df)) in
  mkDF (map fst kept) (columns df) (map snd kept).

Definition is_leap (y : Z) : bool :=
  (Z.eqb (y mod 4) 0 && negb (Z.eqb (y mod 100) 0)) || Z.eqb (y mod 400) 0.

Definition days_in_month (y m : Z) : Z :=
  if Z.eqb m 2 then (if is_leap y then 29 else 28)
  else if Z.eqb m 4 || Z.eqb m 6 || Z.eqb m 9 || Z.eqb m 11 then 30
  else 31.

(** Calendar month of a date, counted from year 0. *)
Definition month_key (d : date) : Z := year d * 12 + (month d - 1).

Definition label_month (l : label) : Z :=
  match l with
  | LDate d => month_key d
  | _ => 0
  end.

(** Label of a monthly bin: the last day of that month. *)
Definition month_end (k : Z) : label :=
  let y := k / 12 in
  let m := k mod 12 + 1 in
  LDate (mkDate y m (days_in_month y m)).

(** A table has a [DatetimeIndex] when its row labels are dates; the index
    of [pd.DataFrame()] is not one. *)
Definition is_datetime_index (idx : list label) : bool :=
  match idx with
  | [] => false
  | _ => forallb is_date idx
  end.

(** [GroupBy.last()]: the last value of a column that is not NaN. *)
Definition last_valid (cells : list float) : float :=
  fold_left (fun acc x => if isnan x then acc else x) cells NaN.

Definition column_cells (j : nat) (rows : matrix) : list float :=
  map (fun r => nth j r NaN) rows.

Definition rows_in_month (k : Z) (idx : list label) (rows : matrix) : matrix :=
  map snd (filter (fun lr => Z.eqb (label_month (fst lr)) k) (combine idx rows)).

Definition month_bins (idx : list label) : list Z :=
  match map label_month idx with
  | [] => []
  | k :: ks =>
      let lo := fold_left Z.min ks k in
      let hi := fold_left Z.max ks k in
      map (fun i => lo + Z.of_nat i) (seq 0 (Z.to_nat (hi - lo + 1)))
  end.

(** [df.resample('M').last()]: one row per calendar month from the first to
    the last month of the index, labelled by the month's last day, holding
    for every column the last observed value of that month (NaN for a month
    without one). *)
Definition resample_M_last (df : DataFrame) : result DataFrame :=
  if is_datetime_index (index df) then
    let bins := month_bins (index df) in
    Ok (mkDF (map month_end bins) (columns df)
             (map (fun k =>
                     let grp := rows_in_month k (index df) (values df) in
                     map (fun j => last_valid (column_cells j grp))
                         (seq 0 (ncols df)))
                  bins))
  else Raise (Lib TypeError).

(** ** Price retrieval and the two returns functions *)

(** [pat in s] *)
Fixpoint contains (pat s : string) : bool :=
  String.prefix pat s ||
  match s with
  | EmptyString => false
  | String _ s' => contains pat s'
  end.

(** One record of the provider's JSON answer, reduced to the two fields the
    script reads. *)
Record eod_row : Type := mkRow { row_date : date; adjusted_close : float }.

Fixpoint insert_row (r : eod_row) (sorted : list eod_row) : list eod_row :=
  match sorted with
  | [] => [r]
  | k :: rest =>
      if date_leb (row_date r) (row_date k) then r :: sorted
      else k :: insert_row r rest
  end.

(** [sort_index()] on the date column. *)
Definition sort_rows (rs : list eod_row) : list eod_row :=
  fold_right insert_row [] rs.

Section Retrieval.

(** The remote end-of-day service: ticker, start and end date to the
    decoded JSON records, or the exception of the transport. *)
Variable eod_api : string -> string -> string -> outcome (list eod_row).

(** [get_stock_prices(symbol, start_date, end_date)[['adjusted_close']]],
    its index already converted by [pd.to_datetime].  An empty answer has
    no 'date' column, and [set_index('date')] raises [KeyError]. *)
Definition get_stock_prices (symbol start_date end_date : string)
  : result DataFrame :=
  let ticker :=
    if negb (contains ".TO" symbol) then (symbol ++ ".US")%string else symbol in
  prices <- propagate (eod_api ticker start_date end_date) ;;
  match prices with
  | [] => Raise (Lib KeyError)
  | _ =>
      let sorted := sort_rows prices in
      Ok (mkDF (map (fun r => LDate (row_date r)) sorted)
               [LStr "adjusted_close"]
               (map (fun r => [adjusted_close r]) sorted))
  end.

(** The loop shared by [get_returns] and [retrieve_factor_returns]:
    [df_prices = pd.concat([df_prices, df_temp], axis=1)] for each symbol. *)
Fixpoint fetch_prices (symbols : list string) (start_date end_date : string)
  (df_prices : DataFrame) : result DataFrame :=
  match symbols with
  | [] => Ok df_prices
  | symbol :: rest =>
      df_temp <- get_stock_prices symbol start_date end_date ;;
      df_prices' <- concat_axis1 df_prices df_temp ;;
      fetch_prices rest start_date end_date df_prices'
  end.

(** The [match frequency] statement: it binds [df_returns] in the cases
    'D' and 'M' and has no other case; [None] is the unbound local. *)
Definition returns_by_frequency (frequency : string) (df_prices : DataFrame)
  : result (option DataFrame) :=
  if String.eqb frequency "D" then
    Ok (Some (dropna (pct_change df_prices)))
  else if String.eqb frequency "M" then
    monthly <- resample_M_last df_prices ;;
    Ok (Some (dropna (pct_change monthly)))
  else Ok None.

Definition rename_columns (df_returns : option DataFrame) (names : list string)
  : result DataFrame :=
  match df_returns with
  | None => Raise UnboundLocalError
  | Some df => set_columns df (map LStr names)
  end.

Definition get_returns (tickers : list string)
  (start_date end_date frequency : string) : result DataFrame :=
  df_prices <- fetch_prices tickers start_date end_date empty_frame ;;
  df_returns <- returns_by_frequency frequency df_prices ;;
  rename_columns df_returns tickers.

(** [factors] is a dict: an insertion-ordered list of (name, ticker). *)
Definition retrieve_factor_returns (factors : list (string * string))
  (start_date end_date frequency : string) : result DataFrame :=
  df_prices <- fetch_prices (map snd factors) start_date end_date empty_frame ;;
  df_returns <- returns_by_frequency frequency df_prices ;;
  rename_columns df_returns (map fst factors).

End Retrieval.

(** A provider with four instruments, used to evaluate the definitions:
    AAA from January to March 2020, BBB from February, ONE and LATE with a
    single price each. *)
Definition d (y m dd : Z) : date := mkDate y m dd.

Definition demo_api (ticker start_date end_date : string)
  : outcome (list eod_row) :=
  if String.eqb ticker "AAA.US" then
    Returned [mkRow (d 2020 1 30) (Fin 100); mkRow (d 2020 1 31) (Fin 110);
              mkRow (d 2020 2 28) (Fin 121); mkRow (d 2020 3 31) (Fin 121)]
  else if String.eqb ticker "BBB.US" then
    Returned [mkRow (d 2020 2 27) (Fin 50); mkRow (d 2020 3 30) (Fin 60)]
  else if String.eqb ticker "ONE.US" then
    Returned [mkRow (d 2020 1 31) (Fin 7)]
  else if String.eqb ticker "LATE.US" then
    Returned [mkRow (d 2020 3 31) (Fin 9)]
  else Failed URLError.

(** ** statsmodels: [add_constant] and [variance_inflation_factor] *)

(** [np.ptp]: maximum minus minimum; undefined on an empty column. *)
Definition ptp (col : list float) : option float :=
  match col with
  | [] => None
  | x :: xs => Some (fsub (fold_left fmax xs x) (fold_left fmin xs x))
  end.

Definition nonzero (x : float) : bool := negb (feqb x fzero).

(** [safe_is_const] of [add_trend]: [np.ptp(s) == 0.0 and np.any(s != 0.0)],
    with any exception read as [False]. *)
Definition safe_is_const (col : list float) : bool :=
  match ptp col with
  | None => false
  | Some r => feqb r fzero && existsb nonzero col
  end.

Definition frame_column (df : DataFrame) (j : nat) : list float :=
  column_cells j (values df).

(** [add_constant(X)] on a DataFrame, defaults [prepend=True] and
    [has_constant='skip']: a copy of [X] with a column 'const' of ones in
    front, unless [X] already has a column that is constant and not zero,
    in which case the copy is returned as it is. *)
Definition add_constant_frame (X : DataFrame) : DataFrame :=
  if existsb (fun j => safe_is_const (frame_column X j)) (seq 0 (ncols X))
  then X
  else mkDF (index X) (LStr "const" :: columns X) (map (cons fone) (values X)).

(** [add_constant(x)] on an array, same defaults:
    [np.ptp(x, axis=0) == 0] and [np.all(x != 0.0, axis=0)] find the
    constant columns; the reduction raises on an array without rows. *)
Definition add_constant_array (x : matrix) : outcome matrix :=
  match x with
  | [] => Failed ValueError
  | r :: _ =>
      let is_nonzero_const := fun j =>
        let col := column_cells j x in
        match ptp col with
        | None => false
        | Some p => feqb p fzero && forallb nonzero col
        end in
      if existsb is_nonzero_const (seq 0 (length r))
      then Returned x
      else Returned (map (cons fone) x)
  end.

Fixpoint remove_at {A : Type} (j : nat) (l : list A) : list A :=
  match l, j with
  | [], _ => []
  | _ :: l', O => l'
  | a :: l', S j' => a :: remove_at j' l'
  end.

(** What the script reads of a fitted OLS model: [params] (a Series, the
    names given by statsmodels) and [rsquared]. *)
Record RegressionResults : Type := mkResults {
  params : list (label * float);
  rsquared : float
}.

(** What [StandardScaler().fit(X)] learns. *)
Record Scaler : Type := mkScaler { mean_ : list float; scale_ : list float }.

(** [scaler.transform(X)]: [X -= mean_; X /= scale_], column by column. *)
Definition StandardScaler_transform (s : Scaler) (X : matrix) : matrix :=
  map (fun row =>
         map (fun xms => fdiv (fsub (fst (fst xms)) (snd (fst xms))) (snd xms))
             (combine (combine row (mean_ s)) (scale_ s)))
      X.

(** ** The heap of Python objects *)

(** A cell of a table with object columns. *)
Inductive cell : Type :=
| CNum (x : float)
| CLabel (l : label).

(** A [pd.DataFrame] whose columns are not all floats, column by column. *)
Record ObjectFrame : Type := mkOF {
  oindex : list label;
  ocolumns : list (label * list cell)
}.

Inductive obj : Type :=
| Frame (df : DataFrame)
| Mixed (t : ObjectFrame).

Definition loc : Type := nat.
Definition heap : Type := list obj.

(** A computation on the heap that returns or raises. *)
Definition M (A : Type) : Type := heap -> result A * heap.

Definition ret {A : Type} (a : A) : M A := fun h => (Ok a, h).

Definition raise {A : Type} (e : exn) : M A := fun h => (Raise e, h).

Definition bindM {A B : Type} (m : M A) (f : A -> M B) : M B :=
  fun h =>
    match m h with
    | (Ok a, h') => f a h'
    | (Raise e, h') => (Raise e, h')
    end.

Notation "x <~ m ;; k" := (bindM m (fun x => k))
  (at level 61, m at next level, right associativity).

Definition lift {A : Type} (r : result A) : M A := fun h => (r, h).

Definition call {A : Type} (o : outcome A) : M A := lift (propagate o).

(** A new object; its location is the next free one. *)
Definition alloc (o : obj) : M loc := fun h => (Ok (length h), h ++ [o]).

Fixpoint update (l : loc) (o : obj) (h : heap) : heap :=
  match h, l with
  | [], _ => []
  | _ :: h', O => o :: h'
  | x :: h', S l' => x :: update l' o h'
  end.

(** In-place modification of the object at [l]. *)
Definition store (l : loc) (o : obj) : M unit := fun h => (Ok tt, update l o h).

(** Reading a float table; anything else at [l] ends in a [TypeError]. *)
Definition read_frame (l : loc) : M DataFrame :=
  fun h =>
    match nth_error h l with
    | Some (Frame df) => (Ok df, h)
    | _ => (Raise (Lib TypeError), h)
    end.

Definition read_mixed (l : loc) : M ObjectFrame :=
  fun h =>
    match nth_error h l with
    | Some (Mixed t) => (Ok t, h)
    | _ => (Raise (Lib TypeError), h)
    end.

(** ** Table operations of the estimators *)

Fixpoint position (l : label) (ls : list label) : option nat :=
  match ls with
  | [] => None
  | k :: ls' =>
      if label_eqb l k then Some O
      else match position l ls' with
           | Some n => Some (S n)
           | None => None
           end
  end.

(** [df[name]]: the data of the column labelled [name]. *)
Definition getitem (df : DataFrame) (name : label) : result (list float) :=
  match position name (columns df) with
  | Some j => Ok (frame_column df j)
  | None => Raise (Lib KeyError)
  end.

(** A Series seen by [pd.concat]: a table with one column; an unnamed
    Series gets the column label 0. *)
Definition series_frame (s : list (label * float)) : DataFrame :=
  mkDF (map fst s) [LInt 0] (map (fun lv => [snd lv]) s).

(** [df.drop(name, axis=0)]: without the rows labelled [name], [KeyError]
    when there is none. *)
Definition drop_rows (df : DataFrame) (name : label) : result DataFrame :=
  if mem_label name (index df) then
    let kept := filter (fun lr => negb (label_eqb name (fst lr)))
                       (combine (index df) (values df)) in
    Ok (mkDF (map fst kept) (columns df) (map snd kept))
  else Raise (Lib KeyError).

(** [pd.DataFrame(data=coef, index=idx, columns=[name])] for a
    one-dimensional [coef]: the shapes must agree. *)
Definition column_frame (coef : list float) (idx : list label) (name : label)
  : result DataFrame :=
  if Nat.eqb (length coef) (length idx)
  then Ok (mkDF idx [name] (map (fun v => [v]) coef))
  else Raise (Lib ValueError).

(** [RangeIndex(n)] *)
Definition range_index (n : nat) : list label :=
  map (fun i => LInt (Z.of_nat i)) (seq 0 n).

Fixpoint replace_column (name : label) (vals : list cell)
  (cols : list (label * list cell)) : list (label * list cell) :=
  match cols with
  | [] => [(name, vals)]
  | (k, c) :: cols' =>
      if label_eqb name k then (k, vals) :: cols'
      else (k, c) :: replace_column name vals cols'
  end.

(** [t[name] = vals]: a table without rows takes its index from [vals];
    otherwise the lengths must agree. *)
Definition setitem (t : ObjectFrame) (name : label) (vals : list cell)
  : result ObjectFrame :=
  match oindex t with
  | [] =>
      Ok (mkOF (range_index (length vals))
               (replace_column name vals
                  (map (fun kc => (fst kc, repeat (CNum NaN) (length vals)))
                       (ocolumns t))))
  | _ =>
      if Nat.eqb (length vals) (length (oindex t))
      then Ok (mkOF (oindex t) (replace_column name vals (ocolumns t)))
      else Raise (Lib ValueError)
  end.

(** ** The estimators *)

Section Estimators.

(** [OLS(endog, exog).fit()] of statsmodels. *)
Variable OLS_fit : list float -> matrix -> outcome RegressionResults.

(** [StandardScaler().fit(X)] of scikit-learn. *)
Variable StandardScaler_fit : matrix -> outcome Scaler.

(** [LassoLarsIC(criterion=c, normalize=b).fit(X, y).alpha_] *)
Variable LassoLarsIC_fit : string -> bool -> matrix -> list float -> outcome float.

(** [LassoLars(alpha=a, normalize=b).fit(X, y).coef_] *)
Variable LassoLars_fit : float -> bool -> matrix -> list float
                         -> outcome (list float).

(** The library calls above leave their arguments alone (statsmodels
    copies, scikit-learn runs with [copy=True] and [copy_X=True]): they
    are functions of the data they are given. *)

Definition variance_inflation_factor (exog : matrix) (exog_idx : nat)
  : outcome float :=
  let x_i := column_cells exog_idx exog in
  let x_noti := map (remove_at exog_idx) exog in
  match OLS_fit x_i x_noti with
  | Returned lm => Returned (fdiv fone (fsub fone (rsquared lm)))
  | Failed e => Failed e
  end.

Fixpoint vif_list (exog : matrix) (idxs : list nat) : outcome (list float) :=
  match idxs with
  | [] => Returned []
  | i :: rest =>
      match variance_inflation_factor exog i with
      | Failed e => Failed e
      | Returned v =>
          match vif_list exog rest with
          | Failed e => Failed e
          | Returned vs => Returned (v :: vs)
          end
      end
  end.

Definition regression_vif (X : loc) : M loc :=
  x0 <~ read_frame X ;;
  X <~ alloc (Frame (add_constant_frame x0)) ;;
  vif <~ alloc (Mixed (mkOF [] [])) ;;
  x <~ read_frame X ;;
  t <~ read_mixed vif ;;
  t' <~ lift (setitem t (LStr "variables") (map CLabel (columns x))) ;;
  _ <~ store vif (Mixed t') ;;
  x <~ read_frame X ;;
  vs <~ call (vif_list (values x) (seq 0 (ncols x))) ;;
  t <~ read_mixed vif ;;
  t' <~ lift (setitem t (LStr "VIF") (map CNum vs)) ;;
  _ <~ store vif (Mixed t') ;;
  ret vif.

Definition linear_reg (y : list float) (x : loc) (add_const : bool)
  : M RegressionResults :=
  x <~ (if add_const
        then (df <~ read_frame x ;; alloc (Frame df))
        else ret x) ;;
  df <~ read_frame x ;;
  x <~ call (add_constant_array (values df)) ;;
  lm <~ call (OLS_fit y x) ;;
  ret lm.

(** One turn of [for ticker in returns] in [multiple_lin_reg]; the value
    is the table [df_results] is bound to afterwards. *)
Definition multiple_lin_reg_body (ticker : label)
  (returns factor_returns df_results : loc) : M loc :=
  r <~ read_frame returns ;;
  y <~ lift (getitem r ticker) ;;
  lin_reg <~ linear_reg y factor_returns true ;;
  cur <~ read_frame df_results ;;
  new <~ lift (concat_axis1 cur (series_frame (params lin_reg))) ;;
  alloc (Frame new).

Fixpoint multiple_lin_reg_loop (tickers : list label)
  (returns factor_returns df_results : loc) : M loc :=
  match tickers with
  | [] => ret df_results
  | ticker :: rest =>
      df_results <~ multiple_lin_reg_body ticker returns factor_returns
                      df_results ;;
      multiple_lin_reg_loop rest returns factor_returns df_results
  end.

(** [add_const] is accepted and not read. *)
Definition multiple_lin_reg (returns factor_returns : loc) (add_const : bool)
  : M loc :=
  df_results <~ alloc (Frame empty_frame) ;;
  r <~ read_frame returns ;;
  df_results <~ multiple_lin_reg_loop (columns r) returns factor_returns
                  df_results ;;
  cur <~ read_frame df_results ;;
  dropped <~ lift (drop_rows cur (LStr "const")) ;;
  _ <~ store df_results (Frame dropped) ;;
  cur <~ read_frame df_results ;;
  f <~ read_frame factor_returns ;;
  reindexed <~ lift (set_index cur (columns f)) ;;
  _ <~ store df_results (Frame reindexed) ;;
  cur <~ read_frame df_results ;;
  r <~ read_frame returns ;;
  renamed <~ lift (set_columns cur (columns r)) ;;
  _ <~ store df_results (Frame renamed) ;;
  ret df_results.

(** One turn of [for ticker in returns] in [lasso_lars_regression]. *)
Definition lasso_lars_body (ticker : label)
  (returns factor_returns df_results : loc) : M loc :=
  r <~ read_frame returns ;;
  y <~ lift (getitem r ticker) ;;
  f <~ read_frame factor_returns ;;
  X <~ alloc (Frame f) ;;
  x <~ read_frame X ;;
  scaler <~ call (StandardScaler_fit (values x)) ;;
  alpha_aic <~ call (LassoLarsIC_fit "aic" false
                       (StandardScaler_transform scaler (values x)) y) ;;
  x <~ read_frame X ;;
  coef_ <~ call (LassoLars_fit alpha_aic true (values x) y) ;;
  f <~ read_frame factor_returns ;;
  temp <~ lift (column_frame coef_ (columns f) ticker) ;;
  df_temp <~ alloc (Frame temp) ;;
  cur <~ read_frame df_results ;;
  temp <~ read_frame df_temp ;;
  new <~ lift (concat_axis1 cur temp) ;;
  alloc (Frame new).

Fixpoint lasso_lars_loop (tickers : list label)
  (returns factor_returns df_results : loc) : M loc :=
  match tickers with
  | [] => ret df_results
  | ticker :: rest =>
      df_results <~ lasso_lars_body ticker returns factor_returns df_results ;;
      lasso_lars_loop rest returns factor_returns df_results
  end.

Definition lasso_lars_regression (returns factor_returns : loc) : M loc :=
  df_results <~ alloc (Frame empty_frame) ;;
  r <~ read_frame returns ;;
  lasso_lars_loop (columns r) returns factor_returns df_results.

End Estimators.

(** ** Stand-ins for the libraries, to evaluate the estimators

    The theorems below hold for every [OLS_fit], [StandardScaler_fit],
    [LassoLarsIC_fit] and [LassoLars_fit]; these instances only have the
    interface behaviour of the libraries (shape and NaN checks, names of
    the parameters) and answer with zero coefficients. *)

Definition isfinite (x : float) : bool :=
  match x with Fin _ => true | _ => false end.

Definition all_finite (X : matrix) : bool := forallb (forallb isfinite) X.

Definition exog_names (k : nat) : list label :=
  match k with
  | O => []
  | S k' =>
      LStr "const" ::
      map (fun i => LStr (String "x" (String (ascii_of_nat (48 + i)) EmptyString)))
          (seq 1 k')
  end.

Definition zero_OLS (endog : list float) (exog : matrix) : outcome RegressionResults :=
  if negb (Nat.eqb (length endog) (length exog)) then Failed ValueError
  else if negb (all_finite exog) then Failed LinAlgError
  else
    let k := match exog with [] => O | r :: _ => length r end in
    Returned (mkResults (combine (exog_names k) (repeat fzero k)) fzero).

Definition unit_scaler (X : matrix) : outcome Scaler :=
  match X with
  | [] => Failed ValueError
  | r :: _ => Returned (mkScaler (repeat fzero (length r)) (repeat fone (length r)))
  end.

Definition checked_fit {A : Type} (X : matrix) (y : list float) (a : A)
  : outcome A :=
  if negb (Nat.eqb (length y) (length X)) then Failed ValueError
  else if negb (all_finite X && forallb isfinite y) then Failed ValueError
  else Returned a.

Definition large_alpha (criterion : string) (normalize : bool) (X : matrix)
  (y : list float) : outcome float :=
  checked_fit X y (Fin 1000).

Definition zero_LassoLars (alpha : float) (normalize : bool) (X : matrix)
  (y : list float) : outcome (list float) :=
  checked_fit X y (repeat fzero (match X with [] => O | r :: _ => length r end)).

(** A heap with a table of two funds at location 0, a table of two factors
    at location 1, a fund table with a missing value at 2, a collinear
    design at 3 and a design with a constant factor at 4. *)
Definition q (n : Z) (m : positive) : float := Fin (n # m).

Definition demo_dates : list label :=
  [LDate (d 2020 1 31); LDate (d 2020 2 29); LDate (d 2020 3 31)].

Definition demo_funds : DataFrame :=
  mkDF demo_dates [LStr "QIACX"; LStr "VTSAX"]
       [[q 1 100; q 2 100]; [q (-1) 100; q 3 100]; [q 2 100; q 1 100]].

Definition demo_factors : DataFrame :=
  mkDF demo_dates [LStr "US Growth"; LStr "US Value"]
       [[q 1 100; q 3 100]; [q 2 100; q (-1) 100]; [q 4 100; q 1 100]].

Definition demo_funds_gap : DataFrame :=
  mkDF demo_dates [LStr "QIACX"; LStr "VTSAX"]
       [[q 1 100; q 2 100]; [q (-1) 100; NaN]; [q 2 100; q 1 100]].

Definition demo_collinear : DataFrame :=
  mkDF demo_dates [LStr "US Growth"; LStr "US Value"]
       [[Fin 1; Fin 2]; [Fin 2; Fin 4]; [Fin 3; Fin 6]].

Definition demo_constant : DataFrame :=
  mkDF demo_dates [LStr "Cash"; LStr "US Value"]
       [[q 1 2; q 3 100]; [q 1 2; q (-1) 100]; [q 1 2; q 1 100]].

Definition demo_heap : heap :=
  [Frame demo_funds; Frame demo_factors; Frame demo_funds_gap;
   Frame demo_collinear; Frame demo_constant].


(** ** scikit-learn: what the estimators do around their numerical kernels *)

Definition isinf (x : float) : bool :=
  match x with PInf | NInf => true | _ => false end.

(** [X.shape[1]] and the columns of an array. *)
Definition width (X : matrix) : nat :=
  match X with
  | [] => O
  | r :: _ => length r
  end.

Definition columns_of (X : matrix) : list (list float) :=
  map (fun j => column_cells j X) (seq 0 (width X)).

Module sklearn.

(** [np.sum], [np.mean] and [np.var] (the mean of the squared deviations,
    [ddof=0]) of a column. *)
Definition fsum (l : list float) : float := fold_left fadd l fzero.

Definition mean (col : list float) : float :=
  fdiv (fsum col) (Fin (inject_Z (Z.of_nat (length col)))).

Definition variance (col : list float) : float :=
  let m := mean col in
  mean (map (fun x => fmul (fsub x m) (fsub x m)) col).

(** [StandardScaler] disregards the NaN cells of a column when it fits. *)
Definition observed (col : list float) : list float :=
  filter (fun x => negb (isnan x)) col.

(** [_handle_zeros_in_scale]: a scale of zero is replaced by one. *)
Definition handle_zeros_in_scale (s : float) : float :=
  if feqb s fzero then fone else s.

(** [X - X.mean()] for a column. *)
Definition center (col : list float) : list float :=
  let m := mean col in
  map (fun x => fsub x m) col.

(** [check_X_y]: at least one row and one column, as many targets as rows,
    no NaN and no infinity. *)
Definition valid_X_y (X : matrix) (y : list float) : bool :=
  negb (Nat.eqb (width X) 0)
  && Nat.eqb (length y) (length X)
  && all_finite X && forallb isfinite y.

(** [np.argmin]: the first position of the smallest value, a NaN counting
    as smallest. *)
Fixpoint argmin_from (best : nat) (vbest : float) (i : nat) (l : list float)
  : nat :=
  match l with
  | [] => best
  | x :: rest =>
      if isnan vbest then best
      else if isnan x || negb (fleb vbest x) then argmin_from i x (S i) rest
      else argmin_from best vbest (S i) rest
  end.

Definition argmin (l : list float) : option nat :=
  match l with
  | [] => None
  | x :: rest => Some (argmin_from 0 x 1 rest)
  end.

Section Kernels.

(** [np.sqrt]. *)
Variable sqrt : float -> float.

(** The LARS path of [LassoLarsIC] on the data it is given, for a
    criterion and a [normalize] flag: the penalties [alphas_] of the path,
    each with the value [criterion_] of the information criterion there. *)
Variable lars_path_ic : string -> bool -> matrix -> list float
                        -> outcome (list (float * float)).

(** The coefficients of the LARS lasso path at a fixed penalty, on a
    preprocessed design and target. *)
Variable lars_lasso : float -> matrix -> list float -> outcome (list float).

(** [StandardScaler().fit(X)]: [mean_] and [scale_ = sqrt(var_)] of every
    column; an array without rows or columns and an infinite cell are
    refused. *)
Definition StandardScaler_fit (X : matrix) : outcome Scaler :=
  if Nat.eqb (width X) 0 || existsb (existsb isinf) X then Failed ValueError
  else
    Returned
      (mkScaler
         (map (fun c => mean (observed c)) (columns_of X))
         (map (fun c => handle_zeros_in_scale (sqrt (variance (observed c))))
              (columns_of X))).

(** [LassoLarsIC(criterion=c, normalize=b).fit(X, y).alpha_]:
    [alphas_[np.argmin(criterion_)]]. *)
Definition LassoLarsIC_fit (criterion : string) (normalize : bool)
  (X : matrix) (y : list float) : outcome float :=
  match lars_path_ic criterion normalize X y with
  | Failed e => Failed e
  | Returned path =>
      match argmin (map snd path) with
      | None => Failed ValueError
      | Some n_best => Returned (nth n_best (map fst path) NaN)
      end
  end.

(** The l2 norm of a centred column, zero replaced by one. *)
Definition X_scale (normalize : bool) (col : list float) : float :=
  if normalize
  then handle_zeros_in_scale
         (sqrt (fsum (map (fun x => fmul x x) (center col))))
  else fone.

(** [LassoLars(alpha=a, normalize=b).fit(X, y).coef_], with the default
    [fit_intercept=True]: the data are validated, [X] and [y] are centred,
    with [normalize] every column of [X] is divided by its l2 norm, the path
    is run on that design, and the coefficients are divided by the norms
    again. *)
Definition LassoLars_fit (alpha : float) (normalize : bool)
  (X : matrix) (y : list float) : outcome (list float) :=
  if negb (valid_X_y X y) then Failed ValueError
  else
    let scaled :=
      map (fun col => map (fun x => fdiv x (X_scale normalize col)) (center col))
          (columns_of X) in
    let design :=
      map (fun i => map (fun c => nth i c NaN) scaled) (seq 0 (length X)) in
    match lars_lasso alpha design (center y) with
    | Failed e => Failed e
    | Returned coef =>
        if Nat.eqb (length coef) (width X)
        then Returned
               (map (fun bs => fdiv (fst bs) (snd bs))
                    (combine coef (map (X_scale normalize) (columns_of X))))
        else Failed ValueError
    end.

End Kernels.

End sklearn.








(** ** Per-instrument fits, as functions of the data *)

Section Fits.

Variable OLS_fit : list float -> matrix -> outcome RegressionResults.
Variable StandardScaler_fit : matrix -> outcome Scaler.
Variable LassoLarsIC_fit : string -> bool -> matrix -> list float -> outcome float.
Variable LassoLars_fit : float -> bool -> matrix -> list float
                         -> outcome (list float).

(** [OLS(y, add_constant(x)).fit()] *)
Definition dense_fit (x : matrix) (y : list float) : outcome RegressionResults :=
  match add_constant_array x with
  | Returned x1 => OLS_fit y x1
  | Failed e => Failed e
  end.

(** Phase 1: the penalty [alpha_] of the AIC path fitted on the
    standardized design. *)
Definition select_penalty (X : matrix) (y : list float) : outcome float :=
  match StandardScaler_fit X with
  | Returned scaler =>
      LassoLarsIC_fit "aic" false (StandardScaler_transform scaler X) y
  | Failed e => Failed e
  end.

(** Phase 2: the coefficients of the refit on the design as it is, at the
    penalty of phase 1. *)
Definition sparse_fit (X : matrix) (y : list float) : outcome (list float) :=
  match select_penalty X y with
  | Returned alpha_aic => LassoLars_fit alpha_aic true X y
  | Failed e => Failed e
  end.

End Fits.

(** Matrix times vector, to exhibit a linear dependence between columns. *)
Definition dot (u v : list float) : float :=
  fold_left fadd (map (fun ab => fmul (fst ab) (snd ab)) (combine u v)) fzero.

Definition mat_vec (X : matrix) (v : list float) : list float :=
  map (fun row => dot row v) X.

(** ** Vocabulary for statements about returns tables *)

(** The rows of [df.pct_change()], each with its label. *)
Definition returns_rows (df : DataFrame) : list (label * list float) :=
  combine (index df) (values (pct_change df)).

(** A row [dropna] keeps. *)
Definition complete (lr : label * list float) : bool := negb (has_nan (snd lr)).

(** The rows of a table, each with its label. *)
Definition labelled_rows (df : DataFrame) : list (label * list float) :=
  combine (index df) (values df).

(** A finite price other than zero. *)
Definition priced (x : float) : bool :=
  match x with
  | Fin p => negb (Qeq_bool p 0)
  | _ => false
  end.

(** A cell of a price table: missing, or a finite price other than zero. *)
Definition quoted (x : float) : bool := isnan x || priced x.

(** The body [get_returns] and [retrieve_factor_returns] have in common:
    prices of [symbols], returns at [frequency], columns named [names]. *)
Definition returns_table (eod_api : string -> string -> string -> outcome (list eod_row))
  (symbols names : list string) (start_date end_date frequency : string)
  : result DataFrame :=
  df_prices <- fetch_prices eod_api symbols start_date end_date empty_frame ;;
  df_returns <- returns_by_frequency frequency df_prices ;;
  rename_columns df_returns names.

(** ** The result tables, as functions of the data *)

Section Tables.

Variable OLS_fit : list float -> matrix -> outcome RegressionResults.
Variable StandardScaler_fit : matrix -> outcome Scaler.
Variable LassoLarsIC_fit : string -> bool -> matrix -> list float -> outcome float.
Variable LassoLars_fit : float -> bool -> matrix -> list float
                         -> outcome (list float).

(** What one turn of the loop of [lasso_lars_regression] makes of the
    table [T] accumulated so far, [r] and [f] being the tables of returns
    and of factor returns. *)
Definition lasso_step (r f T : DataFrame) (ticker : label) : result DataFrame :=
  y <- getitem r ticker ;;
  coef_ <- propagate (sparse_fit StandardScaler_fit LassoLarsIC_fit
                        LassoLars_fit (values f) y) ;;
  temp <- column_frame coef_ (columns f) ticker ;;
  concat_axis1 T temp.

Fixpoint lasso_table (r f : DataFrame) (tickers : list label) (T : DataFrame)
  : result DataFrame :=
  match tickers with
  | [] => Ok T
  | ticker :: rest =>
      T' <- lasso_step r f T ticker ;;
      lasso_table r f rest T'
  end.

(** The same for [multiple_lin_reg]. *)
Definition ols_step (r f T : DataFrame) (ticker : label) : result DataFrame :=
  y <- getitem r ticker ;;
  lin_reg <- propagate (dense_fit OLS_fit (values f) y) ;;
  concat_axis1 T (series_frame (params lin_reg)).

Fixpoint ols_table (r f : DataFrame) (tickers : list label) (T : DataFrame)
  : result DataFrame :=
  match tickers with
  | [] => Ok T
  | ticker :: rest =>
      T' <- ols_step r f T ticker ;;
      ols_table r f rest T'
  end.

(** The three assignments after the loop of [multiple_lin_reg]. *)
Definition ols_finish (r f T : DataFrame) : result DataFrame :=
  dropped <- drop_rows T (LStr "const") ;;
  reindexed <- set_index dropped (columns f) ;;
  set_columns reindexed (columns r).

(** The coefficients [c] are those of the two-phase fit of [y] on [X]:
    phase 1 selects [alpha] by AIC on the standardized design (the scaler
    fitted on [X] itself), phase 2 refits on [X] as it is at that
    [alpha]. *)
Definition two_phase_fit (X : matrix) (y c : list float) : Prop :=
  exists scaler alpha,
    StandardScaler_fit X = Returned scaler
    /\ LassoLarsIC_fit "aic" false (StandardScaler_transform scaler X) y
       = Returned alpha
    /\ LassoLars_fit alpha true X y = Returned c.

(** The column of [ticker] in the table of returns [r] was fitted on the
    design [f] in two phases, and gave one coefficient per factor. *)
Definition sparse_fitted (r f : DataFrame) (ticker : label) (c : list float)
  : Prop :=
  exists y, getitem r ticker = Ok y
            /\ two_phase_fit (values f) y c
            /\ length c = ncols f.

(** The column of [ticker] has a dense fit on the design [f]. *)
Definition dense_fitted (r f : DataFrame) (ticker : label) : Prop :=
  exists y lm, getitem r ticker = Ok y
               /\ dense_fit OLS_fit (values f) y = Returned lm.

End Tables.

(** The table with the row labels [idx], one column per ticker, and the
    coefficient vectors [cs] as its columns; [pd.DataFrame()] when there is
    no ticker. *)
Definition coef_table (idx tickers : list label) (cs : list (list float))
  : DataFrame :=
  match tickers with
  | [] => empty_frame
  | _ => mkDF idx tickers
              (map (fun i => map (fun c => nth i c NaN) cs) (seq 0 (length idx)))
  end.

(** ** Vocabulary for statements about the heap and about exceptions *)

(** [h] is [h0] followed by new objects. *)
Definition extends (h0 h : heap) : Prop := exists t, h = h0 ++ t.

(** [touches_only_new h0 P m]: run from any heap that extends [h0], the
    computation [m] leaves the objects of [h0] in place, and what it returns
    satisfies [P]. *)
Definition touches_only_new {A : Type} (h0 : heap) (P : A -> Prop) (m : M A)
  : Prop :=
  forall h, extends h0 h ->
    extends h0 (snd (m h)) /\ (forall a, fst (m h) = Ok a -> P a).

Definition is_new (h0 : heap) (l : loc) : Prop := (length h0 <= l)%nat.

Definition anything {A : Type} (_ : A) : Prop := True.

(** What a computation returns, and the table found at the returned
    location, agree with a result computed on the data. *)
Definition computes (m : M loc) (h : heap) (v : result DataFrame) : Prop :=
  match v with
  | Ok T => exists l, fst (m h) = Ok l /\ nth_error (snd (m h)) l = Some (Frame T)
  | Raise e => fst (m h) = Raise e
  end.

(** A price table with [n] columns: every row has [n] cells, the row
    labels are dates, and there is a row as soon as there is a column. *)
Record wf_prices (n : nat) (df : DataFrame) : Prop := mkWf {
  wf_ncols : ncols df = n;
  wf_nrows : length (values df) = nrows df;
  wf_width : Forall (fun r => length r = n) (values df);
  wf_dates : forallb is_date (index df) = true;
  wf_nonempty : (0 < n)%nat -> index df <> []
}.

(** An exception of the script itself, or one of a library: never one of
    the taxonomy of the design document. *)
Definition from_the_code (e : exn) : Prop :=
  e = UnboundLocalError \/ exists le, e = Lib le.

(** The auxiliary regression of column [i] on the other columns of [exog]
    returned the model [lm]. *)
Definition auxiliary_fit
  (OLS_fit : list float -> matrix -> outcome RegressionResults)
  (exog : matrix) (i : nat) (lm : RegressionResults) : Prop :=
  OLS_fit (column_cells i exog) (map (remove_at i) exog) = Returned lm.

(** [1. / (1. - r_squared_i)] *)
Definition vif_of (lm : RegressionResults) : float :=
  fdiv fone (fsub fone (rsquared lm)).

(** Column [j] of the array [x] is constant and not zero: every row holds
    the same finite number, other than 0, at position [j]. *)
Definition constant_nonzero_column (x : matrix) (j : nat) : Prop :=
  exists c : Q,
    ~ (c == 0)%Q
    /\ Forall (fun row => exists c' : Q, nth j row NaN = Fin c' /\ (c' == c)%Q) x.

(** ** Vocabulary for further statements about prices and returns *)

(** The ticker [get_stock_prices] asks the provider for. *)
Definition eod_ticker (symbol : string) : string :=
  if negb (contains ".TO" symbol) then (symbol ++ ".US")%string else symbol.

(** What [get_stock_prices] makes of the provider's answer. *)
Definition price_table (answer : outcome (list eod_row)) : result DataFrame :=
  prices <- propagate answer ;;
  match prices with
  | [] => Raise (Lib KeyError)
  | _ =>
      let sorted := sort_rows prices in
      Ok (mkDF (map (fun r => LDate (row_date r)) sorted)
               [LStr "adjusted_close"]
               (map (fun r => [adjusted_close r]) sorted))
  end.

(** Calendar order on records and on row labels. *)
Definition row_le (a b : eod_row) : Prop :=
  date_leb (row_date a) (row_date b) = true.

Definition label_lt (a b : label) : Prop :=
  match a, b with
  | LDate x, LDate y => date_compare x y = Lt
  | _, _ => False
  end.

(** The last day of some calendar month. *)
Definition is_month_end (l : label) : Prop :=
  match l with
  | LDate x =>
      1 <= month x <= 12 /\ day x = days_in_month (year x) (month x)
  | _ => False
  end.

(** A table is rectangular: one row of cells per row label, one cell per
    column label in every row. *)
Definition rectangular (df : DataFrame) : Prop :=
  length (values df) = nrows df
  /\ Forall (fun row => length row = ncols df) (values df).

(** ** Vocabulary for statements about names and data *)

(** The cell [v] is what the one-column table [t] holds at the label [l]:
    the value of a row labelled [l], NaN when [t] has no such row. *)
Definition cell_of (t : DataFrame) (l : label) (v : float) : Prop :=
  In (l, v) (combine (index t) (frame_column t 0))
  \/ (~ In l (index t) /\ v = NaN).

(** Column [j] of [df] is the one-column table [t], aligned on the row
    labels of [df]. *)
Definition aligned (df : DataFrame) (j : nat) (t : DataFrame) : Prop :=
  incl (index t) (index df)
  /\ Forall2 (cell_of t) (index df) (frame_column df j).

(** Padding of one column: a NaN takes the last value above it. *)
Fixpoint pad_from (prev : float) (col : list float) : list float :=
  match col with
  | [] => []
  | x :: rest =>
      let x' := if isnan x then prev else x in
      x' :: pad_from x' rest
  end.

Definition pad_column (col : list float) : list float :=
  match col with
  | [] => []
  | x :: rest => x :: pad_from x rest
  end.

(** Returns of one column: each padded value over the one above it, minus
    one; nothing is above the first. *)
Fixpoint pct_from (prev : float) (col : list float) : list float :=
  match col with
  | [] => []
  | x :: rest => pct x prev :: pct_from x rest
  end.

Definition pct_column (col : list float) : list float :=
  pct_from NaN (pad_column col).

(** The last observed value of every calendar month, for one column with
    the row labels [idx]. *)
Definition monthly_last_column (idx : list label) (col : list float)
  : list float :=
  map (fun k =>
         last_valid
           (map snd (filter (fun lv => Z.eqb (label_month (fst lv)) k)
                            (combine idx col))))
      (month_bins idx).

(** The parameters of a fitted OLS model after the first one. *)
Definition slopes (lm : RegressionResults) : list float :=
  tl (map snd (params lm)).

(** The dense fit of the column of [ticker] on the design [f] returned the
    model [lm], whose parameters statsmodels named [names]. *)
Definition dense_fitted_as
  (OLS_fit : list float -> matrix -> outcome RegressionResults)
  (r f : DataFrame) (names : list label) (ticker : label)
  (lm : RegressionResults) : Prop :=
  exists y, getitem r ticker = Ok y
            /\ dense_fit OLS_fit (values f) y = Returned lm
            /\ map fst (params lm) = names.

(** The prices of AAA and BBB of the demonstration provider, joined. *)
Definition demo_prices : DataFrame :=
  Eval vm_compute in
    match fetch_prices demo_api ["AAA"; "BBB"] "2012-01-01" "2023-02-28"
            empty_frame with
    | Ok df => df
    | Raise _ => empty_frame
    end.

(** ** Vocabulary for statements about the two phases of the sparse fit *)












(** ** Exact least squares *)

Module lstsq.

(** A vector of rationals, read at the positions below its dimension. *)
Definition vec : Type := nat -> Qc.

(** The sum of [f 0], ..., [f (n - 1)]. *)
Fixpoint sum (n : nat) (f : nat -> Qc) : Qc :=
  match n with
  | O => 0%Qc
  | S k => (sum k f + f k)%Qc
  end.

Definition dot (d : nat) (u v : vec) : Qc := sum d (fun i => (u i * v i)%Qc).

(** The linear combination of the vectors [gens] with the coefficients
    [w]. *)
Fixpoint comb (w : list Qc) (gens : list vec) : vec :=
  match w, gens with
  | a :: w', g :: gens' => fun i => (a * g i + comb w' gens' i)%Qc
  | _, _ => fun _ => 0%Qc
  end.

(** Coefficients of the orthogonal projection of [u] on the span of
    [gens], in dimension [d]: Gram-Schmidt, one generator after the
    other; a generator that depends on the ones after it gets 0. *)
Fixpoint project (d : nat) (gens : list vec) (u : vec) : list Qc :=
  match gens with
  | [] => []
  | g :: gs =>
      let a := project d gs g in
      let b := project d gs u in
      let g' := fun i => (g i - comb a gs i)%Qc in
      let n := dot d g' g' in
      if Qeq_bool (this n) 0 then 0%Qc :: b
      else
        let t := (dot d u g' / n)%Qc in
        t :: map (fun ba => (fst ba - t * snd ba)%Qc) (combine b a)
  end.

(** The least-norm least-squares solution of [X b = y], for [X] with [m]
    rows and [n] columns given by its entries: the projection of [y] on
    the columns gives a solution, whose projection on the rows is the one
    of least norm. *)
Definition solve (m n : nat) (X : nat -> nat -> Qc) (y : vec) : list Qc :=
  let cols := map (fun j => fun i => X i j) (seq 0 n) in
  let rows := map (fun i => fun j => X i j) (seq 0 m) in
  let b0 := project m cols y in
  let w := project n rows (fun j => nth j b0 0%Qc) in
  map (comb w rows) (seq 0 n).

(** The product of the matrix [X], with [n] columns, and the vector
    [b]. *)
Definition times (n : nat) (X : nat -> nat -> Qc) (b : vec) : vec :=
  fun i => sum n (fun k => (X i k * b k)%Qc).

(** The residual sum of squares of [b], and the square of its norm. *)
Definition rss (m n : nat) (X : nat -> nat -> Qc) (y b : vec) : Qc :=
  sum m (fun i => ((times n X b i - y i) * (times n X b i - y i))%Qc).

Definition norm2 (n : nat) (b : vec) : Qc := dot n b b.

(** [b] minimises the residual sum of squares. *)
Definition least_squares (m n : nat) (X : nat -> nat -> Qc) (y b : vec) : Prop :=
  forall b' : vec, (rss m n X y b <= rss m n X y b')%Qc.

(** [b] is the solution of least norm among the least-squares
    solutions. *)
Definition least_norm (m n : nat) (X : nat -> nat -> Qc) (y b : vec) : Prop :=
  least_squares m n X y b
  /\ forall b' : vec, least_squares m n X y b' -> (norm2 n b <= norm2 n b')%Qc.

End lstsq.

(** The rational a finite float stands for. *)
Definition to_Qc (x : float) : Qc :=
  match x with
  | Fin v => Q2Qc v
  | _ => 0%Qc
  end.

Definition of_Qc (c : Qc) : float := Fin (this c).

Definition entry (X : matrix) (i j : nat) : Qc :=
  to_Qc (nth j (nth i X []) NaN).

Definition component (v : list float) (i : nat) : Qc := to_Qc (nth i v NaN).

(** The coefficients [b] are the least-norm least-squares solution of the
    regression of [y] on the columns of [X]: finite numbers, one per
    column, that minimise the residual sum of squares and, among the
    minimisers, the norm. *)
Definition least_norm_solution (X : matrix) (y b : list float) : Prop :=
  length b = width X
  /\ forallb isfinite b = true
  /\ lstsq.least_norm (length X) (width X) (entry X) (component y) (component b).

(** Data [OLS] can be run on: a row at least, as many cells in every row,
    a target per row, every cell a finite number. *)
Definition regular (X : matrix) (y : list float) : Prop :=
  X <> [] /\ Forall (fun r => length r = width X) X
  /\ length y = length X
  /\ all_finite X = true /\ forallb isfinite y = true.

(** What statsmodels documents of [OLS(y, X).fit()] with its default
    [method='pinv']: on regular data it returns, and the parameters are the
    product of the pseudo-inverse of [X] with [y], the least-norm
    least-squares solution. *)
Definition pinv_fit
  (OLS_fit : list float -> matrix -> outcome RegressionResults) : Prop :=
  forall y X, regular X y ->
    exists lm, OLS_fit y X = Returned lm
               /\ least_norm_solution X y (map snd (params lm)).

(** An OLS kernel in exact arithmetic: the least-norm least-squares
    solution as parameters, under the names statsmodels gives the columns
    of an array with the constant first, and [1 - ssr / tss] about the
    mean as [rsquared]. *)
Definition exact_solution (X : matrix) (y : list float) : list float :=
  map of_Qc (lstsq.solve (length X) (width X) (entry X) (component y)).

Definition exact_rsquared (X : matrix) (y b : list float) : float :=
  let fitted := map (fun row => sklearn.fsum (map (fun xb => fmul (fst xb) (snd xb))
                                                 (combine row b))) X in
  let ssr := sklearn.fsum (map (fun yf => fmul (fsub (fst yf) (snd yf))
                                              (fsub (fst yf) (snd yf)))
                               (combine y fitted)) in
  let tss := sklearn.fsum (map (fun v => fmul v v) (sklearn.center y)) in
  fsub fone (fdiv ssr tss).

Definition exact_OLS (endog : list float) (exog : matrix)
  : outcome RegressionResults :=
  if negb (Nat.eqb (length endog) (length exog)) then Failed ValueError
  else if negb (all_finite exog && forallb isfinite endog) then Failed LinAlgError
  else
    let b := exact_solution exog endog in
    Returned (mkResults (combine (exog_names (width exog)) b)
                        (exact_rsquared exog endog b)).

(** ** The script: module constants and the statements after the functions *)

(** What stops the script: an exception out of one of its functions, or the
    [IndexError] of a positional access ([index[0]], [iloc[:, 3]]). *)
Inductive script_exn : Type :=
| Raised (e : exn)
| IndexError.

Inductive script_result (A : Type) : Type :=
| Done (a : A)
| Stopped (e : script_exn).

Arguments Done {A} a.
Arguments Stopped {A} e.

(** [idx.is_monotonic_increasing] *)
Fixpoint is_monotonic_increasing (idx : list label) : bool :=
  match idx with
  | a :: rest =>
      match rest with
      | b :: _ => label_leb a b && is_monotonic_increasing rest
      | [] => true
      end
  | [] => true
  end.

(** The rows from the first one whose label is not before [start] on: the
    left bound [searchsorted] finds in a sorted index. *)
Fixpoint rows_from (start : label) (rows : list (label * list float))
  : list (label * list float) :=
  match rows with
  | [] => []
  | lr :: rest =>
      if label_leb start (fst lr) then rows else rows_from start rest
  end.

(** [df.loc[start:]]: on a sorted index the rows from the left bound on,
    whether [start] is a label of the table or not; on an unsorted index the
    rows from the label [start] on, [KeyError] unless it occurs once. *)
Definition loc_from (df : DataFrame) (start : label) : result DataFrame :=
  let rows := combine (index df) (values df) in
  if is_monotonic_increasing (index df) then
    let kept := rows_from start rows in
    Ok (mkDF (map fst kept) (columns df) (map snd kept))
  else
    match filter (label_eqb start) (index df), position start (index df) with
    | [_], Some i =>
        let kept := skipn i rows in
        Ok (mkDF (map fst kept) (columns df) (map snd kept))
    | _, _ => Raise (Lib KeyError)
    end.

(** [df.iloc[:, j]]; [None] is the [IndexError] of a position out of
    bounds. *)
Definition iloc_column (df : DataFrame) (j : nat) : option (list float) :=
  if Nat.ltb j (ncols df) then Some (frame_column df j) else None.

(** A step of the script on the heap. *)
Definition Script (A : Type) : Type := heap -> script_result A * heap.

Definition bindS {A B : Type} (m : Script A) (f : A -> Script B) : Script B :=
  fun h =>
    match m h with
    | (Done a, h') => f a h'
    | (Stopped e, h') => (Stopped e, h')
    end.

Notation "x <: m ;; k" := (bindS m (fun x => k))
  (at level 61, m at next level, right associativity).

(** A call of one of the functions: its exception stops the script. *)
Definition run {A : Type} (m : M A) : Script A :=
  fun h =>
    match m h with
    | (Ok a, h') => (Done a, h')
    | (Raise e, h') => (Stopped (Raised e), h')
    end.

(** A positional access. *)
Definition positional {A : Type} (o : option A) : Script A :=
  fun h =>
    match o with
    | Some a => (Done a, h)
    | None => (Stopped IndexError, h)
    end.

(** The module-level names of [factor_analysis.py]. *)
Module factor_analysis.

Definition start_date : string := "2012-01-01".
Definition end_date : string := "2023-02-28".

Definition tickers : list string := ["QIACX"; "VTSAX"; "FCNTX"; "TRBCX"].

(** [factors_dict], in insertion order. *)
Definition factors_dict : list (string * string) :=
  [("US Growth", "VUG"); ("US Value", "VTV"); ("US Dividend", "SCHD");
   ("US Quality", "QUAL"); ("US Defensive", "DEF"); ("US Small Cap", "VB");
   ("US Mid Cap", "VO"); ("US Large Cap", "VV"); ("Intl Growth", "EFG");
   ("Intl Value", "EFV"); ("Intl Momentum", "IMTM"); ("Intl Dividend", "IDV");
   ("Intl Quality", "IQLT"); ("Intl Small-Cap", "GWX")].

Section TheScript.

Variable eod_api : string -> string -> string -> outcome (list eod_row).
Variable OLS_fit : list float -> matrix -> outcome RegressionResults.
Variable StandardScaler_fit : matrix -> outcome Scaler.
Variable LassoLarsIC_fit : string -> bool -> matrix -> list float -> outcome float.
Variable LassoLars_fit : float -> bool -> matrix -> list float
                         -> outcome (list float).

(** [lin_reg.summary()] of statsmodels. *)
Variable summary : RegressionResults -> outcome unit.

(** The preparation of the data: the two retrievals at the default
    frequency 'M', and
    [df_funds = df_funds.loc[df_factors.index[0]:]].  The value is the pair
    of tables [df_funds] and [df_factors] are bound to afterwards. *)
Definition prepare : Script (loc * loc) :=
  funds <: run (lift (get_returns eod_api tickers start_date end_date "M")) ;;
  df_funds <: run (alloc (Frame funds)) ;;
  factors <: run (lift (retrieve_factor_returns eod_api factors_dict
                          start_date end_date "M")) ;;
  df_factors <: run (alloc (Frame factors)) ;;
  f <: run (read_frame df_factors) ;;
  first <: positional (hd_error (index f)) ;;
  cur <: run (read_frame df_funds) ;;
  truncated <: run (lift (loc_from cur first)) ;;
  df_funds <: run (alloc (Frame truncated)) ;;
  fun h => (Done (df_funds, df_factors), h).

(** The whole of the statements under [# %% execute]; the value is what
    [regression_vif] returned, [lin_reg], [simple_lr_results] and
    [results]. *)
Definition script : Script (loc * RegressionResults * loc * loc) :=
  tables <: prepare ;;
  let df_funds := fst tables in
  let df_factors := snd tables in
  vif <: run (regression_vif OLS_fit df_factors) ;;
  cur <: run (read_frame df_funds) ;;
  y <: positional (iloc_column cur 3) ;;
  lin_reg <: run (linear_reg OLS_fit y df_factors true) ;;
  _ <: run (call (summary lin_reg)) ;;
  simple_lr_results <: run (multiple_lin_reg OLS_fit df_funds df_factors true) ;;
  results <: run (lasso_lars_regression StandardScaler_fit LassoLarsIC_fit
                    LassoLars_fit df_funds df_factors) ;;
  fun h => (Done (vif, lin_reg, simple_lr_results, results), h).

End TheScript.

End factor_analysis.

(** Two providers for the script: one answers every ticker with the same
    three month-end prices, the other with a single price. *)
Definition three_months_api (ticker start_date end_date : string)
  : outcome (list eod_row) :=
  Returned [mkRow (d 2020 1 31) (Fin 100); mkRow (d 2020 2 28) (Fin 110);
            mkRow (d 2020 3 31) (Fin 99)].

Definition one_day_api (ticker start_date end_date : string)
  : outcome (list eod_row) :=
  Returned [mkRow (d 2020 1 31) (Fin 100)].

(** Two more providers: one answers every ticker with the same price on
    three days, the other with its records out of calendar order. *)
Definition flat_api (ticker start_date end_date : string)
  : outcome (list eod_row) :=
  Returned [mkRow (d 2020 1 29) (Fin 7); mkRow (d 2020 1 30) (Fin 7);
            mkRow (d 2020 1 31) (Fin 7)].

Definition unordered_api (ticker start_date end_date : string)
  : outcome (list eod_row) :=
  Returned [mkRow (d 2020 3 30) (Fin 60); mkRow (d 2020 1 15) (Fin 40);
            mkRow (d 2020 2 27) (Fin 50)].

Definition table_or_empty (r : result DataFrame) : DataFrame :=
  match r with
  | Ok df => df
  | Raise _ => empty_frame
  end.

Definition three_months_funds : DataFrame :=
  Eval vm_compute in
    table_or_empty (get_returns three_months_api factor_analysis.tickers
                      factor_analysis.start_date factor_analysis.end_date "M").

Definition three_months_factors : DataFrame :=
  Eval vm_compute in
    table_or_empty (retrieve_factor_returns three_months_api
                      factor_analysis.factors_dict
                      factor_analysis.start_date factor_analysis.end_date "M").

Definition one_day_funds : DataFrame :=
  Eval vm_compute in
    table_or_empty (get_returns one_day_api factor_analysis.tickers
                      factor_analysis.start_date factor_analysis.end_date "M").

Definition one_day_factors : DataFrame :=
  Eval vm_compute in
    table_or_empty (retrieve_factor_returns one_day_api
                      factor_analysis.factors_dict
                      factor_analysis.start_date factor_analysis.end_date "M").

(** A [summary()] that always returns. *)
Definition plain_summary (lm : RegressionResults) : outcome unit := Returned tt.

(** A part of the script that cannot stop on a positional access. *)
Definition never_index_error {A : Type} (m : Script A) : Prop :=
  forall h, fst (m h) <> Stopped IndexError.

(** * Properties *)

(** ** The heap discipline: an estimator only adds objects *)

Lemma extends_refl h : extends h h.
Proof. exists []. now rewrite app_nil_r. Qed.

Lemma extends_trans h0 h1 h2 : extends h0 h1 -> extends h1 h2 -> extends h0 h2.
Proof.
  intros [t1 ->] [t2 ->]. exists (t1 ++ t2). now rewrite app_assoc.
Qed.

Lemma extends_length h0 h : extends h0 h -> (length h0 <= length h)%nat.
Proof. intros [t ->]. rewrite length_app. lia. Qed.

Lemma extends_snoc h0 h o : extends h0 h -> extends h0 (h ++ [o]).
Proof. intros [t ->]. exists (t ++ [o]). now rewrite app_assoc. Qed.

Lemma update_app_fresh h0 : forall t l o,
  (length h0 <= l)%nat ->
  update l o (h0 ++ t) = h0 ++ update (l - length h0)%nat o t.
Proof.
  induction h0 as [|x h0 IH]; intros t l o Hl; simpl.
  - now rewrite Nat.sub_0_r.
  - destruct l as [|l]; simpl in *; [lia|].
    f_equal. apply IH. lia.
Qed.

Lemma extends_update h0 h l o :
  (length h0 <= l)%nat -> extends h0 h -> extends h0 (update l o h).
Proof.
  intros Hl [t ->]. rewrite update_app_fresh by assumption. now eexists.
Qed.

Lemma extends_nth_error h0 h l :
  extends h0 h -> (l < length h0)%nat -> nth_error h l = nth_error h0 l.
Proof. intros [t ->] Hl. now apply nth_error_app1. Qed.

Lemma new_ret {A} h0 (P : A -> Prop) a : P a -> touches_only_new h0 P (ret a).
Proof.
  intros Ha h Hh; simpl; split; [assumption|].
  intros a' E. now inversion E; subst.
Qed.

Lemma new_lift {A} h0 (r : result A) : touches_only_new h0 anything (lift r).
Proof. intros h Hh; simpl; split; [assumption|]. intros; exact I. Qed.

Lemma new_call {A} h0 (o : outcome A) : touches_only_new h0 anything (call o).
Proof. apply new_lift. Qed.

Lemma new_read_frame h0 l : touches_only_new h0 anything (read_frame l).
Proof.
  intros h Hh. unfold read_frame.
  destruct (nth_error h l) as [[df|t]|]; simpl; split; auto; intros; exact I.
Qed.

Lemma new_read_mixed h0 l : touches_only_new h0 anything (read_mixed l).
Proof.
  intros h Hh. unfold read_mixed.
  destruct (nth_error h l) as [[df|t]|]; simpl; split; auto; intros; exact I.
Qed.

Lemma new_alloc h0 o : touches_only_new h0 (is_new h0) (alloc o).
Proof.
  intros h Hh. unfold alloc; simpl. split.
  - now apply extends_snoc.
  - intros a E. inversion E; subst. now apply extends_length.
Qed.

Lemma new_store h0 l o :
  is_new h0 l -> touches_only_new h0 anything (store l o).
Proof.
  intros Hl h Hh. unfold store; simpl. split.
  - now apply extends_update.
  - intros; exact I.
Qed.

Lemma new_bind {A B} h0 (P : A -> Prop) (Q : B -> Prop) (m : M A) (f : A -> M B) :
  touches_only_new h0 P m ->
  (forall a, P a -> touches_only_new h0 Q (f a)) ->
  touches_only_new h0 Q (bindM m f).
Proof.
  intros Hm Hf h Hh. unfold bindM.
  destruct (Hm h Hh) as [He HP].
  destruct (m h) as [[a|e] h1] eqn:E; simpl in *.
  - apply (Hf a (HP a eq_refl) h1 He).
  - split; [assumption|]. intros a E'. discriminate.
Qed.

Lemma new_weaken {A} h0 (P Q : A -> Prop) (m : M A) :
  (forall a, P a -> Q a) -> touches_only_new h0 P m -> touches_only_new h0 Q m.
Proof.
  intros HPQ Hm h Hh. destruct (Hm h Hh) as [He HP]. split; auto.
Qed.

Ltac new_step :=
  first
    [ eapply new_bind; [ apply new_read_frame | intros ? _ ]
    | eapply new_bind; [ apply new_read_mixed | intros ? _ ]
    | eapply new_bind; [ apply new_lift | intros ? _ ]
    | eapply new_bind; [ apply new_call | intros ? _ ]
    | eapply new_bind; [ apply new_alloc | intros ? ? ]
    | eapply new_bind; [ apply new_store; assumption | intros ? _ ] ].

Section EstimatorFrames.

Variable OLS_fit : list float -> matrix -> outcome RegressionResults.
Variable StandardScaler_fit : matrix -> outcome Scaler.
Variable LassoLarsIC_fit : string -> bool -> matrix -> list float -> outcome float.
Variable LassoLars_fit : float -> bool -> matrix -> list float
                         -> outcome (list float).

Lemma new_regression_vif h0 X :
  touches_only_new h0 (is_new h0) (regression_vif OLS_fit X).
Proof.
  unfold regression_vif.
  repeat new_step. now apply new_ret.
Qed.

Lemma new_linear_reg h0 y x b :
  touches_only_new h0 anything (linear_reg OLS_fit y x b).
Proof.
  unfold linear_reg.
  eapply new_bind with (P := anything).
  - destruct b.
    + eapply new_weaken; [|repeat new_step; apply new_alloc]. intros; exact I.
    + now apply new_ret.
  - intros ? _. repeat new_step. now apply new_ret.
Qed.

Lemma new_multiple_lin_reg_body h0 ticker returns factor_returns df_results :
  touches_only_new h0 (is_new h0)
    (multiple_lin_reg_body OLS_fit ticker returns factor_returns df_results).
Proof.
  unfold multiple_lin_reg_body.
  repeat new_step.
  eapply new_bind; [apply new_linear_reg | intros ? _].
  repeat new_step. apply new_alloc.
Qed.

Lemma new_multiple_lin_reg_loop h0 returns factor_returns :
  forall tickers df_results,
    is_new h0 df_results ->
    touches_only_new h0 (is_new h0)
      (multiple_lin_reg_loop OLS_fit tickers returns factor_returns df_results).
Proof.
  induction tickers as [|ticker rest IH]; intros df_results Hnew; simpl.
  - now apply new_ret.
  - eapply new_bind; [apply new_multiple_lin_reg_body | intros ? ?].
    now apply IH.
Qed.

Lemma new_multiple_lin_reg h0 returns factor_returns b :
  touches_only_new h0 (is_new h0)
    (multiple_lin_reg OLS_fit returns factor_returns b).
Proof.
  unfold multiple_lin_reg.
  repeat new_step.
  eapply new_bind; [now apply new_multiple_lin_reg_loop | intros ? ?].
  repeat new_step. now apply new_ret.
Qed.

Lemma new_lasso_lars_body h0 ticker returns factor_returns df_results :
  touches_only_new h0 (is_new h0)
    (lasso_lars_body StandardScaler_fit LassoLarsIC_fit LassoLars_fit
       ticker returns factor_returns df_results).
Proof.
  unfold lasso_lars_body.
  repeat new_step. apply new_alloc.
Qed.

Lemma new_lasso_lars_loop h0 returns factor_returns :
  forall tickers df_results,
    is_new h0 df_results ->
    touches_only_new h0 (is_new h0)
      (lasso_lars_loop StandardScaler_fit LassoLarsIC_fit LassoLars_fit
         tickers returns factor_returns df_results).
Proof.
  induction tickers as [|ticker rest IH]; intros df_results Hnew; simpl.
  - now apply new_ret.
  - eapply new_bind; [apply new_lasso_lars_body | intros ? ?].
    now apply IH.
Qed.

Lemma new_lasso_lars_regression h0 returns factor_returns :
  touches_only_new h0 (is_new h0)
    (lasso_lars_regression StandardScaler_fit LassoLarsIC_fit LassoLars_fit
       returns factor_returns).
Proof.
  unfold lasso_lars_regression.
  repeat new_step. now apply new_lasso_lars_loop.
Qed.

End EstimatorFrames.

(** ** [linear_reg] *)

Lemma nth_error_snoc (h : heap) (o : obj) : nth_error (h ++ [o]) (length h) = Some o.
Proof.
  rewrite nth_error_app2 by lia. now rewrite Nat.sub_diag.
Qed.

Section LinearReg.

Variable OLS_fit : list float -> matrix -> outcome RegressionResults.

Lemma linear_reg_result y x b h :
  fst (linear_reg OLS_fit y x b h) =
  match nth_error h x with
  | Some (Frame df) => propagate (dense_fit OLS_fit (values df) y)
  | _ => Raise (Lib TypeError)
  end.
Proof.
  unfold linear_reg, dense_fit, bindM, read_frame, alloc, ret, call, lift.
  destruct b.
  - destruct (nth_error h x) as [[df|t]|] eqn:E; simpl; try reflexivity.
    rewrite nth_error_snoc; simpl.
    destruct (add_constant_array (values df)) as [x1|e]; simpl; [|reflexivity].
    destruct (OLS_fit y x1); reflexivity.
  - simpl.
    destruct (nth_error h x) as [[df|t]|] eqn:E; simpl; try reflexivity.
    destruct (add_constant_array (values df)) as [x1|e]; simpl; [|reflexivity].
    destruct (OLS_fit y x1); reflexivity.
Qed.

Lemma linear_reg_heap y x b h df :
  nth_error h x = Some (Frame df) ->
  snd (linear_reg OLS_fit y x b h) = if b then h ++ [Frame df] else h.
Proof.
  intros E.
  unfold linear_reg, bindM, read_frame, alloc, ret, call, lift.
  destruct b; simpl; rewrite E; simpl.
  - rewrite nth_error_snoc; simpl.
    destruct (add_constant_array (values df)) as [x1|e]; simpl; [|reflexivity].
    destruct (OLS_fit y x1); reflexivity.
  - destruct (add_constant_array (values df)) as [x1|e]; simpl; [|reflexivity].
    destruct (OLS_fit y x1); reflexivity.
Qed.

End LinearReg.

(** *** When [add_constant] adds a column *)

Lemma fleb_trans a b c : fleb a b = true -> fleb b c = true -> fleb a c = true.
Proof.
  destruct a as [x| | |], b as [y| | |], c as [z| | |]; simpl;
    try discriminate; try reflexivity.
  rewrite !Qle_bool_iff. intros H1 H2. now apply Qle_trans with y.
Qed.

Lemma fleb_total a b :
  isnan a = false -> isnan b = false -> fleb a b = false -> fleb b a = true.
Proof.
  destruct a as [x| | |], b as [y| | |]; simpl; try discriminate; try reflexivity.
  intros _ _ H. apply Qle_bool_iff.
  destruct (Qlt_le_dec y x) as [L|L].
  - now apply Qlt_le_weak.
  - apply Qle_bool_iff in L. congruence.
Qed.

Lemma fleb_not_nan a b : fleb a b = true -> isnan a = false /\ isnan b = false.
Proof. destruct a, b; simpl; try discriminate; auto. Qed.

Lemma fmax_below a b c :
  fleb (fmax a b) c = true -> fleb a c = true /\ fleb b c = true.
Proof.
  unfold fmax. destruct (isnan a) eqn:Na.
  { destruct a; discriminate. }
  destruct (isnan b) eqn:Nb.
  { destruct b; discriminate. }
  destruct (fleb a b) eqn:E; intros H.
  - split; [now apply fleb_trans with b|exact H].
  - split; [exact H|]. apply fleb_trans with a; [|exact H].
    now apply fleb_total.
Qed.

Lemma fmin_above a b c :
  fleb c (fmin a b) = true -> fleb c a = true /\ fleb c b = true.
Proof.
  unfold fmin. destruct (isnan a) eqn:Na.
  { destruct a, c; discriminate. }
  destruct (isnan b) eqn:Nb.
  { destruct b, c; discriminate. }
  destruct (fleb a b) eqn:E; intros H.
  - split; [exact H|now apply fleb_trans with a].
  - split; [|exact H]. apply fleb_trans with b; [exact H|].
    now apply fleb_total.
Qed.

Lemma fleb_refl_fin q : fleb (Fin q) (Fin q) = true.
Proof. simpl. apply Qle_bool_iff. apply Qle_refl. Qed.

Lemma fold_fmax_bound : forall xs x M,
  fold_left fmax xs x = Fin M ->
  fleb x (Fin M) = true /\ Forall (fun e => fleb e (Fin M) = true) xs.
Proof.
  induction xs as [|a xs IH]; intros x M H; simpl in H.
  - subst x. split; [apply fleb_refl_fin|constructor].
  - destruct (IH _ _ H) as [H1 H2]. apply fmax_below in H1.
    destruct H1 as [Hx Ha]. split; [exact Hx|now constructor].
Qed.

Lemma fold_fmin_bound : forall xs x m,
  fold_left fmin xs x = Fin m ->
  fleb (Fin m) x = true /\ Forall (fun e => fleb (Fin m) e = true) xs.
Proof.
  induction xs as [|a xs IH]; intros x m H; simpl in H.
  - subst x. split; [apply fleb_refl_fin|constructor].
  - destruct (IH _ _ H) as [H1 H2]. apply fmin_above in H1.
    destruct H1 as [Hx Ha]. split; [exact Hx|now constructor].
Qed.

Lemma fsub_fin a b p :
  fsub a b = Fin p ->
  exists qa qb, a = Fin qa /\ b = Fin qb /\ (p == qa - qb)%Q.
Proof.
  unfold fsub, fneg, fadd.
  destruct a as [x| | |], b as [y| | |]; try discriminate.
  intros H.
  assert (E : p = Qred (x + Qred (- y))) by congruence.
  exists x, y.
  split; [reflexivity|]. split; [reflexivity|].
  rewrite E, Qred_correct. unfold Qminus.
  apply Qplus_comp; [reflexivity|apply Qred_correct].
Qed.

Lemma between_fin m M e :
  fleb (Fin m) e = true -> fleb e (Fin M) = true ->
  exists v, e = Fin v /\ (m <= v)%Q /\ (v <= M)%Q.
Proof.
  destruct e as [v| | |]; simpl; try discriminate.
  rewrite !Qle_bool_iff. intros H1 H2. now exists v.
Qed.

Lemma fold_fmax_const (c : Q) : forall xs x,
  (exists q, x = Fin q /\ (q == c)%Q) ->
  Forall (fun v => exists c', v = Fin c' /\ (c' == c)%Q) xs ->
  exists M, fold_left fmax xs x = Fin M /\ (M == c)%Q.
Proof.
  induction xs as [|a xs IH]; intros x Hx Hxs; simpl.
  - exact Hx.
  - apply Forall_cons_iff in Hxs. destruct Hxs as [[qa [-> Ha]] Hxs].
    destruct Hx as [q [-> Hq]]. apply IH; [|exact Hxs].
    unfold fmax. simpl. destruct (Qle_bool q qa); eauto.
Qed.

Lemma fold_fmin_const (c : Q) : forall xs x,
  (exists q, x = Fin q /\ (q == c)%Q) ->
  Forall (fun v => exists c', v = Fin c' /\ (c' == c)%Q) xs ->
  exists m, fold_left fmin xs x = Fin m /\ (m == c)%Q.
Proof.
  induction xs as [|a xs IH]; intros x Hx Hxs; simpl.
  - exact Hx.
  - apply Forall_cons_iff in Hxs. destruct Hxs as [[qa [-> Ha]] Hxs].
    destruct Hx as [q [-> Hq]]. apply IH; [|exact Hxs].
    unfold fmin. simpl. destruct (Qle_bool q qa); eauto.
Qed.

(** [np.ptp(col) == 0] and [np.all(col != 0)]: the cells of [col] are one
    finite number other than zero. *)
Lemma nonzero_constant_cells col :
  match ptp col with
  | None => false
  | Some p => feqb p fzero && forallb nonzero col
  end = true
  <-> col <> []
      /\ exists c : Q, ~ (c == 0)%Q
           /\ Forall (fun v => exists c' : Q, v = Fin c' /\ (c' == c)%Q) col.
Proof.
  destruct col as [|x xs]; simpl.
  { split; [discriminate|]. intros [H _]. congruence. }
  split.
  - intros H. apply andb_true_iff in H. destruct H as [Hp Hnz].
    split; [discriminate|].
    destruct (fsub (fold_left fmax xs x) (fold_left fmin xs x)) as [p| | |] eqn:Ep;
      try discriminate Hp.
    simpl in Hp. apply Qeq_bool_iff in Hp.
    destruct (fsub_fin _ _ _ Ep) as (M & m & EM & Em & Hd).
    destruct (fold_fmax_bound _ _ _ EM) as [Hx1 Hxs1].
    destruct (fold_fmin_bound _ _ _ Em) as [Hx2 Hxs2].
    assert (HMm : (M == m)%Q).
    { rewrite Hp in Hd. apply Qplus_inj_r with (z := (- m)%Q).
      rewrite Qplus_opp_r. unfold Qminus in Hd. now rewrite <- Hd. }
    assert (Hall : forall e, fleb (Fin m) e = true -> fleb e (Fin M) = true ->
                             exists c', e = Fin c' /\ (c' == M)%Q).
    { intros e H1 H2. destruct (between_fin _ _ _ H1 H2) as (v & -> & L1 & L2).
      exists v. split; [reflexivity|]. apply Qle_antisym; [exact L2|].
      now rewrite HMm. }
    exists M. split.
    + destruct (Hall x Hx2 Hx1) as (v & Ev & Hv). subst x.
      apply andb_true_iff in Hnz. destruct Hnz as [Hnz _].
      unfold nonzero in Hnz. simpl in Hnz.
      intros HM0. rewrite HM0 in Hv. apply Qeq_bool_iff in Hv.
      rewrite Hv in Hnz. discriminate.
    + constructor; [now apply Hall|].
      rewrite Forall_forall in *. intros e He. apply Hall; auto.
  - intros [_ (c & Hc & Hall)].
    apply Forall_cons_iff in Hall. destruct Hall as [Hx Hxs].
    destruct (fold_fmax_const c xs x Hx Hxs) as (M & -> & HM).
    destruct (fold_fmin_const c xs x Hx Hxs) as (m & -> & Hm).
    apply andb_true_iff. split.
    + unfold fsub, fneg, fadd, feqb, fzero. apply Qeq_bool_iff.
      rewrite (Qred_correct (M + Qred (- m))), (Qred_correct (- m)), HM, Hm.
      apply Qplus_opp_r.
    + assert (Hnz : forall v, (exists c', v = Fin c' /\ (c' == c)%Q) ->
                              nonzero v = true).
      { intros v (c' & -> & Hc'). unfold nonzero. simpl.
        destruct (Qeq_bool c' 0) eqn:E; [|reflexivity].
        apply Qeq_bool_iff in E. rewrite Hc' in E. contradiction. }
      change (forallb nonzero (x :: xs) = true).
      apply forallb_forall. intros v Hv.
      apply Hnz. rewrite Forall_forall in Hxs.
      destruct Hv as [<-|Hv]; auto.
Qed.

(** [add_constant(x)]: an array without rows is refused; a column of ones
    is put in front unless some column is constant and not zero. *)
Lemma add_constant_array_cases row rest :
  ((exists j, (j < length row)%nat /\ constant_nonzero_column (row :: rest) j) ->
   add_constant_array (row :: rest) = Returned (row :: rest))
  /\ (~ (exists j, (j < length row)%nat /\ constant_nonzero_column (row :: rest) j) ->
      add_constant_array (row :: rest) = Returned (map (cons fone) (row :: rest))).
Proof.
  set (x := row :: rest).
  assert (S : forall j,
             match ptp (column_cells j x) with
             | None => false
             | Some p => feqb p fzero && forallb nonzero (column_cells j x)
             end = true <-> constant_nonzero_column x j).
  { intros j. rewrite nonzero_constant_cells. unfold constant_nonzero_column.
    split.
    - intros [_ (c & Hc & Hall)]. exists c. split; [exact Hc|].
      unfold column_cells in Hall. now rewrite Forall_map in Hall.
    - intros (c & Hc & Hall). split; [discriminate|].
      exists c. split; [exact Hc|].
      unfold column_cells. now rewrite Forall_map. }
  change (add_constant_array x)
    with (if existsb
               (fun j => match ptp (column_cells j x) with
                         | None => false
                         | Some p => feqb p fzero
                                     && forallb nonzero (column_cells j x)
                         end) (seq 0 (length row))
          then Returned x else Returned (map (cons fone) x)).
  destruct (existsb _ (seq 0 (length row))) eqn:E.
  - split; [reflexivity|]. intros Hno. exfalso. apply Hno.
    apply existsb_exists in E. destruct E as (j & Hin & Hj).
    exists j. split; [apply in_seq in Hin; lia|]. now apply S.
  - split; [|reflexivity]. intros (j & Hlt & Hj). exfalso.
    assert (E' : existsb
                   (fun j => match ptp (column_cells j x) with
                             | None => false
                             | Some p => feqb p fzero
                                         && forallb nonzero (column_cells j x)
                             end) (seq 0 (length row)) = true).
    { apply existsb_exists. exists j. split; [apply in_seq; lia|now apply S]. }
    rewrite E' in E. discriminate.
Qed.

(** C10, as the code has it.  For every dependent series [y] and design
    [x], [linear_reg(y, x, add_const=True)] and
    [linear_reg(y, x, add_const=False)] return the same fitted model: the
    flag only decides whether a copy of [x] is made first (one more object
    on the heap).  In both cases OLS is run on [add_constant(x.values)]: the
    design with a column of ones in front, unless the design has a column
    that is constant and not zero, in which case OLS is run on the design as
    it is; a design without rows is refused with [ValueError]. *)
Theorem linear_reg_ignores_add_const :
  forall (OLS_fit : list float -> matrix -> outcome RegressionResults)
         (y : list float) (x : loc) (h : heap),
    fst (linear_reg OLS_fit y x true h) = fst (linear_reg OLS_fit y x false h)
    /\ (forall df, nth_error h x = Some (Frame df) ->
          snd (linear_reg OLS_fit y x true h) = h ++ [Frame df]
          /\ snd (linear_reg OLS_fit y x false h) = h
          /\ (values df = [] ->
              fst (linear_reg OLS_fit y x false h) = Raise (Lib ValueError))
          /\ (forall row rest, values df = row :: rest ->
              (exists j, (j < length row)%nat
                         /\ constant_nonzero_column (values df) j) ->
              fst (linear_reg OLS_fit y x false h)
              = propagate (OLS_fit y (values df)))
          /\ (forall row rest, values df = row :: rest ->
              ~ (exists j, (j < length row)%nat
                           /\ constant_nonzero_column (values df) j) ->
              fst (linear_reg OLS_fit y x false h)
              = propagate (OLS_fit y (map (cons fone) (values df))))).
Proof.
  intros OLS_fit y x h. split.
  - now rewrite !linear_reg_result.
  - intros df E. split; [|split; [|split; [|split]]].
    + now rewrite (linear_reg_heap OLS_fit y x true h df E).
    + now rewrite (linear_reg_heap OLS_fit y x false h df E).
    + intros Hv. rewrite linear_reg_result, E. unfold dense_fit.
      now rewrite Hv.
    + intros row rest Hv Hc. rewrite linear_reg_result, E. unfold dense_fit.
      rewrite Hv in *.
      now rewrite (proj1 (add_constant_array_cases row rest) Hc).
    + intros row rest Hv Hc. rewrite linear_reg_result, E. unfold dense_fit.
      rewrite Hv in *.
      now rewrite (proj2 (add_constant_array_cases row rest) Hc).
Qed.

Lemma linear_reg_ignores_add_const_witness :
  nth_error demo_heap 1%nat = Some (Frame demo_factors)
  /\ fst (linear_reg zero_OLS (frame_column demo_funds 0) 1%nat true demo_heap)
     = fst (linear_reg zero_OLS (frame_column demo_funds 0) 1%nat false demo_heap)
  /\ snd (linear_reg zero_OLS (frame_column demo_funds 0) 1%nat false demo_heap)
     = demo_heap
  /\ fst (linear_reg zero_OLS (frame_column demo_funds 0) 1%nat false demo_heap)
     = propagate (zero_OLS (frame_column demo_funds 0)
                    [[Fin 1; q 1 100; q 3 100]; [Fin 1; q 2 100; q (-1) 100];
                     [Fin 1; q 4 100; q 1 100]]).
Proof.
  split; [reflexivity|].
  destruct (linear_reg_ignores_add_const zero_OLS (frame_column demo_funds 0)
              1%nat demo_heap) as [Hsame Hrun].
  split; [exact Hsame|].
  destruct (Hrun demo_factors eq_refl) as (_ & Hheap & _ & _ & Hadd).
  split; [exact Hheap|].
  apply (Hadd [q 1 100; q 3 100]
              [[q 2 100; q (-1) 100]; [q 4 100; q 1 100]] eq_refl).
  intros (j & Hj & c & Hc & Hall).
  apply Forall_cons_iff in Hall. destruct Hall as [(c1 & E1 & H1) Hall].
  apply Forall_cons_iff in Hall. destruct Hall as [(c2 & E2 & H2) _].
  rewrite <- H2 in H1.
  destruct j as [|[|j]]; simpl in Hj; [| |lia];
    simpl in E1, E2; inversion E1; inversion E2; subst c1 c2;
    discriminate H1.
Defined.

(** C10 as stated fails: the design whose first factor is constant at 1/2
    gets no column of ones, with either value of the flag; OLS is run on
    its two columns as they are, and the model has two parameters and no
    constant of its own. *)
Lemma constant_design_gets_no_constant :
  add_constant_array (values demo_constant) = Returned (values demo_constant)
  /\ values demo_constant
     = [[q 1 2; q 3 100]; [q 1 2; q (-1) 100]; [q 1 2; q 1 100]]
  /\ fst (linear_reg zero_OLS (frame_column demo_funds 0) 4%nat true demo_heap)
     = propagate (zero_OLS (frame_column demo_funds 0) (values demo_constant))
  /\ fst (linear_reg zero_OLS (frame_column demo_funds 0) 4%nat false demo_heap)
     = propagate (zero_OLS (frame_column demo_funds 0) (values demo_constant)).
Proof. repeat split. Qed.

(** ** No estimator mutates its inputs *)

(** C8.  After a call of [regression_vif], [linear_reg], [multiple_lin_reg]
    or [lasso_lars_regression], whether it returned or raised, the heap is
    the heap before the call followed by new objects: every object that
    existed before, the design matrix and the table of instrument returns
    among them, is unchanged.  (The fits read the design through a copy
    allocated for them; all in-place assignments go to tables the call
    created itself.) *)
Theorem estimators_leave_inputs_unchanged :
  forall (OLS_fit : list float -> matrix -> outcome RegressionResults)
         (StandardScaler_fit : matrix -> outcome Scaler)
         (LassoLarsIC_fit : string -> bool -> matrix -> list float -> outcome float)
         (LassoLars_fit : float -> bool -> matrix -> list float -> outcome (list float))
         (h : heap) (X returns factor_returns : loc) (y : list float)
         (add_const : bool),
    (exists new, snd (regression_vif OLS_fit X h) = h ++ new)
    /\ (exists new, snd (linear_reg OLS_fit y factor_returns add_const h) = h ++ new)
    /\ (exists new, snd (multiple_lin_reg OLS_fit returns factor_returns add_const h)
                    = h ++ new)
    /\ (exists new, snd (lasso_lars_regression StandardScaler_fit LassoLarsIC_fit
                           LassoLars_fit returns factor_returns h) = h ++ new).
Proof.
  intros. repeat split.
  - apply (new_regression_vif OLS_fit h X h (extends_refl h)).
  - apply (new_linear_reg OLS_fit h y factor_returns add_const h (extends_refl h)).
  - apply (new_multiple_lin_reg OLS_fit h returns factor_returns add_const h
             (extends_refl h)).
  - apply (new_lasso_lars_regression StandardScaler_fit LassoLarsIC_fit
             LassoLars_fit h returns factor_returns h (extends_refl h)).
Qed.

(** ** Shape of the price table built by [fetch_prices] *)

Lemma date_compare_refl a : date_compare a a = Eq.
Proof. unfold date_compare. now rewrite !Z.compare_refl. Qed.

Lemma label_eqb_refl l : label_eqb l l = true.
Proof.
  destruct l; simpl.
  - apply String.eqb_refl.
  - apply Z.eqb_refl.
  - unfold date_eqb. now rewrite date_compare_refl.
Qed.

Lemma labels_eqb_refl ls : labels_eqb ls ls = true.
Proof. induction ls; simpl; [reflexivity|]. now rewrite label_eqb_refl. Qed.

Lemma labels_eqb_length : forall a b, labels_eqb a b = true -> length a = length b.
Proof.
  induction a as [|x a IH]; intros [|y b] H; simpl in *; try discriminate; auto.
  apply andb_true_iff in H. f_equal. now apply IH.
Qed.

Lemma insert_label_length l ls : length (insert_label l ls) = S (length ls).
Proof.
  induction ls as [|k ls IH]; simpl; [reflexivity|].
  destruct (label_leb l k); simpl; auto.
Qed.

Lemma sort_labels_length ls : length (sort_labels ls) = length ls.
Proof.
  induction ls as [|l ls IH]; simpl; [reflexivity|].
  unfold sort_labels in *. simpl. now rewrite insert_label_length, IH.
Qed.

Lemma insert_label_dates l ls :
  is_date l = true -> forallb is_date ls = true ->
  forallb is_date (insert_label l ls) = true.
Proof.
  intros Hl. induction ls as [|k ls IH]; simpl; intros H.
  - now rewrite Hl.
  - apply andb_true_iff in H. destruct H as [Hk Hls].
    destruct (label_leb l k); simpl.
    + now rewrite Hl, Hk, Hls.
    + now rewrite Hk, IH.
Qed.

Lemma sort_labels_dates ls :
  forallb is_date ls = true -> forallb is_date (sort_labels ls) = true.
Proof.
  induction ls as [|l ls IH]; simpl; intros H; [reflexivity|].
  apply andb_true_iff in H. destruct H as [Hl Hls].
  unfold sort_labels in *. simpl. apply insert_label_dates; auto.
Qed.

Lemma forallb_filter {A} (p f : A -> bool) l :
  forallb p l = true -> forallb p (filter f l) = true.
Proof.
  induction l as [|a l IH]; simpl; intros H; [reflexivity|].
  apply andb_true_iff in H. destruct H as [Ha Hl].
  destruct (f a); simpl; auto. now rewrite Ha, IH.
Qed.

Lemma union_index_dates a b :
  forallb is_date a = true -> forallb is_date b = true ->
  forallb is_date (union_index a b) = true.
Proof.
  intros Ha Hb. unfold union_index. rewrite Ha, Hb. simpl.
  apply sort_labels_dates. rewrite forallb_app, Ha. simpl.
  now apply forallb_filter.
Qed.

Lemma union_index_nonempty a b : b <> [] -> union_index a b <> [].
Proof.
  intros Hb Hu.
  assert (L : length (union_index a b) = 0%nat) by now rewrite Hu.
  unfold union_index in L.
  assert (L' : length (a ++ filter (fun l => negb (mem_label l a)) b) = 0%nat).
  { destruct (forallb is_date a && forallb is_date b);
      [now rewrite sort_labels_length in L | exact L]. }
  rewrite length_app in L'.
  destruct a as [|x a]; simpl in L'; [|lia].
  destruct b as [|y b]; [now apply Hb|]. simpl in L'. lia.
Qed.

Lemma lookup_row_length n l : forall idx rows,
  Forall (fun r => length r = n) rows ->
  length (lookup_row l idx rows n) = n.
Proof.
  induction idx as [|k idx IH]; intros rows H; simpl.
  - apply repeat_length.
  - destruct rows as [|r rows]; [apply repeat_length|].
    inversion H; subst.
    destruct (label_eqb l k); auto.
Qed.

Lemma wf_empty_frame : wf_prices 0 empty_frame.
Proof. constructor; simpl; auto. intros H; lia. Qed.

Lemma insert_row_length r rs : length (insert_row r rs) = S (length rs).
Proof.
  induction rs as [|k rs IH]; simpl; [reflexivity|].
  destruct (date_leb (row_date r) (row_date k)); simpl; auto.
Qed.

Lemma sort_rows_length rs : length (sort_rows rs) = length rs.
Proof.
  induction rs as [|r rs IH]; simpl; [reflexivity|].
  unfold sort_rows in *. simpl. now rewrite insert_row_length, IH.
Qed.

Lemma concat_axis1_wf n a b c :
  wf_prices n a -> wf_prices 1 b ->
  concat_axis1 a b = Ok c -> wf_prices (n + 1) c.
Proof.
  intros [Hca Hra Hwa Hda Hna] [Hcb Hrb Hwb Hdb Hnb] H.
  unfold concat_axis1 in H.
  destruct (is_empty a) eqn:Ea.
  - inversion H; subst c.
    unfold is_empty in Ea. apply Nat.eqb_eq in Ea.
    assert (E0 : n = 0%nat) by (unfold ncols, nrows in *; lia).
    rewrite E0. simpl. constructor; auto.
  - destruct (is_empty b) eqn:Eb.
    { unfold is_empty in Eb. apply Nat.eqb_eq in Eb. lia. }
    destruct (labels_eqb (index a) (index b)) eqn:El.
    + inversion H; subst c. clear H.
      apply labels_eqb_length in El.
      constructor; simpl.
      * unfold ncols in *. simpl. rewrite length_app. lia.
      * unfold nrows in *. simpl.
        rewrite length_map, length_combine. lia.
      * apply Forall_forall. intros r Hr.
        apply in_map_iff in Hr. destruct Hr as [[ra rb] [<- Hin]]. simpl.
        rewrite length_app.
        rewrite Forall_forall in Hwa, Hwb.
        rewrite (Hwa ra (in_combine_l _ _ _ _ Hin)).
        now rewrite (Hwb rb (in_combine_r _ _ _ _ Hin)).
      * assumption.
      * intros _ Hi. apply Hnb; [lia|].
        unfold nrows in *. destruct (index b); [reflexivity|].
        rewrite Hi in El. discriminate.
    + destruct (has_duplicates (index a) || has_duplicates (index b));
        [discriminate|].
      inversion H; subst c. clear H.
      constructor; simpl.
      * unfold ncols in *. simpl. rewrite length_app. lia.
      * unfold nrows. simpl. now rewrite length_map.
      * apply Forall_forall. intros r Hr.
        apply in_map_iff in Hr. destruct Hr as [l [<- _]].
        rewrite length_app, Hca, Hcb.
        now rewrite !lookup_row_length.
      * now apply union_index_dates.
      * intros _. apply union_index_nonempty. apply Hnb. lia.
Qed.

Section PricesShape.

Variable eod_api : string -> string -> string -> outcome (list eod_row).

Lemma get_stock_prices_wf symbol s e df :
  get_stock_prices eod_api symbol s e = Ok df -> wf_prices 1 df.
Proof.
  unfold get_stock_prices.
  destruct (eod_api _ s e) as [prices|err]; simpl; [|discriminate].
  destruct prices as [|r rs]; [discriminate|].
  intros H. inversion H; subst df. clear H.
  constructor; simpl.
  - reflexivity.
  - unfold nrows. simpl. now rewrite !length_map.
  - apply Forall_forall. intros x Hx.
    apply in_map_iff in Hx. now destruct Hx as [? [<- _]].
  - rewrite forallb_forall. intros x Hx.
    apply in_map_iff in Hx. now destruct Hx as [? [<- _]].
  - intros _ Hi.
    apply (f_equal (@length label)) in Hi. rewrite length_map in Hi.
    change (length (sort_rows (r :: rs)) = 0%nat) in Hi.
    rewrite sort_rows_length in Hi. discriminate.
Qed.

Lemma fetch_prices_wf s e : forall symbols n df0 df,
  wf_prices n df0 ->
  fetch_prices eod_api symbols s e df0 = Ok df ->
  wf_prices (n + length symbols) df.
Proof.
  induction symbols as [|symbol rest IH]; intros n df0 df W H; simpl in *.
  - inversion H; subst. now rewrite Nat.add_0_r.
  - destruct (get_stock_prices eod_api symbol s e) as [df_temp|err] eqn:G;
      simpl in H; [|discriminate].
    destruct (concat_axis1 df0 df_temp) as [df1|err] eqn:C;
      simpl in H; [|discriminate].
    replace (n + S (length rest))%nat with ((n + 1) + length rest)%nat by lia.
    apply (IH _ df1); auto.
    eapply concat_axis1_wf; eauto.
    eapply get_stock_prices_wf; eauto.
Qed.

Lemma fetch_prices_shape s e symbols df :
  fetch_prices eod_api symbols s e empty_frame = Ok df ->
  wf_prices (length symbols) df.
Proof.
  intros H. apply (fetch_prices_wf s e symbols 0%nat empty_frame df); auto.
  apply wf_empty_frame.
Qed.

End PricesShape.

(** ** [pct_change] and [dropna] *)

Lemma pct_rows_length : forall rows prev, length (pct_rows prev rows) = length rows.
Proof. induction rows as [|r rows IH]; intros prev; simpl; auto. Qed.

Lemma ffill_rows_length : forall rows prev, length (ffill_rows prev rows) = length rows.
Proof. induction rows as [|r rows IH]; intros prev; simpl; auto. Qed.

Lemma ffill_length rows : length (ffill rows) = length rows.
Proof. destruct rows; simpl; [reflexivity|]. now rewrite ffill_rows_length. Qed.

Lemma combine_fst_snd {A B} (l : list (A * B)) : combine (map fst l) (map snd l) = l.
Proof. induction l as [|[a b] l IH]; simpl; [reflexivity|]. now rewrite IH. Qed.

Lemma pct_nan_prev x : pct x NaN = NaN.
Proof. unfold pct. destruct x; reflexivity. Qed.

Lemma first_row_has_nan (r : list float) (n : nat) :
  r <> [] -> (0 < n)%nat ->
  has_nan (map (fun xp => pct (fst xp) (snd xp)) (combine r (repeat NaN n))) = true.
Proof.
  intros Hr Hn. destruct r as [|x r]; [now elim Hr|].
  destruct n as [|n]; [lia|]. simpl. now rewrite pct_nan_prev.
Qed.

Lemma pct_change_index df : index (pct_change df) = index df.
Proof. reflexivity. Qed.

Lemma pct_change_columns df : columns (pct_change df) = columns df.
Proof. reflexivity. Qed.

Lemma dropna_columns df : columns (dropna df) = columns df.
Proof. reflexivity. Qed.

Lemma dropna_rows df : labelled_rows (dropna df) = filter complete (labelled_rows df).
Proof. unfold labelled_rows, dropna. simpl. apply combine_fst_snd. Qed.

Lemma dropna_nrows df : nrows (dropna df) = length (filter complete (labelled_rows df)).
Proof. unfold nrows, dropna. simpl. now rewrite length_map. Qed.

Lemma dropna_values_length df : length (values (dropna df)) = nrows (dropna df).
Proof. unfold nrows, dropna. simpl. now rewrite !length_map. Qed.

(** The first row of [pct_change] never survives [dropna] in a table with
    at least one column. *)
Lemma first_return_dropped n df :
  wf_prices n df -> (0 < n)%nat ->
  filter complete (returns_rows df) = filter complete (tl (returns_rows df)).
Proof.
  intros [Hc Hr Hw Hd Hn] Hpos. unfold returns_rows, pct_change. simpl.
  destruct (index df) as [|l0 idx]; [reflexivity|].
  destruct (values df) as [|r0 rows]; [reflexivity|].
  simpl. unfold complete at 1. simpl.
  inversion Hw; subst.
  rewrite first_row_has_nan; [reflexivity| |lia].
  intros E. rewrite E in *. simpl in *. lia.
Qed.

Lemma filter_length_le {A} (f : A -> bool) l : (length (filter f l) <= length l)%nat.
Proof.
  induction l as [|a l IH]; simpl; [lia|]. destruct (f a); simpl; lia.
Qed.

Lemma filter_all {A} (f : A -> bool) l : forallb f l = true -> filter f l = l.
Proof.
  induction l as [|a l IH]; simpl; intros H; [reflexivity|].
  apply andb_true_iff in H. destruct H as [Ha Hl]. now rewrite Ha, IH.
Qed.

Lemma filter_length_all {A} (f : A -> bool) l :
  length (filter f l) = length l -> forallb f l = true.
Proof.
  induction l as [|a l IH]; simpl; [reflexivity|].
  pose proof (filter_length_le f l) as Hle.
  destruct (f a); simpl; intros H; [apply IH|]; lia.
Qed.

Lemma returns_rows_length n df :
  wf_prices n df -> length (returns_rows df) = nrows df.
Proof.
  intros [Hc Hr Hw Hd Hn]. unfold returns_rows, pct_change. simpl.
  rewrite length_combine, pct_rows_length, ffill_length, Hr.
  unfold nrows. lia.
Qed.

Lemma tl_length {A} (l : list A) : length (tl l) = (length l - 1)%nat.
Proof. destruct l; simpl; lia. Qed.

(** [dropna] after [pct_change] on a table with a column: what is left are
    the complete rows after the first one. *)
Lemma dropna_pct_change n df :
  wf_prices n df -> (0 < n)%nat ->
  labelled_rows (dropna (pct_change df)) = filter complete (tl (returns_rows df))
  /\ (index df <> [] -> (nrows (dropna (pct_change df)) < nrows df)%nat)
  /\ (forallb complete (tl (returns_rows df)) = true ->
      index df <> [] -> S (nrows (dropna (pct_change df))) = nrows df).
Proof.
  intros W Hpos.
  assert (R : labelled_rows (dropna (pct_change df))
              = filter complete (tl (returns_rows df))).
  { rewrite dropna_rows. apply (first_return_dropped n df W Hpos). }
  assert (L : nrows (dropna (pct_change df))
              = length (filter complete (tl (returns_rows df)))).
  { rewrite dropna_nrows. change (labelled_rows (pct_change df)) with (returns_rows df).
    now rewrite (first_return_dropped n df W Hpos). }
  assert (N : index df <> [] -> (0 < nrows df)%nat).
  { unfold nrows. destruct (index df); simpl; [congruence|lia]. }
  split; [exact R|]. split.
  - intros Hi. rewrite L.
    pose proof (filter_length_le complete (tl (returns_rows df))) as Hle.
    rewrite tl_length, (returns_rows_length n df W) in Hle.
    specialize (N Hi). lia.
  - intros Hall Hi. rewrite L, (filter_all _ _ Hall), tl_length.
    rewrite (returns_rows_length n df W). specialize (N Hi). lia.
Qed.

(** Padding keeps priced cells priced, and a return between two priced
    cells is a number. *)
Lemma pct_priced x p : priced x = true -> priced p = true -> isnan (pct x p) = false.
Proof.
  destruct x as [a| | |]; destruct p as [b| | |]; simpl; try discriminate.
  intros _ Hb. unfold pct, fdiv.
  apply negb_true_iff in Hb. rewrite Hb. reflexivity.
Qed.

Lemma padded_priced x p :
  quoted x = true -> priced p = true ->
  priced (if isnan x then p else x) = true.
Proof.
  unfold quoted. destruct (isnan x); simpl; auto.
Qed.

Lemma pad_row_priced : forall r prev,
  forallb quoted r = true -> forallb priced prev = true ->
  forallb priced
    (map (fun xp => if isnan (fst xp) then snd xp else fst xp) (combine r prev)) = true.
Proof.
  induction r as [|x r IH]; intros [|p prev] Hr Hp; simpl in *; try reflexivity.
  apply andb_true_iff in Hr. destruct Hr as [Hx Hr].
  apply andb_true_iff in Hp. destruct Hp as [Hp0 Hp].
  rewrite (padded_priced x p Hx Hp0). simpl. now apply IH.
Qed.

Lemma pct_row_complete : forall r prev,
  forallb priced r = true -> forallb priced prev = true ->
  has_nan (map (fun xp => pct (fst xp) (snd xp)) (combine r prev)) = false.
Proof.
  induction r as [|x r IH]; intros [|p prev] Hr Hp; simpl in *; try reflexivity.
  apply andb_true_iff in Hr. destruct Hr as [Hx Hr].
  apply andb_true_iff in Hp. destruct Hp as [Hp0 Hp].
  rewrite (pct_priced x p Hx Hp0). simpl. now apply IH.
Qed.

Lemma padded_returns_complete : forall rest prev,
  forallb priced prev = true ->
  forallb (forallb quoted) rest = true ->
  forallb (fun r => negb (has_nan r)) (pct_rows prev (ffill_rows prev rest)) = true.
Proof.
  induction rest as [|r rest IH]; intros prev Hp Hq; simpl in *; [reflexivity|].
  apply andb_true_iff in Hq. destruct Hq as [Hr Hrest].
  pose proof (pad_row_priced r prev Hr Hp) as Hr'.
  rewrite (pct_row_complete _ prev Hr' Hp). simpl.
  now apply IH.
Qed.

Lemma forallb_combine_snd {A B} (f : B -> bool) : forall (l : list A) (l' : list B),
  forallb f l' = true -> forallb (fun ab => f (snd ab)) (combine l l') = true.
Proof.
  induction l as [|a l IH]; intros [|b l'] H; simpl in *; try reflexivity.
  apply andb_true_iff in H. destruct H as [Hb Hl]. rewrite Hb. simpl. now apply IH.
Qed.

(** When the first row holds a price in every column and every other cell
    is a price or missing, every return after the first row is a number. *)
Lemma priced_returns_complete df :
  forallb priced (hd [] (values df)) = true ->
  forallb (forallb quoted) (values df) = true ->
  forallb complete (tl (returns_rows df)) = true.
Proof.
  intros H0 Hq. unfold returns_rows, pct_change. simpl.
  destruct (values df) as [|r0 rows]; simpl in *.
  - destruct (index df); reflexivity.
  - apply andb_true_iff in Hq. destruct Hq as [_ Hq].
    destruct (index df) as [|l0 idx]; [reflexivity|]. simpl.
    unfold complete.
    apply (forallb_combine_snd (fun r => negb (has_nan r))).
    now apply padded_returns_complete.
Qed.

(** ** [resample('M').last()] *)

Lemma fold_min_le : forall ks k, fold_left Z.min ks k <= k.
Proof.
  induction ks as [|a ks IH]; intros k; simpl; [lia|].
  specialize (IH (Z.min k a)). lia.
Qed.

Lemma fold_max_ge : forall ks k, k <= fold_left Z.max ks k.
Proof.
  induction ks as [|a ks IH]; intros k; simpl; [lia|].
  specialize (IH (Z.max k a)). lia.
Qed.

Lemma month_bins_nonempty idx : idx <> [] -> month_bins idx <> [].
Proof.
  intros Hi. unfold month_bins.
  destruct idx as [|l idx]; [now elim Hi|]. simpl.
  pose proof (fold_min_le (map label_month idx) (label_month l)) as Hlo.
  pose proof (fold_max_ge (map label_month idx) (label_month l)) as Hhi.
  set (lo := fold_left Z.min _ _) in *. set (hi := fold_left Z.max _ _) in *.
  destruct (Z.to_nat (hi - lo + 1)) eqn:E; [lia|]. simpl. discriminate.
Qed.

Lemma is_datetime_index_nonempty idx : is_datetime_index idx = true -> idx <> [].
Proof. destruct idx; simpl; [discriminate|]. intros _; discriminate. Qed.

Lemma resample_wf n df monthly :
  wf_prices n df -> resample_M_last df = Ok monthly -> wf_prices n monthly.
Proof.
  intros [Hc Hr Hw Hd Hn] H. unfold resample_M_last in H.
  destruct (is_datetime_index (index df)) eqn:E; [|discriminate].
  inversion H; subst monthly. clear H.
  constructor; simpl.
  - exact Hc.
  - unfold nrows. simpl. now rewrite !length_map.
  - apply Forall_forall. intros r Hin.
    apply in_map_iff in Hin. destruct Hin as [k [<- _]].
    now rewrite length_map, length_seq.
  - rewrite forallb_forall. intros l Hin.
    apply in_map_iff in Hin. now destruct Hin as [k [<- _]].
  - intros _ Hm. apply map_eq_nil in Hm.
    apply (month_bins_nonempty (index df)); auto.
    now apply is_datetime_index_nonempty.
Qed.

Lemma resample_index df monthly :
  resample_M_last df = Ok monthly ->
  index monthly = map month_end (month_bins (index df)).
Proof.
  unfold resample_M_last.
  destruct (is_datetime_index (index df)); [|discriminate].
  intros H. now inversion H.
Qed.

Lemma resample_single_row l rows cols :
  is_date l = true ->
  exists monthly, resample_M_last (mkDF [l] cols rows) = Ok monthly
                  /\ nrows monthly = 1%nat.
Proof.
  intros Hl. unfold resample_M_last. simpl. rewrite Hl. simpl.
  eexists. split; [reflexivity|].
  unfold nrows, month_bins. simpl. rewrite Z.sub_diag. reflexivity.
Qed.

(** ** What the two returns functions share *)

Lemma set_columns_ok df names :
  length names = ncols df ->
  set_columns df names = Ok (mkDF (index df) names (values df)).
Proof. intros H. unfold set_columns. now rewrite H, Nat.eqb_refl. Qed.

Lemma returns_by_frequency_other frequency df :
  frequency <> "D" -> frequency <> "M" ->
  returns_by_frequency frequency df = Ok None.
Proof.
  intros HD HM. unfold returns_by_frequency.
  apply String.eqb_neq in HD, HM. now rewrite HD, HM.
Qed.

Lemma returns_by_frequency_ncols frequency n df table :
  wf_prices n df ->
  returns_by_frequency frequency df = Ok (Some table) ->
  ncols table = n.
Proof.
  intros W. unfold returns_by_frequency.
  destruct (String.eqb frequency "D").
  - intros H. inversion H; subst. apply (wf_ncols n df W).
  - destruct (String.eqb frequency "M"); [|discriminate].
    destruct (resample_M_last df) as [m|err] eqn:E; simpl; [|discriminate].
    intros H. inversion H; subst.
    apply (wf_ncols n m (resample_wf n df m W E)).
Qed.

Lemma propagate_raises {A} (o : outcome A) e :
  propagate o = Raise e -> from_the_code e.
Proof.
  destruct o; simpl; [discriminate|]. intros H; inversion H. right; eauto.
Qed.

Lemma concat_axis1_raises a b e : concat_axis1 a b = Raise e -> from_the_code e.
Proof.
  unfold concat_axis1.
  destruct (is_empty a); [discriminate|].
  destruct (is_empty b); [discriminate|].
  destruct (labels_eqb (index a) (index b)); [discriminate|].
  destruct (has_duplicates (index a) || has_duplicates (index b)); [|discriminate].
  intros H; inversion H. right; eauto.
Qed.

Lemma set_columns_raises df names e : set_columns df names = Raise e -> from_the_code e.
Proof.
  unfold set_columns. destruct (Nat.eqb _ _); [discriminate|].
  intros H; inversion H. right; eauto.
Qed.

Section ReturnsFacts.

Variable eod_api : string -> string -> string -> outcome (list eod_row).

Lemma get_stock_prices_raises symbol s e err :
  get_stock_prices eod_api symbol s e = Raise err -> from_the_code err.
Proof.
  unfold get_stock_prices.
  destruct (eod_api _ s e) as [prices|le] eqn:E; simpl.
  - destruct prices; [|discriminate]. intros H; inversion H. right; eauto.
  - intros H; inversion H. right; eauto.
Qed.

Lemma fetch_prices_raises s e err : forall symbols df0,
  fetch_prices eod_api symbols s e df0 = Raise err -> from_the_code err.
Proof.
  induction symbols as [|symbol rest IH]; intros df0; simpl; [discriminate|].
  destruct (get_stock_prices eod_api symbol s e) as [df_temp|e1] eqn:G; simpl.
  - destruct (concat_axis1 df0 df_temp) as [df1|e2] eqn:C; simpl.
    + apply IH.
    + intros H; inversion H; subst. eapply concat_axis1_raises; eauto.
  - intros H; inversion H; subst. eapply get_stock_prices_raises; eauto.
Qed.

Lemma returns_table_raises symbols names s e frequency err :
  returns_table eod_api symbols names s e frequency = Raise err -> from_the_code err.
Proof.
  unfold returns_table.
  destruct (fetch_prices eod_api symbols s e empty_frame) as [df|e1] eqn:F; simpl.
  - unfold returns_by_frequency.
    destruct (String.eqb frequency "D"); simpl.
    + apply set_columns_raises.
    + destruct (String.eqb frequency "M"); simpl.
      * destruct (resample_M_last df) as [m|e2] eqn:R; simpl.
        -- apply set_columns_raises.
        -- unfold resample_M_last in R.
           destruct (is_datetime_index (index df)); [discriminate|].
           inversion R; subst. intros H; inversion H. right; eauto.
      * intros H; inversion H. now left.
  - intros H; inversion H; subst. eapply fetch_prices_raises; eauto.
Qed.

Lemma returns_table_other symbols names s e frequency df :
  frequency <> "D" -> frequency <> "M" ->
  fetch_prices eod_api symbols s e empty_frame = Ok df ->
  returns_table eod_api symbols names s e frequency = Raise UnboundLocalError.
Proof.
  intros HD HM F. unfold returns_table. rewrite F. simpl.
  now rewrite returns_by_frequency_other.
Qed.

Lemma returns_table_other_never_ok symbols names s e frequency out :
  frequency <> "D" -> frequency <> "M" ->
  returns_table eod_api symbols names s e frequency <> Ok out.
Proof.
  intros HD HM. unfold returns_table.
  destruct (fetch_prices eod_api symbols s e empty_frame) as [df|e1]; simpl.
  - rewrite returns_by_frequency_other by assumption. simpl. discriminate.
  - discriminate.
Qed.

Lemma returns_table_returns symbols names s e frequency df table :
  length names = length symbols ->
  fetch_prices eod_api symbols s e empty_frame = Ok df ->
  returns_by_frequency frequency df = Ok (Some table) ->
  returns_table eod_api symbols names s e frequency
    = Ok (mkDF (index table) (map LStr names) (values table)).
Proof.
  intros L F R. unfold returns_table. rewrite F. simpl. rewrite R. simpl.
  apply set_columns_ok. rewrite length_map, L.
  symmetry. eapply returns_by_frequency_ncols; eauto.
  now apply (fetch_prices_shape eod_api s e symbols df).
Qed.

Lemma no_rows_frame (df : DataFrame) :
  nrows df = 0%nat -> length (values df) = nrows df ->
  index df = [] /\ values df = [].
Proof.
  unfold nrows. intros H0 H1. rewrite H0 in H1.
  split; now apply length_zero_iff_nil.
Qed.

(** A price table with a single row yields a returns table without rows. *)
Lemma single_row_returns n df frequency :
  wf_prices n df -> (0 < n)%nat -> (nrows df < 2)%nat ->
  frequency = "D" \/ frequency = "M" ->
  exists table, returns_by_frequency frequency df = Ok (Some table)
                /\ index table = [] /\ values table = [].
Proof.
  intros W Hpos Hlt Hf.
  assert (Hne : index df <> []) by (apply (wf_nonempty n df W); assumption).
  destruct Hf as [-> | ->]; unfold returns_by_frequency; simpl.
  - eexists. split; [reflexivity|].
    apply no_rows_frame; [|apply dropna_values_length].
    destruct (dropna_pct_change n df W Hpos) as (_ & Hlt' & _).
    specialize (Hlt' Hne). lia.
  - destruct df as [idx cols rows]. simpl in *.
    destruct idx as [|l [|l' idx]]; [congruence| |unfold nrows in Hlt; simpl in Hlt; lia].
    pose proof (wf_dates n _ W) as Hd. simpl in Hd.
    apply andb_true_iff in Hd. destruct Hd as [Hl _].
    destruct (resample_single_row l rows cols Hl) as [m [Em Hm]].
    rewrite Em. simpl.
    eexists. split; [reflexivity|].
    apply no_rows_frame; [|apply dropna_values_length].
    pose proof (resample_wf n _ m W Em) as Wm.
    destruct (dropna_pct_change n m Wm Hpos) as (_ & Hlt' & _).
    assert (index m <> []) by (apply (wf_nonempty n m Wm); assumption).
    specialize (Hlt' H). lia.
Qed.

Lemma returns_table_single_row symbols names s e frequency df :
  length names = length symbols -> symbols <> [] ->
  frequency = "D" \/ frequency = "M" ->
  fetch_prices eod_api symbols s e empty_frame = Ok df ->
  (nrows df < 2)%nat ->
  returns_table eod_api symbols names s e frequency = Ok (mkDF [] (map LStr names) []).
Proof.
  intros L Hs Hf F Hlt.
  pose proof (fetch_prices_shape eod_api s e symbols df F) as W.
  assert (Hpos : (0 < length symbols)%nat).
  { destruct symbols; simpl; [congruence|lia]. }
  destruct (single_row_returns _ df frequency W Hpos Hlt Hf)
    as (table & R & Hi & Hv).
  rewrite (returns_table_returns symbols names s e frequency df table L F R).
  now rewrite Hi, Hv.
Qed.

(** The monthly case: the result of the common body in terms of the
    resampled table. *)
Lemma returns_table_monthly symbols names s e df monthly :
  length names = length symbols ->
  fetch_prices eod_api symbols s e empty_frame = Ok df ->
  resample_M_last df = Ok monthly ->
  exists df_returns,
    returns_table eod_api symbols names s e "M" = Ok df_returns
    /\ columns df_returns = map LStr names
    /\ labelled_rows df_returns = filter complete (tl (returns_rows monthly))
    /\ (nrows df_returns < nrows monthly)%nat
    /\ (forallb complete (tl (returns_rows monthly)) = true ->
        S (nrows df_returns) = nrows monthly).
Proof.
  intros L F R.
  pose proof (fetch_prices_shape eod_api s e symbols df F) as W.
  pose proof (resample_wf _ df monthly W R) as Wm.
  assert (Hpos : (0 < length symbols)%nat).
  { destruct symbols; simpl; [|lia].
    simpl in F. inversion F; subst df. discriminate R. }
  assert (Hne : index monthly <> []) by (apply (wf_nonempty _ monthly Wm); assumption).
  destruct (dropna_pct_change _ monthly Wm Hpos) as (Hrows & Hlt & Heq).
  exists (mkDF (index (dropna (pct_change monthly))) (map LStr names)
               (values (dropna (pct_change monthly)))).
  split.
  - apply (returns_table_returns symbols names s e "M" df
             (dropna (pct_change monthly)) L F).
    unfold returns_by_frequency. simpl. now rewrite R.
  - split; [reflexivity|]. split; [exact Hrows|]. split.
    + now apply Hlt.
    + intros Hall. now apply Heq.
Qed.

Lemma returns_table_monthly_exact symbols names s e df monthly out :
  length names = length symbols ->
  fetch_prices eod_api symbols s e empty_frame = Ok df ->
  resample_M_last df = Ok monthly ->
  returns_table eod_api symbols names s e "M" = Ok out ->
  S (nrows out) = nrows monthly ->
  forallb complete (tl (returns_rows monthly)) = true.
Proof.
  intros L F R H E.
  pose proof (fetch_prices_shape eod_api s e symbols df F) as W.
  pose proof (resample_wf _ df monthly W R) as Wm.
  assert (Hpos : (0 < length symbols)%nat).
  { destruct symbols; simpl; [|lia].
    simpl in F. inversion F; subst df. discriminate R. }
  rewrite (returns_table_returns symbols names s e "M" df
             (dropna (pct_change monthly)) L F) in H.
  2:{ unfold returns_by_frequency. simpl. now rewrite R. }
  inversion H; subst out. clear H.
  change (S (nrows (dropna (pct_change monthly))) = nrows monthly) in E.
  rewrite dropna_nrows in E.
  change (labelled_rows (pct_change monthly)) with (returns_rows monthly) in E.
  rewrite (first_return_dropped _ monthly Wm Hpos) in E.
  apply filter_length_all. rewrite tl_length, (returns_rows_length _ monthly Wm).
  lia.
Qed.

End ReturnsFacts.

Lemma get_returns_body api tickers s e frequency :
  get_returns api tickers s e frequency = returns_table api tickers tickers s e frequency.
Proof. reflexivity. Qed.

Lemma retrieve_factor_returns_body api factors s e frequency :
  retrieve_factor_returns api factors s e frequency
  = returns_table api (map snd factors) (map fst factors) s e frequency.
Proof. reflexivity. Qed.

(** ** The frequency tag *)

(** C9.  For every frequency other than 'D' and 'M', [get_returns] and
    [retrieve_factor_returns] raise [UnboundLocalError] once the prices are
    retrieved: no case of the [match] binds [df_returns], there is no
    fallback to the monthly default and no error of the domain; neither
    function can return a table. *)
Theorem unknown_frequency_is_unbound_local :
  forall (eod_api : string -> string -> string -> outcome (list eod_row))
         (tickers : list string) (factors : list (string * string))
         (start_date end_date frequency : string),
    frequency <> "D" -> frequency <> "M" ->
    (forall df_prices,
        fetch_prices eod_api tickers start_date end_date empty_frame = Ok df_prices ->
        get_returns eod_api tickers start_date end_date frequency
          = Raise UnboundLocalError)
    /\ (forall df_prices,
        fetch_prices eod_api (map snd factors) start_date end_date empty_frame
          = Ok df_prices ->
        retrieve_factor_returns eod_api factors start_date end_date frequency
          = Raise UnboundLocalError)
    /\ (forall out, get_returns eod_api tickers start_date end_date frequency <> Ok out)
    /\ (forall out, retrieve_factor_returns eod_api factors start_date end_date
                      frequency <> Ok out).
Proof.
  intros api tickers factors s e frequency HD HM. repeat split.
  - intros df F. rewrite get_returns_body.
    now apply (returns_table_other api tickers tickers s e frequency df).
  - intros df F. rewrite retrieve_factor_returns_body.
    now apply (returns_table_other api _ _ s e frequency df).
  - intros out. rewrite get_returns_body.
    now apply returns_table_other_never_ok.
  - intros out. rewrite retrieve_factor_returns_body.
    now apply returns_table_other_never_ok.
Qed.

Lemma unknown_frequency_is_unbound_local_witness :
  get_returns demo_api ["AAA"; "BBB"] "2012-01-01" "2023-02-28" "W"
    = Raise UnboundLocalError
  /\ retrieve_factor_returns demo_api [("US Growth", "AAA"); ("US Value", "BBB")]
       "2012-01-01" "2023-02-28" "W"
     = Raise UnboundLocalError.
Proof.
  destruct (unknown_frequency_is_unbound_local demo_api ["AAA"; "BBB"]
              [("US Growth", "AAA"); ("US Value", "BBB")]
              "2012-01-01" "2023-02-28" "W")
    as (H1 & H2 & _).
  - discriminate.
  - discriminate.
  - split.
    + eapply H1. reflexivity.
    + eapply H2. reflexivity.
Defined.

(** ** Too little data *)

(** C2, as the code has it.  Neither [get_returns] nor
    [retrieve_factor_returns] ever raises [InsufficientDataError] (no such
    check exists).  For frequency 'D' or 'M' and at least one symbol, a
    price table with fewer than two rows gives a returns table without
    rows, and whatever table is left after the rows with missing values are
    dropped, also one without rows, is returned under the requested column
    names. *)
Theorem short_series_give_an_empty_table :
  forall (eod_api : string -> string -> string -> outcome (list eod_row))
         (tickers : list string) (factors : list (string * string))
         (start_date end_date frequency : string),
    get_returns eod_api tickers start_date end_date frequency
      <> Raise InsufficientDataError
    /\ retrieve_factor_returns eod_api factors start_date end_date frequency
      <> Raise InsufficientDataError
    /\ (forall df_prices,
          frequency = "D" \/ frequency = "M" -> tickers <> [] ->
          fetch_prices eod_api tickers start_date end_date empty_frame = Ok df_prices ->
          (nrows df_prices < 2)%nat ->
          get_returns eod_api tickers start_date end_date frequency
            = Ok (mkDF [] (map LStr tickers) []))
    /\ (forall df_prices table,
          fetch_prices eod_api (map snd factors) start_date end_date empty_frame
            = Ok df_prices ->
          returns_by_frequency frequency df_prices = Ok (Some table) ->
          retrieve_factor_returns eod_api factors start_date end_date frequency
            = Ok (mkDF (index table) (map LStr (map fst factors)) (values table))).
Proof.
  intros api tickers factors s e frequency. repeat split.
  - rewrite get_returns_body. intros H.
    apply returns_table_raises in H. destruct H as [H|[le H]]; discriminate.
  - rewrite retrieve_factor_returns_body. intros H.
    apply returns_table_raises in H. destruct H as [H|[le H]]; discriminate.
  - intros df Hf Ht F Hlt. rewrite get_returns_body.
    now apply (returns_table_single_row api tickers tickers s e frequency df).
  - intros df table F R. rewrite retrieve_factor_returns_body.
    apply (returns_table_returns api _ _ s e frequency df table); auto.
    now rewrite !length_map.
Qed.

Lemma short_series_give_an_empty_table_witness :
  get_returns demo_api ["ONE"] "2012-01-01" "2023-02-28" "M"
    = Ok (mkDF [] [LStr "ONE"] [])
  /\ retrieve_factor_returns demo_api [("US Growth", "AAA"); ("US Value", "LATE")]
       "2012-01-01" "2023-02-28" "M"
     = Ok (mkDF [] [LStr "US Growth"; LStr "US Value"] []).
Proof.
  destruct (short_series_give_an_empty_table demo_api ["ONE"]
              [("US Growth", "AAA"); ("US Value", "LATE")]
              "2012-01-01" "2023-02-28" "M")
    as (_ & _ & H3 & H4).
  split.
  - eapply H3.
    + now right.
    + discriminate.
    + reflexivity.
    + simpl. unfold nrows. simpl. lia.
  - exact (H4 _ (mkDF [] [LStr "adjusted_close"; LStr "adjusted_close"] [])
              eq_refl eq_refl).
Defined.

(** C2 as stated fails: a series with a single price gives a returns table
    without rows, not [InsufficientDataError]; and two factors whose
    histories leave no complete row give an aligned table without rows. *)
Lemma one_price_returns_an_empty_table :
  demo_api "ONE.US" "2012-01-01" "2023-02-28"
    = Returned [mkRow (d 2020 1 31) (Fin 7)]
  /\ get_returns demo_api ["ONE"] "2012-01-01" "2023-02-28" "M"
     = Ok (mkDF [] [LStr "ONE"] [])
  /\ get_returns demo_api ["ONE"] "2012-01-01" "2023-02-28" "D"
     = Ok (mkDF [] [LStr "ONE"] [])
  /\ retrieve_factor_returns demo_api [("US Growth", "AAA"); ("US Value", "LATE")]
       "2012-01-01" "2023-02-28" "M"
     = Ok (mkDF [] [LStr "US Growth"; LStr "US Value"] []).
Proof. repeat split. Qed.

(** ** Monthly returns *)

(** C5, as the code has it.  For frequency 'M' the prices are resampled to
    one row per calendar month (the last observed price of the month in
    every column), padded, and turned into returns
    [price[t]/price[t-1] - 1] between consecutive months.  Every row with a
    missing return is dropped, the first row always among them: the result
    holds exactly the complete rows after the first one and is at least one
    row shorter than the resampled table.  It is exactly one row shorter if
    and only if every return after the first row is a number; that is the
    case when the first month has a price other than zero in every column
    and every other cell is such a price or missing. *)
Theorem monthly_returns_drop_incomplete_rows :
  forall (eod_api : string -> string -> string -> outcome (list eod_row))
         (tickers : list string) (start_date end_date : string)
         (df_prices monthly : DataFrame),
    fetch_prices eod_api tickers start_date end_date empty_frame = Ok df_prices ->
    resample_M_last df_prices = Ok monthly ->
    index monthly = map month_end (month_bins (index df_prices))
    /\ exists df_returns,
         get_returns eod_api tickers start_date end_date "M" = Ok df_returns
         /\ columns df_returns = map LStr tickers
         /\ labelled_rows df_returns = filter complete (tl (returns_rows monthly))
         /\ (nrows df_returns < nrows monthly)%nat
         /\ (forallb complete (tl (returns_rows monthly)) = true
             <-> S (nrows df_returns) = nrows monthly)
         /\ (forallb priced (hd [] (values monthly)) = true ->
             forallb (forallb quoted) (values monthly) = true ->
             S (nrows df_returns) = nrows monthly).
Proof.
  intros api tickers s e df monthly F R. split.
  - now apply resample_index.
  - destruct (returns_table_monthly api tickers tickers s e df monthly eq_refl F R)
      as (out & Hout & Hc & Hrows & Hlt & Heq).
    exists out. rewrite get_returns_body.
    repeat split; auto.
    + now apply (returns_table_monthly_exact api tickers tickers s e df monthly out).
    + intros H0 Hq. apply Heq. now apply priced_returns_complete.
Qed.

Lemma monthly_returns_drop_incomplete_rows_witness :
  exists df_returns,
    get_returns demo_api ["AAA"] "2012-01-01" "2023-02-28" "M" = Ok df_returns
    /\ columns df_returns = [LStr "AAA"]
    /\ S (nrows df_returns) = 3%nat.
Proof.
  destruct (monthly_returns_drop_incomplete_rows demo_api ["AAA"]
              "2012-01-01" "2023-02-28"
              (mkDF [LDate (d 2020 1 30); LDate (d 2020 1 31);
                     LDate (d 2020 2 28); LDate (d 2020 3 31)]
                    [LStr "adjusted_close"]
                    [[Fin 100]; [Fin 110]; [Fin 121]; [Fin 121]])
              (mkDF [LDate (d 2020 1 31); LDate (d 2020 2 29); LDate (d 2020 3 31)]
                    [LStr "adjusted_close"]
                    [[Fin 110]; [Fin 121]; [Fin 121]])
              eq_refl eq_refl)
    as (_ & out & H1 & H2 & _ & _ & _ & H6).
  exists out. split; [exact H1|]. split; [exact H2|].
  apply H6; reflexivity.
Defined.

(** C5 as stated fails: with a second series that starts a month later the
    resampled table has three rows (January to March) and the returns table
    a single one (March), two rows shorter and not one. *)
Lemma later_start_drops_two_rows :
  (df_prices <- fetch_prices demo_api ["AAA"; "BBB"] "2012-01-01" "2023-02-28"
                  empty_frame ;;
   resample_M_last df_prices)
    = Ok (mkDF [LDate (d 2020 1 31); LDate (d 2020 2 29); LDate (d 2020 3 31)]
               [LStr "adjusted_close"; LStr "adjusted_close"]
               [[Fin 110; NaN]; [Fin 121; Fin 50]; [Fin 121; Fin 60]])
  /\ get_returns demo_api ["AAA"; "BBB"] "2012-01-01" "2023-02-28" "M"
     = Ok (mkDF [LDate (d 2020 3 31)] [LStr "AAA"; LStr "BBB"]
                [[Fin 0; Fin (1 # 5)]]).
Proof. split; reflexivity. Qed.

(** ** Running the loops of the estimators *)

Lemma nth_error_old (h t : heap) l o :
  nth_error h l = Some o -> nth_error (h ++ t) l = Some o.
Proof.
  intros H. rewrite nth_error_app1; [assumption|].
  apply nth_error_Some. congruence.
Qed.

Lemma extends_old (h0 h : heap) l o :
  extends h0 h -> nth_error h0 l = Some o -> nth_error h l = Some o.
Proof. intros [t ->]. apply nth_error_old. Qed.

Section Loops.

Variable OLS_fit : list float -> matrix -> outcome RegressionResults.
Variable StandardScaler_fit : matrix -> outcome Scaler.
Variable LassoLarsIC_fit : string -> bool -> matrix -> list float -> outcome float.
Variable LassoLars_fit : float -> bool -> matrix -> list float
                         -> outcome (list float).

Abbreviation lasso_body := (lasso_lars_body StandardScaler_fit LassoLarsIC_fit LassoLars_fit).
Abbreviation lasso_loop := (lasso_lars_loop StandardScaler_fit LassoLarsIC_fit LassoLars_fit).
Abbreviation l_step := (lasso_step StandardScaler_fit LassoLarsIC_fit LassoLars_fit).
Abbreviation l_table := (lasso_table StandardScaler_fit LassoLarsIC_fit LassoLars_fit).

Lemma lasso_body_computes h returns factor_returns df_results r f T ticker :
  nth_error h returns = Some (Frame r) ->
  nth_error h factor_returns = Some (Frame f) ->
  nth_error h df_results = Some (Frame T) ->
  computes (lasso_body ticker returns factor_returns df_results) h
           (l_step r f T ticker).
Proof.
  intros Hr Hf HT.
  unfold computes, lasso_lars_body, lasso_step, sparse_fit, select_penalty,
    bindM, read_frame, lift, call, alloc.
  rewrite Hr. simpl.
  destruct (getitem r ticker) as [y|e]; simpl; [|reflexivity].
  rewrite Hf. simpl. rewrite nth_error_snoc. simpl.
  destruct (StandardScaler_fit (values f)) as [scaler|e]; simpl; [|reflexivity].
  destruct (LassoLarsIC_fit "aic" false _ y) as [alpha|e]; simpl; [|reflexivity].
  rewrite nth_error_snoc. simpl.
  destruct (LassoLars_fit alpha true (values f) y) as [c|e]; simpl; [|reflexivity].
  rewrite (nth_error_old h [Frame f] _ _ Hf). simpl.
  destruct (column_frame c (columns f) ticker) as [temp|e]; simpl; [|reflexivity].
  rewrite (nth_error_old (h ++ [Frame f]) [Frame temp] _ _
             (nth_error_old h [Frame f] _ _ HT)). simpl.
  rewrite nth_error_snoc. simpl.
  destruct (concat_axis1 T temp) as [new|e]; simpl; [|reflexivity].
  eexists. split; [reflexivity|]. apply nth_error_snoc.
Qed.

Lemma computes_loop
  (body : label -> loc -> loc -> loc -> M loc)
  (step : DataFrame -> DataFrame -> DataFrame -> label -> result DataFrame)
  (loop : list label -> loc -> loc -> loc -> M loc)
  (table : DataFrame -> DataFrame -> list label -> DataFrame -> result DataFrame) :
  (forall returns f d, loop [] returns f d = ret d) ->
  (forall t rest returns f d,
      loop (t :: rest) returns f d
      = bindM (body t returns f d) (fun d' => loop rest returns f d')) ->
  (forall r f T, table r f [] T = Ok T) ->
  (forall r f t rest T,
      table r f (t :: rest) T = bind (step r f T t) (fun T' => table r f rest T')) ->
  (forall h0 t returns f d, touches_only_new h0 (is_new h0) (body t returns f d)) ->
  (forall h returns factor_returns d r f T t,
      nth_error h returns = Some (Frame r) ->
      nth_error h factor_returns = Some (Frame f) ->
      nth_error h d = Some (Frame T) ->
      computes (body t returns factor_returns d) h (step r f T t)) ->
  forall tickers h returns factor_returns d r f T,
    nth_error h returns = Some (Frame r) ->
    nth_error h factor_returns = Some (Frame f) ->
    nth_error h d = Some (Frame T) ->
    computes (loop tickers returns factor_returns d) h (table r f tickers T).
Proof.
  intros L0 L1 T0 T1 Hnew Hbody.
  induction tickers as [|t rest IH]; intros h returns fr d0 r f T Hr Hf HT.
  - rewrite L0, T0. unfold computes, ret. simpl. eauto.
  - rewrite L1, T1.
    pose proof (Hbody h returns fr d0 r f T t Hr Hf HT) as B.
    destruct (Hnew h t returns fr d0 h (extends_refl h)) as [Hext _].
    specialize (IH (snd (body t returns fr d0 h)) returns fr).
    unfold computes in B |- *. unfold bindM.
    destruct (body t returns fr d0 h) as [[l|e] h1] eqn:E; simpl in *.
    + destruct (step r f T t) as [T'|e']; simpl in *.
      * destruct B as [l' [El Hl']]. inversion El; subst.
        apply (IH l' r f T'); auto; eapply extends_old; eauto.
      * discriminate.
    + destruct (step r f T t) as [T'|e']; simpl in *.
      * destruct B as [l' [El _]]. discriminate.
      * exact B.
Qed.

Lemma lasso_loop_computes : forall tickers h returns factor_returns d r f T,
  nth_error h returns = Some (Frame r) ->
  nth_error h factor_returns = Some (Frame f) ->
  nth_error h d = Some (Frame T) ->
  computes (lasso_loop tickers returns factor_returns d) h (l_table r f tickers T).
Proof.
  apply (computes_loop lasso_body l_step); try reflexivity.
  - intros. apply new_lasso_lars_body.
  - intros. now apply lasso_body_computes.
Qed.

Lemma lasso_lars_regression_computes h returns factor_returns r f :
  nth_error h returns = Some (Frame r) ->
  nth_error h factor_returns = Some (Frame f) ->
  computes (lasso_lars_regression StandardScaler_fit LassoLarsIC_fit
              LassoLars_fit returns factor_returns) h
           (l_table r f (columns r) empty_frame).
Proof.
  intros Hr Hf.
  pose proof (lasso_loop_computes (columns r) (h ++ [Frame empty_frame])
                returns factor_returns (length h) r f empty_frame
                (nth_error_old h _ _ _ Hr) (nth_error_old h _ _ _ Hf)
                (nth_error_snoc h _)) as C.
  unfold computes in *. unfold lasso_lars_regression, bindM, alloc, read_frame.
  simpl. rewrite (nth_error_old h _ _ _ Hr). simpl. exact C.
Qed.

Abbreviation o_step := (ols_step OLS_fit).
Abbreviation o_table := (ols_table OLS_fit).

Lemma ols_body_computes h returns factor_returns df_results r f T ticker :
  nth_error h returns = Some (Frame r) ->
  nth_error h factor_returns = Some (Frame f) ->
  nth_error h df_results = Some (Frame T) ->
  computes (multiple_lin_reg_body OLS_fit ticker returns factor_returns df_results)
           h (o_step r f T ticker).
Proof.
  intros Hr Hf HT.
  unfold computes, multiple_lin_reg_body, ols_step, bindM, read_frame, lift, alloc.
  rewrite Hr. simpl.
  destruct (getitem r ticker) as [y|e]; simpl; [|reflexivity].
  pose proof (linear_reg_result OLS_fit y factor_returns true h) as Hfst.
  pose proof (linear_reg_heap OLS_fit y factor_returns true h f Hf) as Hsnd.
  rewrite Hf in Hfst.
  destruct (linear_reg OLS_fit y factor_returns true h) as [[lm|e] h1];
    simpl in *; subst h1.
  - destruct (dense_fit OLS_fit (values f) y) as [lm'|e]; simpl in *;
      [|discriminate].
    inversion Hfst; subst lm'.
    rewrite (nth_error_old h [Frame f] _ _ HT). simpl.
    destruct (concat_axis1 T (series_frame (params lm))) as [new|e]; simpl;
      [|reflexivity].
    eexists. split; [reflexivity|]. apply nth_error_snoc.
  - destruct (dense_fit OLS_fit (values f) y) as [lm'|e']; simpl in *;
      [discriminate|].
    inversion Hfst; subst. reflexivity.
Qed.

Lemma ols_loop_computes : forall tickers h returns factor_returns d r f T,
  nth_error h returns = Some (Frame r) ->
  nth_error h factor_returns = Some (Frame f) ->
  nth_error h d = Some (Frame T) ->
  computes (multiple_lin_reg_loop OLS_fit tickers returns factor_returns d) h
           (o_table r f tickers T).
Proof.
  apply (computes_loop (multiple_lin_reg_body OLS_fit) o_step); try reflexivity.
  - intros. apply new_multiple_lin_reg_body.
  - intros. now apply ols_body_computes.
Qed.

Lemma update_same : forall (h : heap) l o o',
  nth_error h l = Some o' -> nth_error (update l o h) l = Some o.
Proof.
  induction h as [|x h IH]; intros [|l] o o' H; simpl in *; try discriminate.
  - reflexivity.
  - eapply IH; eauto.
Qed.

Lemma update_other : forall (h : heap) l l' o,
  l <> l' -> nth_error (update l o h) l' = nth_error h l'.
Proof.
  induction h as [|x h IH]; intros [|l] [|l'] o H; simpl in *;
    try reflexivity; try congruence.
  apply IH. congruence.
Qed.

Lemma multiple_lin_reg_computes h returns factor_returns add_const r f :
  nth_error h returns = Some (Frame r) ->
  nth_error h factor_returns = Some (Frame f) ->
  computes (multiple_lin_reg OLS_fit returns factor_returns add_const) h
           (T <- o_table r f (columns r) empty_frame ;; ols_finish r f T).
Proof.
  intros Hr Hf.
  set (hA := h ++ [Frame empty_frame]).
  assert (HrA : nth_error hA returns = Some (Frame r)) by now apply nth_error_old.
  assert (HfA : nth_error hA factor_returns = Some (Frame f)) by now apply nth_error_old.
  pose proof (ols_loop_computes (columns r) hA returns factor_returns (length h)
                r f empty_frame HrA HfA (nth_error_snoc h _)) as C.
  destruct (new_multiple_lin_reg_loop OLS_fit h returns factor_returns (columns r)
              (length h) (Nat.le_refl _) hA) as [Hext Hnew].
  { exists [Frame empty_frame]. reflexivity. }
  unfold computes in *.
  unfold multiple_lin_reg, bindM, alloc, read_frame. simpl. fold hA.
  rewrite HrA. simpl.
  destruct (multiple_lin_reg_loop OLS_fit (columns r) returns factor_returns
              (length h) hA) as [[l|e] h1] eqn:E; simpl in *.
  - specialize (Hnew l eq_refl).
    assert (Hr1 : nth_error h1 returns = Some (Frame r)) by (eapply extends_old; eauto).
    assert (Hf1 : nth_error h1 factor_returns = Some (Frame f)) by (eapply extends_old; eauto).
    assert (Hlr : l <> returns).
    { intros ->. assert (returns < length h)%nat by (apply nth_error_Some; congruence).
      red in Hnew. lia. }
    assert (Hlf : l <> factor_returns).
    { intros ->. assert (factor_returns < length h)%nat by (apply nth_error_Some; congruence).
      red in Hnew. lia. }
    destruct (o_table r f (columns r) empty_frame) as [T|e']; simpl in *.
    + destruct C as [l' [El HT]]. inversion El; subst l'. clear El.
      rewrite HT. simpl. unfold ols_finish.
      destruct (drop_rows T (LStr "const")) as [dr|e]; simpl; [|reflexivity].
      rewrite (update_same h1 l _ _ HT). simpl.
      rewrite update_other by assumption. rewrite Hf1. simpl.
      destruct (set_index dr (columns f)) as [ri|e]; simpl; [|reflexivity].
      rewrite (update_same _ l (Frame ri) (Frame dr))
        by (eapply update_same; eauto).
      simpl. rewrite !update_other by assumption. rewrite Hr1. simpl.
      destruct (set_columns ri (columns r)) as [rn|e]; simpl; [|reflexivity].
      exists l. split; [reflexivity|].
      eapply update_same. eapply update_same. eapply update_same. eauto.
    + discriminate C.
  - destruct (o_table r f (columns r) empty_frame) as [T|e']; simpl in *.
    + destruct C as [l' [El _]]. discriminate.
    + exact C.
Qed.

End Loops.

(** ** The tables the loops build *)

Lemma list_as_nth (c : list float) : map (fun i => nth i c NaN) (seq 0 (length c)) = c.
Proof.
  induction c as [|x c IH]; simpl; [reflexivity|].
  f_equal. rewrite <- seq_shift, map_map. exact IH.
Qed.

Lemma combine_map_same {A B C} (F : A -> B) (G : A -> C) (l : list A) :
  combine (map F l) (map G l) = map (fun a => (F a, G a)) l.
Proof. induction l as [|a l IH]; simpl; [reflexivity|]. now rewrite IH. Qed.

Lemma coef_table_snoc idx done cs_done ticker c :
  length done = length cs_done ->
  length c = length idx ->
  concat_axis1 (coef_table idx done cs_done)
               (mkDF idx [ticker] (map (fun v => [v]) c))
  = Ok (coef_table idx (done ++ [ticker]) (cs_done ++ [c])).
Proof.
  intros Ld L.
  assert (S1 : map (fun v => [v]) c
               = map (fun i => [nth i c NaN]) (seq 0 (length idx))).
  { rewrite <- L. rewrite <- (list_as_nth c) at 1. now rewrite map_map. }
  destruct done as [|t0 done]; simpl.
  - destruct cs_done as [|c0 cs_done]; [|discriminate Ld].
    unfold concat_axis1. simpl. now rewrite S1.
  - unfold concat_axis1, is_empty, nrows, ncols. simpl.
    replace (length idx + S (length done))%nat
      with (S (length idx + length done)) by lia.
    replace (length idx + 1)%nat with (S (length idx)) by lia.
    simpl. rewrite labels_eqb_refl. f_equal. f_equal.
    rewrite S1, combine_map_same, map_map. apply map_ext. intros i. simpl.
    now rewrite map_app.
Qed.

Section TableFacts.

Variable OLS_fit : list float -> matrix -> outcome RegressionResults.
Variable StandardScaler_fit : matrix -> outcome Scaler.
Variable LassoLarsIC_fit : string -> bool -> matrix -> list float -> outcome float.
Variable LassoLars_fit : float -> bool -> matrix -> list float
                         -> outcome (list float).

Abbreviation s_fit := (sparse_fit StandardScaler_fit LassoLarsIC_fit LassoLars_fit).
Abbreviation s_fitted := (sparse_fitted StandardScaler_fit LassoLarsIC_fit LassoLars_fit).
Abbreviation ls_step := (lasso_step StandardScaler_fit LassoLarsIC_fit LassoLars_fit).
Abbreviation ls_table := (lasso_table StandardScaler_fit LassoLarsIC_fit LassoLars_fit).

Lemma sparse_fit_two_phase X y c :
  s_fit X y = Returned c
  <-> two_phase_fit StandardScaler_fit LassoLarsIC_fit LassoLars_fit X y c.
Proof.
  unfold sparse_fit, select_penalty, two_phase_fit. split.
  - destruct (StandardScaler_fit X) as [scaler|e]; [|discriminate].
    destruct (LassoLarsIC_fit "aic" false _ y) as [alpha|e] eqn:E; [|discriminate].
    intros H. exists scaler, alpha. auto.
  - intros (scaler & alpha & H1 & H2 & H3). now rewrite H1, H2.
Qed.

Lemma column_frame_ok c idx name :
  length c = length idx ->
  column_frame c idx name = Ok (mkDF idx [name] (map (fun v => [v]) c)).
Proof. intros L. unfold column_frame. now rewrite L, Nat.eqb_refl. Qed.

Lemma column_frame_inv c idx name temp :
  column_frame c idx name = Ok temp ->
  length c = length idx /\ temp = mkDF idx [name] (map (fun v => [v]) c).
Proof.
  unfold column_frame. destruct (Nat.eqb _ _) eqn:E; [|discriminate].
  apply Nat.eqb_eq in E. intros H. inversion H. auto.
Qed.

Lemma lasso_step_fitted r f ticker c done cs_done :
  length done = length cs_done ->
  s_fitted r f ticker c ->
  ls_step r f (coef_table (columns f) done cs_done) ticker
  = Ok (coef_table (columns f) (done ++ [ticker]) (cs_done ++ [c])).
Proof.
  intros Ld (y & Hy & Hfit & Hlen).
  apply sparse_fit_two_phase in Hfit.
  unfold lasso_step. rewrite Hy. simpl. rewrite Hfit. simpl.
  rewrite (column_frame_ok c (columns f) ticker Hlen). simpl.
  now apply coef_table_snoc.
Qed.

Lemma lasso_step_inv r f T ticker T' :
  ls_step r f T ticker = Ok T' -> exists c, s_fitted r f ticker c.
Proof.
  unfold lasso_step.
  destruct (getitem r ticker) as [y|e] eqn:Hy; simpl; [|discriminate].
  destruct (s_fit (values f) y) as [c|e] eqn:Hc; simpl; [|discriminate].
  destruct (column_frame c (columns f) ticker) as [temp|e] eqn:Ht; simpl;
    [|discriminate].
  intros _. exists c, y. split; [assumption|]. split.
  - now apply sparse_fit_two_phase.
  - now apply column_frame_inv in Ht.
Qed.

Lemma lasso_table_fitted r f : forall tickers cs done cs_done,
  length done = length cs_done ->
  Forall2 (s_fitted r f) tickers cs ->
  ls_table r f tickers (coef_table (columns f) done cs_done)
  = Ok (coef_table (columns f) (done ++ tickers) (cs_done ++ cs)).
Proof.
  induction tickers as [|t rest IH]; intros cs done cs_done Ld HF;
    inversion HF; subst; simpl.
  - now rewrite !app_nil_r.
  - rewrite (lasso_step_fitted r f t y done cs_done Ld H1). simpl.
    rewrite (IH l' (done ++ [t]) (cs_done ++ [y])); auto.
    + now rewrite <- !app_assoc.
    + rewrite !length_app. simpl. lia.
Qed.

Lemma lasso_table_inv r f : forall tickers done cs_done T',
  length done = length cs_done ->
  ls_table r f tickers (coef_table (columns f) done cs_done) = Ok T' ->
  exists cs, Forall2 (s_fitted r f) tickers cs
             /\ T' = coef_table (columns f) (done ++ tickers) (cs_done ++ cs).
Proof.
  induction tickers as [|t rest IH]; intros done cs_done T' Ld H; simpl in H.
  - inversion H; subst. exists []. split; [constructor|].
    now rewrite !app_nil_r.
  - destruct (ls_step r f (coef_table (columns f) done cs_done) t)
      as [T1|e] eqn:E1; simpl in H; [|discriminate].
    destruct (lasso_step_inv r f _ t T1 E1) as [c Hc].
    rewrite (lasso_step_fitted r f t c done cs_done Ld Hc) in E1.
    inversion E1; subst T1. clear E1.
    destruct (IH (done ++ [t]) (cs_done ++ [c]) T') as (cs & HF & HT); auto.
    + rewrite !length_app. simpl. lia.
    + exists (c :: cs). split; [now constructor|].
      now rewrite <- !app_assoc in HT.
Qed.

(** Any failed fit makes the table a failure. *)
Lemma lasso_table_all_fitted r f : forall tickers T T',
  ls_table r f tickers T = Ok T' ->
  forall t, In t tickers -> exists c, s_fitted r f t c.
Proof.
  induction tickers as [|t0 rest IH]; intros T T' H t Hin; simpl in *;
    [contradiction|].
  destruct (ls_step r f T t0) as [T1|e] eqn:E1; simpl in H; [|discriminate].
  destruct Hin as [<-|Hin].
  - eapply lasso_step_inv; eauto.
  - eapply IH; eauto.
Qed.

Lemma ols_step_inv r f T ticker T' :
  ols_step OLS_fit r f T ticker = Ok T' -> dense_fitted OLS_fit r f ticker.
Proof.
  unfold ols_step, dense_fitted.
  destruct (getitem r ticker) as [y|e] eqn:Hy; simpl; [|discriminate].
  destruct (dense_fit OLS_fit (values f) y) as [lm|e] eqn:Hlm; simpl;
    [|discriminate].
  intros _. exists y, lm. split; [reflexivity|assumption].
Qed.

Lemma ols_table_all_fitted r f : forall tickers T T',
  ols_table OLS_fit r f tickers T = Ok T' ->
  forall t, In t tickers -> dense_fitted OLS_fit r f t.
Proof.
  induction tickers as [|t0 rest IH]; intros T T' H t Hin; simpl in *;
    [contradiction|].
  destruct (ols_step OLS_fit r f T t0) as [T1|e] eqn:E1; simpl in H;
    [|discriminate].
  destruct Hin as [<-|Hin].
  - eapply ols_step_inv; eauto.
  - eapply IH; eauto.
Qed.

Lemma ols_finish_names r f T T' :
  ols_finish r f T = Ok T' -> index T' = columns f /\ columns T' = columns r.
Proof.
  unfold ols_finish, set_index, set_columns.
  destruct (drop_rows T (LStr "const")) as [dr|e]; simpl; [|discriminate].
  destruct (Nat.eqb _ _); simpl; [|discriminate].
  destruct (Nat.eqb _ _); simpl; [|discriminate].
  intros H. inversion H. auto.
Qed.

Lemma lasso_table_app r f : forall pre rest T,
  ls_table r f (pre ++ rest) T
  = (T' <- ls_table r f pre T ;; ls_table r f rest T').
Proof.
  induction pre as [|t pre IH]; intros rest T; simpl; [reflexivity|].
  destruct (ls_step r f T t) as [T1|e]; simpl; [apply IH|reflexivity].
Qed.

Lemma ols_table_app r f : forall pre rest T,
  ols_table OLS_fit r f (pre ++ rest) T
  = (T' <- ols_table OLS_fit r f pre T ;; ols_table OLS_fit r f rest T').
Proof.
  induction pre as [|t pre IH]; intros rest T; simpl; [reflexivity|].
  destruct (ols_step OLS_fit r f T t) as [T1|e]; simpl; [apply IH|reflexivity].
Qed.

(** The exception of the first fit that fails is the one of the table. *)
Lemma lasso_table_first_failure r f pre ticker post T y e :
  ls_table r f pre empty_frame = Ok T ->
  getitem r ticker = Ok y ->
  s_fit (values f) y = Failed e ->
  ls_table r f (pre ++ ticker :: post) empty_frame = Raise (Lib e).
Proof.
  intros Hpre Hy Hfail. rewrite lasso_table_app, Hpre. simpl.
  unfold lasso_step. rewrite Hy. simpl. now rewrite Hfail.
Qed.

Lemma ols_table_first_failure r f pre ticker post T y e :
  ols_table OLS_fit r f pre empty_frame = Ok T ->
  getitem r ticker = Ok y ->
  dense_fit OLS_fit (values f) y = Failed e ->
  ols_table OLS_fit r f (pre ++ ticker :: post) empty_frame = Raise (Lib e).
Proof.
  intros Hpre Hy Hfail. rewrite ols_table_app, Hpre. simpl.
  unfold ols_step. rewrite Hy. simpl. now rewrite Hfail.
Qed.

End TableFacts.

(** ** A failing instrument *)

(** C4, as the code has it.  The loops of [multiple_lin_reg] and
    [lasso_lars_regression] catch nothing: when the fit of one instrument
    fails, the call raises and returns no table, so that no result is
    reported for any instrument; a table is returned only when the fit of
    every instrument succeeded.  The exception raised is that of the first
    instrument, in column order, whose fit fails. *)
Theorem a_failed_fit_aborts_the_batch :
  forall (OLS_fit : list float -> matrix -> outcome RegressionResults)
         (StandardScaler_fit : matrix -> outcome Scaler)
         (LassoLarsIC_fit : string -> bool -> matrix -> list float -> outcome float)
         (LassoLars_fit : float -> bool -> matrix -> list float -> outcome (list float))
         (h : heap) (returns factor_returns : loc) (add_const : bool)
         (r f : DataFrame),
    nth_error h returns = Some (Frame r) ->
    nth_error h factor_returns = Some (Frame f) ->
    has_duplicates (columns r) = false ->
    (forall ticker y e,
        In ticker (columns r) -> getitem r ticker = Ok y ->
        dense_fit OLS_fit (values f) y = Failed e ->
        exists e', fst (multiple_lin_reg OLS_fit returns factor_returns add_const h)
                   = Raise e')
    /\ (forall ticker y e,
        In ticker (columns r) -> getitem r ticker = Ok y ->
        sparse_fit StandardScaler_fit LassoLarsIC_fit LassoLars_fit (values f) y
          = Failed e ->
        exists e', fst (lasso_lars_regression StandardScaler_fit LassoLarsIC_fit
                          LassoLars_fit returns factor_returns h) = Raise e')
    /\ (forall l,
        fst (multiple_lin_reg OLS_fit returns factor_returns add_const h) = Ok l ->
        forall ticker, In ticker (columns r) -> dense_fitted OLS_fit r f ticker)
    /\ (forall l,
        fst (lasso_lars_regression StandardScaler_fit LassoLarsIC_fit
               LassoLars_fit returns factor_returns h) = Ok l ->
        forall ticker, In ticker (columns r) ->
          exists c, sparse_fitted StandardScaler_fit LassoLarsIC_fit
                      LassoLars_fit r f ticker c)
    /\ (forall pre ticker post T y e,
        columns r = pre ++ ticker :: post ->
        ols_table OLS_fit r f pre empty_frame = Ok T ->
        getitem r ticker = Ok y ->
        dense_fit OLS_fit (values f) y = Failed e ->
        fst (multiple_lin_reg OLS_fit returns factor_returns add_const h)
          = Raise (Lib e))
    /\ (forall pre ticker post T y e,
        columns r = pre ++ ticker :: post ->
        lasso_table StandardScaler_fit LassoLarsIC_fit LassoLars_fit r f pre
          empty_frame = Ok T ->
        getitem r ticker = Ok y ->
        sparse_fit StandardScaler_fit LassoLarsIC_fit LassoLars_fit (values f) y
          = Failed e ->
        fst (lasso_lars_regression StandardScaler_fit LassoLarsIC_fit
               LassoLars_fit returns factor_returns h) = Raise (Lib e)).
Proof.
  intros OLS SS IC LL h returns factor_returns add_const r f Hr Hf _.
  pose proof (multiple_lin_reg_computes OLS h returns factor_returns add_const
                r f Hr Hf) as CO.
  pose proof (lasso_lars_regression_computes SS IC LL h returns factor_returns
                r f Hr Hf) as CL.
  unfold computes in CO, CL.
  assert (AO : forall l,
             fst (multiple_lin_reg OLS returns factor_returns add_const h) = Ok l ->
             forall ticker, In ticker (columns r) -> dense_fitted OLS r f ticker).
  { intros l Hl ticker Hin.
    destruct (ols_table OLS r f (columns r) empty_frame) as [T|e] eqn:E.
    - eapply ols_table_all_fitted; eauto.
    - simpl in CO. rewrite Hl in CO. discriminate. }
  assert (AL : forall l,
             fst (lasso_lars_regression SS IC LL returns factor_returns h) = Ok l ->
             forall ticker, In ticker (columns r) ->
               exists c, sparse_fitted SS IC LL r f ticker c).
  { intros l Hl ticker Hin.
    destruct (lasso_table SS IC LL r f (columns r) empty_frame) as [T|e] eqn:E.
    - eapply lasso_table_all_fitted; eauto.
    - rewrite Hl in CL. discriminate. }
  repeat split; auto.
  - intros ticker y e Hin Hy Hfail.
    destruct (fst (multiple_lin_reg OLS returns factor_returns add_const h))
      as [l|e'] eqn:E; [|eauto].
    destruct (AO l eq_refl ticker Hin) as (y' & lm & Hy' & Hlm).
    rewrite Hy in Hy'. inversion Hy'; subst y'. rewrite Hfail in Hlm. discriminate.
  - intros ticker y e Hin Hy Hfail.
    destruct (fst (lasso_lars_regression SS IC LL returns factor_returns h))
      as [l|e'] eqn:E; [|eauto].
    destruct (AL l eq_refl ticker Hin) as (c & y' & Hy' & Hfit & _).
    rewrite Hy in Hy'. inversion Hy'; subst y'.
    apply sparse_fit_two_phase in Hfit. rewrite Hfail in Hfit. discriminate.
  - intros pre ticker post T y e Hcols Hpre Hy Hfail.
    rewrite Hcols in CO.
    rewrite (ols_table_first_failure OLS r f pre ticker post T y e Hpre Hy Hfail)
      in CO.
    exact CO.
  - intros pre ticker post T y e Hcols Hpre Hy Hfail.
    rewrite Hcols in CL.
    rewrite (lasso_table_first_failure SS IC LL r f pre ticker post T y e
               Hpre Hy Hfail) in CL.
    exact CL.
Qed.

Lemma a_failed_fit_aborts_the_batch_witness :
  fst (lasso_lars_regression unit_scaler large_alpha zero_LassoLars
         2%nat 1%nat demo_heap) = Raise (Lib ValueError).
Proof.
  destruct (a_failed_fit_aborts_the_batch zero_OLS unit_scaler large_alpha
              zero_LassoLars demo_heap 2%nat 1%nat true demo_funds_gap
              demo_factors eq_refl eq_refl eq_refl) as (_ & _ & _ & _ & _ & H6).
  apply (H6 [LStr "QIACX"] (LStr "VTSAX") []
            (mkDF [LStr "US Growth"; LStr "US Value"] [LStr "QIACX"]
                  [[Fin 0]; [Fin 0]])
            (frame_column demo_funds_gap 1) ValueError);
    reflexivity.
Defined.

(** C4 as stated fails: in a batch of two instruments the second has a
    missing return and its fit fails; the first one alone is fitted without
    error, yet the call on the batch raises the second's [ValueError] and
    reports nothing for the first. *)
Lemma one_failure_loses_the_batch :
  sparse_fit unit_scaler large_alpha zero_LassoLars (values demo_factors)
    (frame_column demo_funds_gap 0) = Returned [Fin 0; Fin 0]
  /\ sparse_fit unit_scaler large_alpha zero_LassoLars (values demo_factors)
       (frame_column demo_funds_gap 1) = Failed ValueError
  /\ fst (lasso_lars_regression unit_scaler large_alpha zero_LassoLars
            2%nat 1%nat demo_heap) = Raise (Lib ValueError).
Proof. repeat split. Qed.

(** ** Names *)

Lemma returns_table_columns api symbols names s e frequency out :
  returns_table api symbols names s e frequency = Ok out ->
  columns out = map LStr names.
Proof.
  unfold returns_table.
  destruct (fetch_prices api symbols s e empty_frame) as [df|e1]; simpl;
    [|discriminate].
  destruct (returns_by_frequency frequency df) as [[t|]|e2]; simpl;
    try discriminate.
  unfold set_columns. destruct (Nat.eqb _ _); [|discriminate].
  intros H. now inversion H.
Qed.

(** ** The VIF table *)

Lemma update_snoc : forall (h : heap) o b, update (length h) o (h ++ [b]) = h ++ [o].
Proof. induction h as [|x h IH]; intros o b; simpl; [reflexivity|]. now rewrite IH. Qed.

Lemma add_constant_frame_ncols X : (0 < ncols (add_constant_frame X))%nat.
Proof.
  unfold add_constant_frame.
  destruct (existsb _ (seq 0 (ncols X))) eqn:E.
  - apply existsb_exists in E. destruct E as [j [Hin _]].
    apply in_seq in Hin. lia.
  - unfold ncols. simpl. lia.
Qed.

Section VifFacts.

Variable OLS_fit : list float -> matrix -> outcome RegressionResults.

Lemma vif_list_fitted exog : forall idxs lms,
  Forall2 (auxiliary_fit OLS_fit exog) idxs lms ->
  vif_list OLS_fit exog idxs = Returned (map vif_of lms).
Proof.
  induction idxs as [|i idxs IH]; intros lms HF; inversion HF; subst; simpl.
  - reflexivity.
  - unfold variance_inflation_factor. unfold auxiliary_fit in H1.
    rewrite H1. now rewrite (IH l' H3).
Qed.

Lemma regression_vif_run h X x0 lms :
  nth_error h X = Some (Frame x0) ->
  Forall2 (auxiliary_fit OLS_fit (values (add_constant_frame x0)))
          (seq 0 (ncols (add_constant_frame x0))) lms ->
  regression_vif OLS_fit X h
  = (Ok (S (length h)),
     h ++ [Frame (add_constant_frame x0);
           Mixed (mkOF (range_index (ncols (add_constant_frame x0)))
                       [(LStr "variables",
                         map CLabel (columns (add_constant_frame x0)));
                        (LStr "VIF", map CNum (map vif_of lms))])]).
Proof.
  intros Hx HF.
  pose proof (vif_list_fitted _ _ _ HF) as Hv.
  pose proof (Forall2_length HF) as Hlen. rewrite length_seq in Hlen.
  pose proof (add_constant_frame_ncols x0) as Hpos.
  unfold regression_vif, bindM, read_frame, read_mixed, alloc, lift, call,
    store, ret.
  rewrite Hx. simpl.
  set (X1 := add_constant_frame x0) in *.
  rewrite (nth_error_old (h ++ [Frame X1]) [Mixed (mkOF [] [])] _ _
             (nth_error_snoc h (Frame X1))).
  simpl. rewrite nth_error_snoc. simpl.
  rewrite update_snoc.
  rewrite (nth_error_old (h ++ [Frame X1]) _ _ _ (nth_error_snoc h (Frame X1))).
  simpl. rewrite Hv. simpl.
  rewrite nth_error_snoc. simpl.
  unfold setitem. simpl.
  rewrite !length_map. fold (ncols X1).
  destruct (ncols X1) as [|n] eqn:En; [lia|].
  change (range_index (S n)) with (LInt 0 :: map (fun i => LInt (Z.of_nat i)) (seq 1 n)).
  cbv iota.
  rewrite <- Hlen. simpl length. rewrite length_map, length_seq, Nat.eqb_refl.
  simpl. rewrite update_snoc.
  rewrite length_app. simpl. rewrite Nat.add_1_r.
  rewrite <- app_assoc. reflexivity.
Qed.

End VifFacts.

Lemma vif_of_one lm : feqb (rsquared lm) fone = true -> vif_of lm = PInf.
Proof.
  unfold vif_of. intros H.
  destruct (rsquared lm) as [p| | |]; try discriminate H.
  apply Qeq_bool_iff in H.
  assert (Z0 : Qeq_bool (Qred (1 + Qred (- p))) 0 = true).
  { apply Qeq_bool_iff. rewrite !Qred_correct, H. reflexivity. }
  change (fdiv (Fin 1) (Fin (Qred (1 + Qred (- p)))) = PInf).
  unfold fdiv. rewrite Z0. reflexivity.
Qed.

(** C6, as the code has it.  [regression_vif] passes the design through
    [add_constant]: a column of ones named 'const' is put in front, unless
    the design already has a column that is constant and not zero, in which
    case nothing is added.  When the auxiliary regressions succeed, the
    table returned has one row per column of that matrix, in its column
    order (the constant first when it was added), with the column name
    under 'variables' and [1 / (1 - R2_i)] under 'VIF', [R2_i] being the
    [rsquared] of the OLS regression of column [i] on the other columns;
    [R2_i = 1] gives the infinite value, not an exception. *)
Theorem vif_table_of_the_design :
  forall (OLS_fit : list float -> matrix -> outcome RegressionResults)
         (h : heap) (X : loc) (x0 : DataFrame) (lms : list RegressionResults),
    nth_error h X = Some (Frame x0) ->
    Forall2 (auxiliary_fit OLS_fit (values (add_constant_frame x0)))
            (seq 0 (ncols (add_constant_frame x0))) lms ->
    (existsb (fun j => safe_is_const (frame_column x0 j)) (seq 0 (ncols x0)) = false ->
       columns (add_constant_frame x0) = LStr "const" :: columns x0
       /\ values (add_constant_frame x0) = map (cons fone) (values x0))
    /\ (existsb (fun j => safe_is_const (frame_column x0 j)) (seq 0 (ncols x0)) = true ->
       add_constant_frame x0 = x0)
    /\ regression_vif OLS_fit X h
       = (Ok (S (length h)),
          h ++ [Frame (add_constant_frame x0);
                Mixed (mkOF (range_index (ncols (add_constant_frame x0)))
                            [(LStr "variables",
                              map CLabel (columns (add_constant_frame x0)));
                             (LStr "VIF", map CNum (map vif_of lms))])])
    /\ (forall lm, feqb (rsquared lm) fone = true -> vif_of lm = PInf).
Proof.
  intros OLS h X x0 lms Hx HF. repeat split.
  - unfold add_constant_frame. now rewrite H.
  - unfold add_constant_frame. now rewrite H.
  - unfold add_constant_frame. intros H. now rewrite H.
  - now apply regression_vif_run.
  - apply vif_of_one.
Qed.

Lemma vif_table_of_the_design_witness :
  regression_vif zero_OLS 1%nat demo_heap
  = (Ok 6%nat,
     demo_heap ++
     [Frame (mkDF demo_dates [LStr "const"; LStr "US Growth"; LStr "US Value"]
                  [[Fin 1; q 1 100; q 3 100]; [Fin 1; q 2 100; q (-1) 100];
                   [Fin 1; q 4 100; q 1 100]]);
      Mixed (mkOF [LInt 0; LInt 1; LInt 2]
                  [(LStr "variables",
                    [CLabel (LStr "const"); CLabel (LStr "US Growth");
                     CLabel (LStr "US Value")]);
                   (LStr "VIF", [CNum (Fin 1); CNum (Fin 1); CNum (Fin 1)])])]).
Proof.
  destruct (vif_table_of_the_design zero_OLS demo_heap 1%nat demo_factors
              (repeat (mkResults [(LStr "const", Fin 0); (LStr "x1", Fin 0)] (Fin 0))
                      3)
              eq_refl) as (_ & _ & H & _).
  - repeat constructor.
  - exact H.
Defined.

(** C6 as stated fails: on a design whose first factor is constant at 1/2,
    no column of ones is put in front of the matrix, and the table returned
    has the two factor rows and no row for a constant. *)
Lemma constant_factor_suppresses_const :
  regression_vif zero_OLS 4%nat demo_heap
  = (Ok 6%nat,
     demo_heap ++
     [Frame demo_constant;
      Mixed (mkOF [LInt 0; LInt 1]
                  [(LStr "variables",
                    [CLabel (LStr "Cash"); CLabel (LStr "US Value")]);
                   (LStr "VIF", [CNum (Fin 1); CNum (Fin 1)])])]).
Proof. reflexivity. Qed.


(** * Further properties of the code *)

(** ** [get_stock_prices] *)

Lemma prefix_spec : forall pat s,
  String.prefix pat s = true <-> exists post, s = (pat ++ post)%string.
Proof.
  induction pat as [|a pat IH]; intros s; simpl.
  - split; [intros _; now exists s | intros _; destruct s; reflexivity].
  - destruct s as [|b s]; simpl.
    + split; [discriminate | intros [post H]; discriminate].
    + destruct (Ascii.ascii_dec a b) as [->|Hab].
      * rewrite IH. split; intros [post H]; exists post.
        -- now rewrite H.
        -- now inversion H.
      * split; [discriminate|]. intros [post H]. inversion H. congruence.
Qed.

Lemma contains_spec : forall pat s,
  contains pat s = true <-> exists pre post, s = (pre ++ pat ++ post)%string.
Proof.
  intros pat s. induction s as [|b s IH].
  - destruct pat as [|a pat]; simpl.
    + split; [intros _; now exists EmptyString, EmptyString | reflexivity].
    + split; [discriminate|]. intros [pre [post H]].
      destruct pre; discriminate.
  - change (contains pat (String b s))
      with (String.prefix pat (String b s) || contains pat s).
    rewrite orb_true_iff, prefix_spec, IH. split.
    + intros [[post H] | [pre [post H]]].
      * exists EmptyString, post. exact H.
      * exists (String b pre), post. simpl. now rewrite H.
    + intros [pre [post H]]. destruct pre as [|c pre].
      * left. now exists post.
      * right. simpl in H. inversion H. now exists pre, post.
Qed.

Lemma get_stock_prices_table api symbol s e :
  get_stock_prices api symbol s e = price_table (api (eod_ticker symbol) s e).
Proof. reflexivity. Qed.

(** X1.  A symbol that contains '.TO' anywhere is sent to the provider as
    it is; every other symbol is sent with '.US' appended.  The table only
    depends on the provider's answer for that ticker. *)
Theorem exchange_suffix_rule :
  forall (eod_api : string -> string -> string -> outcome (list eod_row))
         (start_date end_date : string),
    (forall pre post : string,
        get_stock_prices eod_api (pre ++ ".TO" ++ post)%string start_date end_date
        = price_table (eod_api (pre ++ ".TO" ++ post)%string start_date end_date))
    /\ (forall symbol : string,
        (forall pre post : string, symbol <> (pre ++ ".TO" ++ post)%string) ->
        get_stock_prices eod_api symbol start_date end_date
        = price_table (eod_api (symbol ++ ".US")%string start_date end_date)).
Proof.
  intros api s e. split.
  - intros pre post. rewrite get_stock_prices_table. unfold eod_ticker.
    assert (H : contains ".TO" (pre ++ ".TO" ++ post)%string = true).
    { apply contains_spec. now exists pre, post. }
    now rewrite H.
  - intros symbol Hno. rewrite get_stock_prices_table. unfold eod_ticker.
    destruct (contains ".TO" symbol) eqn:E; [|reflexivity].
    apply contains_spec in E. destruct E as [pre [post H]].
    now elim (Hno pre post).
Qed.

Lemma exchange_suffix_rule_witness :
  get_stock_prices demo_api "AAA" "2012-01-01" "2023-02-28"
  = price_table (demo_api "AAA.US" "2012-01-01" "2023-02-28").
Proof.
  apply (proj2 (exchange_suffix_rule demo_api "2012-01-01" "2023-02-28") "AAA").
  intros pre post H.
  assert (C : contains ".TO" "AAA" = true).
  { apply contains_spec. now exists pre, post. }
  discriminate C.
Defined.

Lemma date_leb_total a b : date_leb a b = false -> date_leb b a = true.
Proof.
  unfold date_leb, date_compare.
  destruct (Z.compare_spec (year a) (year b));
    destruct (Z.compare_spec (year b) (year a)); try lia; try discriminate;
    try reflexivity.
  destruct (Z.compare_spec (month a) (month b));
    destruct (Z.compare_spec (month b) (month a)); try lia; try discriminate;
    try reflexivity.
  destruct (Z.compare_spec (day a) (day b));
    destruct (Z.compare_spec (day b) (day a)); try lia; try discriminate;
    reflexivity.
Qed.

Lemma insert_row_perm r rs : Permutation (insert_row r rs) (r :: rs).
Proof.
  induction rs as [|k rs IH]; simpl; [apply Permutation_refl|].
  destruct (date_leb (row_date r) (row_date k)).
  - apply Permutation_refl.
  - eapply perm_trans; [apply perm_skip, IH|].
    apply perm_swap.
Qed.

Lemma sort_rows_perm rs : Permutation (sort_rows rs) rs.
Proof.
  induction rs as [|r rs IH]; simpl; [constructor|].
  unfold sort_rows in *. simpl.
  eapply perm_trans; [apply insert_row_perm|].
  now apply perm_skip.
Qed.

Lemma insert_row_sorted r rs :
  Sorted row_le rs -> Sorted row_le (insert_row r rs).
Proof.
  induction rs as [|k rs IH]; simpl; intros H.
  - repeat constructor.
  - destruct (date_leb (row_date r) (row_date k)) eqn:E.
    + constructor; [assumption|]. constructor. exact E.
    + inversion H as [|? ? Hs Hh]; subst.
      constructor; [now apply IH|].
      destruct rs as [|k' rs]; simpl.
      * constructor. now apply date_leb_total.
      * destruct (date_leb (row_date r) (row_date k')).
        -- constructor. now apply date_leb_total.
        -- constructor. now inversion Hh.
Qed.

Lemma sort_rows_sorted rs : Sorted row_le (sort_rows rs).
Proof.
  induction rs as [|r rs IH]; simpl; [constructor|].
  unfold sort_rows in *. simpl. now apply insert_row_sorted.
Qed.

(** X2.  The one-column price table [get_returns] and
    [retrieve_factor_returns] take from a symbol
    ([get_stock_prices(...)[['adjusted_close']]], its index converted with
    [pd.to_datetime]) has one row per record of the provider's answer: the
    same records (none lost, none added), in calendar order whatever the
    order of the answer, each with its date as row label and its adjusted
    close as the only cell. *)
Theorem prices_are_sorted_by_date :
  forall (eod_api : string -> string -> string -> outcome (list eod_row))
         (symbol start_date end_date : string) (prices : list eod_row)
         (df : DataFrame),
    eod_api (eod_ticker symbol) start_date end_date = Returned prices ->
    get_stock_prices eod_api symbol start_date end_date = Ok df ->
    exists sorted,
      Permutation sorted prices
      /\ Sorted row_le sorted
      /\ index df = map (fun r => LDate (row_date r)) sorted
      /\ values df = map (fun r => [adjusted_close r]) sorted
      /\ columns df = [LStr "adjusted_close"].
Proof.
  intros api symbol s e prices df Hapi H.
  rewrite get_stock_prices_table, Hapi in H. unfold price_table in H. simpl in H.
  destruct prices as [|r rs]; [discriminate|].
  inversion H; subst df. clear H.
  exists (sort_rows (r :: rs)). repeat split.
  - apply sort_rows_perm.
  - apply sort_rows_sorted.
Qed.

Lemma prices_are_sorted_by_date_witness :
  exists sorted,
    Permutation sorted
      [mkRow (d 2020 3 30) (Fin 60); mkRow (d 2020 1 15) (Fin 40);
       mkRow (d 2020 2 27) (Fin 50)]
    /\ Sorted row_le sorted
    /\ [LDate (d 2020 1 15); LDate (d 2020 2 27); LDate (d 2020 3 30)]
       = map (fun r => LDate (row_date r)) sorted
    /\ [[Fin 40]; [Fin 50]; [Fin 60]] = map (fun r => [adjusted_close r]) sorted.
Proof.
  destruct (prices_are_sorted_by_date unordered_api "VUG" "2012-01-01" "2023-02-28"
              [mkRow (d 2020 3 30) (Fin 60); mkRow (d 2020 1 15) (Fin 40);
               mkRow (d 2020 2 27) (Fin 50)]
              (mkDF [LDate (d 2020 1 15); LDate (d 2020 2 27); LDate (d 2020 3 30)]
                    [LStr "adjusted_close"] [[Fin 40]; [Fin 50]; [Fin 60]])
              eq_refl eq_refl) as (sorted & HP & HS & Hi & Hv & _).
  exists sorted. repeat split; assumption.
Defined.

(** ** Failures and empty input in the returns functions *)

Lemma fetch_prices_app api s e : forall pre rest df0,
  fetch_prices api (pre ++ rest) s e df0
  = (df <- fetch_prices api pre s e df0 ;; fetch_prices api rest s e df).
Proof.
  induction pre as [|t pre IH]; intros rest df0; simpl; [reflexivity|].
  destruct (get_stock_prices api t s e) as [df_temp|err]; simpl; [|reflexivity].
  destruct (concat_axis1 df0 df_temp) as [df1|err]; simpl; [apply IH|reflexivity].
Qed.

Lemma returns_table_retrieval_failure api pre t post names s e frequency df err :
  fetch_prices api pre s e empty_frame = Ok df ->
  get_stock_prices api t s e = Raise err ->
  returns_table api (pre ++ t :: post) names s e frequency = Raise err.
Proof.
  intros Hpre Hfail. unfold returns_table.
  rewrite fetch_prices_app, Hpre. simpl. now rewrite Hfail.
Qed.

(** X3.  Prices are retrieved before the frequency is looked at: when the
    retrieval for some symbol raises (a failure of the provider, or
    [KeyError] on an empty answer) after the symbols before it were
    retrieved, [get_returns] and [retrieve_factor_returns] raise that same
    exception, for every frequency, a valid one or not. *)
Theorem retrieval_failure_comes_first :
  forall (eod_api : string -> string -> string -> outcome (list eod_row))
         (tickers : list string) (factors : list (string * string))
         (pre : list string) (symbol : string) (post : list string)
         (start_date end_date frequency : string) (df : DataFrame) (err : exn),
    fetch_prices eod_api pre start_date end_date empty_frame = Ok df ->
    get_stock_prices eod_api symbol start_date end_date = Raise err ->
    (tickers = pre ++ symbol :: post ->
       get_returns eod_api tickers start_date end_date frequency = Raise err)
    /\ (map snd factors = pre ++ symbol :: post ->
       retrieve_factor_returns eod_api factors start_date end_date frequency
         = Raise err).
Proof.
  intros api tickers factors pre symbol post s e frequency df err Hpre Hfail.
  split; intros Hsyms.
  - rewrite get_returns_body, Hsyms.
    now apply (returns_table_retrieval_failure api pre symbol post _ s e
                 frequency df err).
  - rewrite retrieve_factor_returns_body, Hsyms.
    now apply (returns_table_retrieval_failure api pre symbol post _ s e
                 frequency df err).
Qed.

Lemma retrieval_failure_comes_first_witness :
  get_returns demo_api ["AAA"; "ZZZ"; "BBB"] "2012-01-01" "2023-02-28" "W"
    = Raise (Lib URLError)
  /\ retrieve_factor_returns demo_api
       [("US Growth", "AAA"); ("US Value", "ZZZ"); ("US Quality", "BBB")]
       "2012-01-01" "2023-02-28" "M"
     = Raise (Lib URLError).
Proof.
  split.
  - apply (proj1 (retrieval_failure_comes_first demo_api
                    ["AAA"; "ZZZ"; "BBB"] [] ["AAA"] "ZZZ" ["BBB"]
                    "2012-01-01" "2023-02-28" "W" _ (Lib URLError)
                    eq_refl eq_refl)).
    reflexivity.
  - apply (proj2 (retrieval_failure_comes_first demo_api []
                    [("US Growth", "AAA"); ("US Value", "ZZZ");
                     ("US Quality", "BBB")]
                    ["AAA"] "ZZZ" ["BBB"]
                    "2012-01-01" "2023-02-28" "M" _ (Lib URLError)
                    eq_refl eq_refl)).
    reflexivity.
Defined.

(** X4.  Without any symbol no price is requested, whatever the provider:
    the daily branch returns the empty table, the monthly branch raises the
    [TypeError] of [resample] on a table without a date index, and any
    other frequency ends in [UnboundLocalError]. *)
Theorem no_symbol_no_request :
  forall (eod_api : string -> string -> string -> outcome (list eod_row))
         (start_date end_date frequency : string),
    get_returns eod_api [] start_date end_date "D" = Ok empty_frame
    /\ retrieve_factor_returns eod_api [] start_date end_date "D" = Ok empty_frame
    /\ get_returns eod_api [] start_date end_date "M" = Raise (Lib TypeError)
    /\ retrieve_factor_returns eod_api [] start_date end_date "M"
       = Raise (Lib TypeError)
    /\ (frequency <> "D" -> frequency <> "M" ->
        get_returns eod_api [] start_date end_date frequency
          = Raise UnboundLocalError
        /\ retrieve_factor_returns eod_api [] start_date end_date frequency
          = Raise UnboundLocalError).
Proof.
  intros api s e frequency. repeat split.
  - rewrite get_returns_body. unfold returns_table. simpl.
    now rewrite returns_by_frequency_other.
  - rewrite retrieve_factor_returns_body. unfold returns_table. simpl.
    now rewrite returns_by_frequency_other.
Qed.

Lemma no_symbol_no_request_witness :
  get_returns demo_api [] "2012-01-01" "2023-02-28" "Q" = Raise UnboundLocalError.
Proof.
  destruct (no_symbol_no_request demo_api "2012-01-01" "2023-02-28" "Q")
    as (_ & _ & _ & _ & H).
  apply H; discriminate.
Defined.

(** ** Shape and content of a returns table *)

Lemma ffill_rows_width n : forall rows prev,
  length prev = n -> Forall (fun r => length r = n) rows ->
  Forall (fun r => length r = n) (ffill_rows prev rows).
Proof.
  induction rows as [|r rows IH]; intros prev Hp H; simpl; [constructor|].
  apply Forall_cons_iff in H. destruct H as [Hr Hrows].
  assert (L : length (map (fun xp : float * float =>
                             if isnan (fst xp) then snd xp else fst xp)
                          (combine r prev)) = n).
  { rewrite length_map, length_combine. lia. }
  constructor; [exact L|]. apply IH; auto.
Qed.

Lemma ffill_width n rows :
  Forall (fun r => length r = n) rows -> Forall (fun r => length r = n) (ffill rows).
Proof.
  destruct rows as [|r rows]; simpl; intros H; [constructor|].
  apply Forall_cons_iff in H. destruct H as [Hr Hrows].
  constructor; [exact Hr|]. now apply ffill_rows_width.
Qed.

Lemma pct_rows_width n : forall rows prev,
  length prev = n -> Forall (fun r => length r = n) rows ->
  Forall (fun r => length r = n) (pct_rows prev rows).
Proof.
  induction rows as [|r rows IH]; intros prev Hp H; simpl; [constructor|].
  apply Forall_cons_iff in H. destruct H as [Hr Hrows]. constructor.
  - rewrite length_map, length_combine. lia.
  - apply IH; auto.
Qed.

Lemma pct_change_width n df :
  wf_prices n df -> Forall (fun r => length r = n) (values (pct_change df)).
Proof.
  intros [Hc Hr Hw Hd Hn]. unfold pct_change. simpl.
  apply pct_rows_width.
  - now rewrite repeat_length.
  - now apply ffill_width.
Qed.

Lemma dropna_keeps {P : list float -> Prop} df :
  Forall P (values df) -> Forall P (values (dropna df)).
Proof.
  intros H. unfold dropna. simpl. rewrite Forall_forall in *.
  intros r Hr. apply in_map_iff in Hr. destruct Hr as [[l r'] [<- Hin]].
  apply filter_In in Hin. destruct Hin as [Hin _].
  apply H. simpl. eapply in_combine_r; eauto.
Qed.

Lemma dropna_complete df : Forall (fun r => has_nan r = false) (values (dropna df)).
Proof.
  unfold dropna. simpl. rewrite Forall_forall.
  intros r Hr. apply in_map_iff in Hr. destruct Hr as [[l r'] [<- Hin]].
  apply filter_In in Hin. destruct Hin as [_ Hc].
  unfold complete in Hc. simpl in *. now apply negb_true_iff in Hc.
Qed.

Lemma returns_table_inv api symbols names s e frequency out :
  returns_table api symbols names s e frequency = Ok out ->
  exists df table,
    fetch_prices api symbols s e empty_frame = Ok df
    /\ returns_by_frequency frequency df = Ok (Some table)
    /\ out = mkDF (index table) (map LStr names) (values table).
Proof.
  unfold returns_table.
  destruct (fetch_prices api symbols s e empty_frame) as [df|e1] eqn:F; simpl;
    [|discriminate].
  destruct (returns_by_frequency frequency df) as [[t|]|e2] eqn:R; simpl;
    try discriminate.
  unfold set_columns. destruct (Nat.eqb _ _); [|discriminate].
  intros H. inversion H; subst. exists df, t. auto.
Qed.

Lemma returns_by_frequency_inv frequency df table :
  returns_by_frequency frequency df = Ok (Some table) ->
  exists source,
    table = dropna (pct_change source)
    /\ (frequency = "D" /\ source = df
        \/ frequency = "M" /\ resample_M_last df = Ok source).
Proof.
  unfold returns_by_frequency.
  destruct (String.eqb frequency "D") eqn:ED.
  - apply String.eqb_eq in ED. intros H. inversion H. exists df. auto.
  - destruct (String.eqb frequency "M") eqn:EM; [|discriminate].
    apply String.eqb_eq in EM.
    destruct (resample_M_last df) as [m|err] eqn:R; simpl; [|discriminate].
    intros H. inversion H. exists m. auto.
Qed.

Lemma returns_table_complete api symbols names s e frequency out :
  returns_table api symbols names s e frequency = Ok out ->
  columns out = map LStr names
  /\ length (values out) = nrows out
  /\ Forall (fun row => length row = length symbols /\ has_nan row = false)
            (values out).
Proof.
  intros H. apply returns_table_inv in H.
  destruct H as (df & table & F & R & ->).
  pose proof (fetch_prices_shape api s e symbols df F) as W.
  apply returns_by_frequency_inv in R. destruct R as (src & -> & Hsrc).
  assert (Ws : wf_prices (length symbols) src).
  { destruct Hsrc as [[_ ->] | [_ Hm]]; [assumption|].
    eapply resample_wf; eauto. }
  split; [reflexivity|]. split.
  - exact (dropna_values_length (pct_change src)).
  - change (Forall (fun row => length row = length symbols /\ has_nan row = false)
                   (values (dropna (pct_change src)))).
    pose proof (dropna_keeps (P := fun r => length r = length symbols)
                  (pct_change src) (pct_change_width _ src Ws)) as H1.
    pose proof (dropna_complete (pct_change src)) as H2.
    rewrite Forall_forall in *. intros r Hr. split; auto.
Qed.

(** X5.  Every table returned by [get_returns] or
    [retrieve_factor_returns] is rectangular and complete: it has one row
    label per row, each row has one cell per requested symbol, under the
    requested names, and no cell is NaN. *)
Theorem returns_tables_have_no_gap :
  forall (eod_api : string -> string -> string -> outcome (list eod_row))
         (tickers : list string) (factors : list (string * string))
         (start_date end_date frequency : string) (out : DataFrame),
    (get_returns eod_api tickers start_date end_date frequency = Ok out ->
       columns out = map LStr tickers
       /\ length (values out) = nrows out
       /\ Forall (fun row => length row = length tickers /\ has_nan row = false)
                 (values out))
    /\ (retrieve_factor_returns eod_api factors start_date end_date frequency
          = Ok out ->
       columns out = map LStr (map fst factors)
       /\ length (values out) = nrows out
       /\ Forall (fun row => length row = length factors /\ has_nan row = false)
                 (values out)).
Proof.
  intros api tickers factors s e frequency out. split; intros H.
  - rewrite get_returns_body in H. now apply returns_table_complete in H.
  - rewrite retrieve_factor_returns_body in H.
    apply returns_table_complete in H. now rewrite length_map in H.
Qed.

Lemma returns_tables_have_no_gap_witness :
  Forall (fun row => length row = 2%nat /\ has_nan row = false)
         [[Fin (1 # 10); Fin 0]; [Fin 0; Fin (1 # 5)]; [Fin 0; Fin 0]].
Proof.
  exact (proj2 (proj2 (proj1 (returns_tables_have_no_gap demo_api
           ["AAA"; "BBB"] [] "2012-01-01" "2023-02-28" "D"
           (mkDF [LDate (d 2020 2 28); LDate (d 2020 3 30); LDate (d 2020 3 31)]
                 [LStr "AAA"; LStr "BBB"]
                 [[Fin (1 # 10); Fin 0]; [Fin 0; Fin (1 # 5)]; [Fin 0; Fin 0]]))
           eq_refl))).
Defined.

(** ** Daily returns *)

Lemma returns_table_daily api symbols names s e df :
  length names = length symbols -> symbols <> [] ->
  fetch_prices api symbols s e empty_frame = Ok df ->
  exists df_returns,
    returns_table api symbols names s e "D" = Ok df_returns
    /\ columns df_returns = map LStr names
    /\ labelled_rows df_returns = filter complete (tl (returns_rows df))
    /\ (nrows df_returns < nrows df)%nat
    /\ (forallb complete (tl (returns_rows df)) = true ->
        S (nrows df_returns) = nrows df).
Proof.
  intros L Hs F.
  pose proof (fetch_prices_shape api s e symbols df F) as W.
  assert (Hpos : (0 < length symbols)%nat).
  { destruct symbols; simpl; [congruence|lia]. }
  assert (Hne : index df <> []) by (apply (wf_nonempty _ df W); assumption).
  destruct (dropna_pct_change _ df W Hpos) as (Hrows & Hlt & Heq).
  exists (mkDF (index (dropna (pct_change df))) (map LStr names)
               (values (dropna (pct_change df)))).
  split.
  - now apply (returns_table_returns api symbols names s e "D" df
                 (dropna (pct_change df)) L F).
  - split; [reflexivity|]. split; [exact Hrows|]. split.
    + now apply Hlt.
    + intros Hall. now apply Heq.
Qed.

(** X6.  For frequency 'D' the design matrix of [retrieve_factor_returns]
    holds exactly the complete rows after the first one of the padded
    day-to-day returns [price[t]/price[t-1] - 1] of the joined price table:
    it is always shorter than that table, and by exactly one row when the
    first row has a price other than zero in every column and every other
    cell is such a price or missing. *)
Theorem daily_returns_drop_incomplete_rows :
  forall (eod_api : string -> string -> string -> outcome (list eod_row))
         (factors : list (string * string)) (start_date end_date : string)
         (df_prices : DataFrame),
    factors <> [] ->
    fetch_prices eod_api (map snd factors) start_date end_date empty_frame
      = Ok df_prices ->
    exists df_returns,
      retrieve_factor_returns eod_api factors start_date end_date "D"
        = Ok df_returns
      /\ columns df_returns = map LStr (map fst factors)
      /\ labelled_rows df_returns = filter complete (tl (returns_rows df_prices))
      /\ (nrows df_returns < nrows df_prices)%nat
      /\ (forallb priced (hd [] (values df_prices)) = true ->
          forallb (forallb quoted) (values df_prices) = true ->
          S (nrows df_returns) = nrows df_prices).
Proof.
  intros api factors s e df Hne F.
  destruct (returns_table_daily api (map snd factors) (map fst factors) s e df)
    as (out & Hout & Hc & Hrows & Hlt & Heq); auto.
  - now rewrite !length_map.
  - destruct factors; simpl; [congruence|discriminate].
  - exists out. rewrite retrieve_factor_returns_body.
    repeat split; auto.
    intros H0 Hq. apply Heq. now apply priced_returns_complete.
Qed.

Lemma daily_returns_drop_incomplete_rows_witness :
  exists df_returns,
    retrieve_factor_returns demo_api [("US Growth", "AAA")]
      "2012-01-01" "2023-02-28" "D" = Ok df_returns
    /\ S (nrows df_returns) = 4%nat.
Proof.
  destruct (daily_returns_drop_incomplete_rows demo_api [("US Growth", "AAA")]
              "2012-01-01" "2023-02-28"
              (mkDF [LDate (d 2020 1 30); LDate (d 2020 1 31);
                     LDate (d 2020 2 28); LDate (d 2020 3 31)]
                    [LStr "adjusted_close"]
                    [[Fin 100]; [Fin 110]; [Fin 121]; [Fin 121]]))
    as (out & H1 & _ & _ & _ & H5).
  - discriminate.
  - reflexivity.
  - exists out. split; [exact H1|]. apply H5; reflexivity.
Defined.

(** ** A constant price *)

Lemma pct_same p : Qeq_bool p 0 = false -> pct (Fin p) (Fin p) = Fin 0.
Proof.
  intros H. unfold pct, fdiv. rewrite H.
  assert (E : Qred (p / p) = Qred 1).
  { apply Qred_complete. unfold Qdiv. apply Qmult_inv_r.
    now apply Qeq_bool_neq. }
  rewrite E. reflexivity.
Qed.

Lemma sort_rows_Forall (P : eod_row -> Prop) rs :
  Forall P rs -> Forall P (sort_rows rs).
Proof.
  intros H. rewrite Forall_forall in *. intros r Hr. apply H.
  eapply Permutation_in; [apply sort_rows_perm|exact Hr].
Qed.

Lemma constant_column p (rs : list eod_row) :
  Forall (fun r => adjusted_close r = Fin p) rs ->
  map (fun r => [adjusted_close r]) rs = repeat [Fin p] (length rs).
Proof.
  induction rs as [|r rs IH]; intros H; simpl; [reflexivity|].
  apply Forall_cons_iff in H. destruct H as [-> H]. now rewrite IH.
Qed.

Lemma ffill_rows_constant p : forall m,
  ffill_rows [Fin p] (repeat [Fin p] m) = repeat [Fin p] m.
Proof. induction m as [|m IH]; simpl; [reflexivity|]. now rewrite IH. Qed.

Lemma pct_rows_constant p : Qeq_bool p 0 = false -> forall m,
  pct_rows [Fin p] (repeat [Fin p] m) = repeat [Fin 0] m.
Proof.
  intros Hp. induction m as [|m IH]; simpl; [reflexivity|].
  now rewrite pct_same, IH.
Qed.

Lemma filter_complete_zeros : forall (idx : list label) m,
  length idx = m ->
  map snd (filter complete (combine idx (repeat [Fin 0] m))) = repeat [Fin 0] m
  /\ length (filter complete (combine idx (repeat [Fin 0] m))) = m.
Proof.
  induction idx as [|l idx IH]; intros [|m] H; simpl in *; try discriminate; auto.
  destruct (IH m) as [E1 E2]; [lia|].
  change (complete (l, [Fin 0])) with true. simpl. now rewrite E1, E2.
Qed.

(** X7.  A series whose price never changes has zero returns: for a single
    ticker whose records all carry the same price other than zero, the
    daily returns table has one row fewer than there are records and every
    return is exactly 0. *)
Theorem constant_price_gives_zero_returns :
  forall (eod_api : string -> string -> string -> outcome (list eod_row))
         (ticker start_date end_date : string) (prices : list eod_row) (p : Q),
    eod_api (eod_ticker ticker) start_date end_date = Returned prices ->
    prices <> [] ->
    Forall (fun r => adjusted_close r = Fin p) prices ->
    Qeq_bool p 0 = false ->
    exists df_returns,
      get_returns eod_api [ticker] start_date end_date "D" = Ok df_returns
      /\ columns df_returns = [LStr ticker]
      /\ values df_returns = repeat [Fin 0] (length prices - 1)
      /\ nrows df_returns = (length prices - 1)%nat.
Proof.
  intros api ticker s e prices p Hapi Hne Hall Hp.
  rewrite get_returns_body. unfold returns_table. simpl.
  rewrite get_stock_prices_table, Hapi. unfold price_table. simpl.
  destruct prices as [|r0 rs]; [congruence|].
  set (sorted := sort_rows (r0 :: rs)).
  assert (Hlen : length sorted = S (length rs)).
  { unfold sorted. now rewrite sort_rows_length. }
  assert (Hs : Forall (fun r => adjusted_close r = Fin p) sorted)
    by now apply sort_rows_Forall.
  rewrite (constant_column p sorted Hs), Hlen.
  unfold concat_axis1. simpl. unfold returns_by_frequency. simpl.
  unfold pct_change, dropna. simpl.
  rewrite ffill_rows_constant, (pct_rows_constant p Hp).
  destruct (map (fun r => LDate (row_date r)) sorted) as [|l0 idx] eqn:Ei.
  { apply (f_equal (@length label)) in Ei. rewrite length_map, Hlen in Ei.
    discriminate. }
  assert (Li : length idx = length rs).
  { apply (f_equal (@length label)) in Ei. rewrite length_map, Hlen in Ei.
    simpl in Ei. lia. }
  simpl.
  destruct (filter_complete_zeros idx (length rs) Li) as [E1 E2].
  unfold complete in E1, E2.
  unfold set_columns. simpl.
  eexists. split; [reflexivity|]. simpl.
  rewrite Nat.sub_0_r. repeat split.
  - exact E1.
  - unfold nrows. simpl. now rewrite length_map.
Qed.

Lemma constant_price_gives_zero_returns_witness :
  exists df_returns,
    get_returns flat_api ["VUG"] "2012-01-01" "2023-02-28" "D" = Ok df_returns
    /\ columns df_returns = [LStr "VUG"]
    /\ values df_returns = [[Fin 0]; [Fin 0]].
Proof.
  destruct (constant_price_gives_zero_returns flat_api "VUG"
              "2012-01-01" "2023-02-28"
              [mkRow (d 2020 1 29) (Fin 7); mkRow (d 2020 1 30) (Fin 7);
               mkRow (d 2020 1 31) (Fin 7)] 7
              eq_refl) as (out & H1 & H2 & H3 & _).
  - discriminate.
  - repeat constructor.
  - reflexivity.
  - exists out. split; [exact H1|]. split; [exact H2|exact H3].
Defined.

(** ** The row labels of monthly returns *)

Lemma month_end_is_month_end k : is_month_end (month_end k).
Proof.
  unfold is_month_end, month_end. simpl. split; [|reflexivity].
  pose proof (Z.mod_pos_bound k 12). lia.
Qed.

Lemma month_end_increasing k k' : k < k' -> label_lt (month_end k) (month_end k').
Proof.
  intros H. unfold label_lt, month_end, date_compare. simpl.
  pose proof (Z.div_mod k 12). pose proof (Z.div_mod k' 12).
  pose proof (Z.mod_pos_bound k 12). pose proof (Z.mod_pos_bound k' 12).
  destruct (Z.compare_spec (k / 12) (k' / 12)); [|reflexivity|lia].
  destruct (Z.compare_spec (k mod 12 + 1) (k' mod 12 + 1)); [lia|reflexivity|lia].
Qed.

Lemma bins_increasing lo : forall n a,
  StronglySorted Z.lt (map (fun i => lo + Z.of_nat i) (seq a n)).
Proof.
  induction n as [|n IH]; intros a; simpl; constructor.
  - apply IH.
  - rewrite Forall_forall. intros z Hz.
    apply in_map_iff in Hz. destruct Hz as [i [<- Hi]].
    apply in_seq in Hi. lia.
Qed.

Lemma month_bins_increasing idx : StronglySorted Z.lt (month_bins idx).
Proof.
  unfold month_bins. destruct (map label_month idx); [constructor|].
  apply bins_increasing.
Qed.

Lemma StronglySorted_map {A B} (R : A -> A -> Prop) (R' : B -> B -> Prop)
  (f : A -> B) l :
  (forall x y, R x y -> R' (f x) (f y)) ->
  StronglySorted R l -> StronglySorted R' (map f l).
Proof.
  intros Hf. induction 1 as [|x l Hs IH Hx]; simpl; constructor; auto.
  rewrite Forall_forall in *. intros y Hy.
  apply in_map_iff in Hy. destruct Hy as [z [<- Hz]]. auto.
Qed.

Lemma StronglySorted_kept {A B} (R : A -> A -> Prop) (keep : A * B -> bool) :
  forall (l : list A) (l' : list B),
    StronglySorted R l ->
    StronglySorted R (map fst (filter keep (combine l l'))).
Proof.
  induction l as [|x l IH]; intros l' H; simpl; [constructor|].
  destruct l' as [|y l']; simpl; [constructor|].
  inversion H as [|? ? Hs Hx]; subst.
  destruct (keep (x, y)); simpl; [|now apply IH].
  constructor; [now apply IH|].
  rewrite Forall_forall in *. intros z Hz.
  apply in_map_iff in Hz. destruct Hz as [[z' w] [<- Hin]].
  apply filter_In in Hin. destruct Hin as [Hin _].
  apply Hx. simpl. eapply in_combine_l; eauto.
Qed.

Lemma Forall_kept {A B} (P : A -> Prop) (keep : A * B -> bool) (l : list A)
  (l' : list B) :
  Forall P l -> Forall P (map fst (filter keep (combine l l'))).
Proof.
  intros H. rewrite Forall_forall in *. intros z Hz.
  apply in_map_iff in Hz. destruct Hz as [[z' w] [<- Hin]].
  apply filter_In in Hin. destruct Hin as [Hin _].
  apply H. simpl. eapply in_combine_l; eauto.
Qed.

Lemma monthly_index api symbols names s e out :
  returns_table api symbols names s e "M" = Ok out ->
  Forall is_month_end (index out) /\ StronglySorted label_lt (index out).
Proof.
  intros H. apply returns_table_inv in H.
  destruct H as (df & table & F & R & ->).
  apply returns_by_frequency_inv in R.
  destruct R as (src & -> & [[HD _] | [_ Hm]]); [discriminate HD|].
  pose proof (resample_index df src Hm) as Hi.
  simpl. unfold dropna. simpl. rewrite Hi. split.
  - apply Forall_kept. rewrite Forall_forall. intros l Hl.
    apply in_map_iff in Hl. destruct Hl as [k [<- _]].
    apply month_end_is_month_end.
  - apply StronglySorted_kept.
    apply (StronglySorted_map Z.lt label_lt month_end).
    + apply month_end_increasing.
    + apply month_bins_increasing.
Qed.

(** X8.  The row labels of a monthly returns table, from [get_returns] or
    from [retrieve_factor_returns], are last days of calendar months, in
    strictly increasing order: no month occurs twice, whatever the order
    and the overlap of the dates the provider answered with. *)
Theorem monthly_labels_are_increasing_month_ends :
  forall (eod_api : string -> string -> string -> outcome (list eod_row))
         (tickers : list string) (factors : list (string * string))
         (start_date end_date : string) (out : DataFrame),
    (get_returns eod_api tickers start_date end_date "M" = Ok out ->
       Forall is_month_end (index out) /\ StronglySorted label_lt (index out))
    /\ (retrieve_factor_returns eod_api factors start_date end_date "M" = Ok out ->
       Forall is_month_end (index out) /\ StronglySorted label_lt (index out)).
Proof.
  intros api tickers factors s e out. split; intros H.
  - rewrite get_returns_body in H. now apply monthly_index in H.
  - rewrite retrieve_factor_returns_body in H. now apply monthly_index in H.
Qed.

Lemma monthly_labels_are_increasing_month_ends_witness :
  StronglySorted label_lt [LDate (d 2020 2 29); LDate (d 2020 3 31)].
Proof.
  exact (proj2 (proj1 (monthly_labels_are_increasing_month_ends demo_api
           ["AAA"] [] "2012-01-01" "2023-02-28"
           (mkDF [LDate (d 2020 2 29); LDate (d 2020 3 31)] [LStr "AAA"]
                 [[Fin (1 # 10)]; [Fin 0]]))
           eq_refl)).
Defined.

(** ** Degenerate batches *)

(** X9.  With a table of returns that has no column the loops do not run:
    [multiple_lin_reg] then raises [KeyError], because the empty result
    table has no row 'const' to drop, while [lasso_lars_regression] returns
    the empty table; neither looks at the design matrix. *)
Theorem batches_without_instrument :
  forall (OLS_fit : list float -> matrix -> outcome RegressionResults)
         (StandardScaler_fit : matrix -> outcome Scaler)
         (LassoLarsIC_fit : string -> bool -> matrix -> list float -> outcome float)
         (LassoLars_fit : float -> bool -> matrix -> list float -> outcome (list float))
         (h : heap) (returns factor_returns : loc) (add_const : bool)
         (r : DataFrame),
    nth_error h returns = Some (Frame r) ->
    columns r = [] ->
    multiple_lin_reg OLS_fit returns factor_returns add_const h
      = (Raise (Lib KeyError), h ++ [Frame empty_frame])
    /\ lasso_lars_regression StandardScaler_fit LassoLarsIC_fit LassoLars_fit
         returns factor_returns h
       = (Ok (length h), h ++ [Frame empty_frame]).
Proof.
  intros OLS SS IC LL h returns factor_returns add_const r Hr Hc. split.
  - unfold multiple_lin_reg, bindM, alloc, read_frame. simpl.
    rewrite (nth_error_old h _ _ _ Hr). simpl. rewrite Hc. simpl.
    unfold ret. simpl. rewrite nth_error_snoc. reflexivity.
  - unfold lasso_lars_regression, bindM, alloc, read_frame. simpl.
    rewrite (nth_error_old h _ _ _ Hr). simpl. rewrite Hc. reflexivity.
Qed.

Lemma batches_without_instrument_witness :
  fst (multiple_lin_reg zero_OLS 0%nat 1%nat true
         [Frame (mkDF demo_dates [] [[]; []; []]); Frame demo_factors])
  = Raise (Lib KeyError).
Proof.
  rewrite (proj1 (batches_without_instrument zero_OLS unit_scaler large_alpha
                    zero_LassoLars
                    [Frame (mkDF demo_dates [] [[]; []; []]); Frame demo_factors]
                    0%nat 1%nat true (mkDF demo_dates [] [[]; []; []])
                    eq_refl eq_refl)).
  reflexivity.
Defined.

Lemma getitem_head df t rest :
  columns df = t :: rest -> getitem df t = Ok (frame_column df 0).
Proof.
  intros H. unfold getitem. rewrite H. simpl. now rewrite label_eqb_refl.
Qed.

(** X10.  A design matrix without rows never reaches OLS: [linear_reg]
    raises the [ValueError] of [add_constant] (a reduction over an empty
    axis), and so does [multiple_lin_reg] as soon as there is an
    instrument. *)
Theorem design_without_rows_is_a_value_error :
  forall (OLS_fit : list float -> matrix -> outcome RegressionResults)
         (h : heap) (returns factor_returns : loc) (add_const : bool)
         (y : list float) (r f : DataFrame),
    nth_error h factor_returns = Some (Frame f) ->
    values f = [] ->
    fst (linear_reg OLS_fit y factor_returns add_const h) = Raise (Lib ValueError)
    /\ (nth_error h returns = Some (Frame r) -> columns r <> [] ->
        fst (multiple_lin_reg OLS_fit returns factor_returns add_const h)
          = Raise (Lib ValueError)).
Proof.
  intros OLS h returns factor_returns add_const y r f Hf Hv. split.
  - rewrite linear_reg_result, Hf. unfold dense_fit. now rewrite Hv.
  - intros Hr Hne.
    pose proof (multiple_lin_reg_computes OLS h returns factor_returns add_const
                  r f Hr Hf) as C.
    destruct (columns r) as [|t rest] eqn:Ec; [congruence|].
    unfold computes in C. simpl in C. unfold ols_step in C.
    rewrite (getitem_head r t rest Ec) in C. simpl in C.
    unfold dense_fit in C. rewrite Hv in C. simpl in C. exact C.
Qed.

Lemma design_without_rows_is_a_value_error_witness :
  fst (multiple_lin_reg zero_OLS 0%nat 1%nat true
         [Frame demo_funds; Frame (mkDF [] [LStr "US Growth"] [])])
  = Raise (Lib ValueError).
Proof.
  apply (proj2 (design_without_rows_is_a_value_error zero_OLS
                  [Frame demo_funds; Frame (mkDF [] [LStr "US Growth"] [])]
                  0%nat 1%nat true [] demo_funds
                  (mkDF [] [LStr "US Growth"] []) eq_refl eq_refl)).
  - reflexivity.
  - discriminate.
Defined.

(** ** More on the VIF table *)

Section VifFailures.

Variable OLS_fit : list float -> matrix -> outcome RegressionResults.

Lemma vif_list_inv exog : forall idxs vs,
  vif_list OLS_fit exog idxs = Returned vs ->
  exists lms, Forall2 (auxiliary_fit OLS_fit exog) idxs lms /\ vs = map vif_of lms.
Proof.
  induction idxs as [|i idxs IH]; intros vs H; simpl in H.
  - inversion H. exists []. split; constructor.
  - unfold variance_inflation_factor in H.
    destruct (OLS_fit (column_cells i exog) (map (remove_at i) exog))
      as [lm|e] eqn:E; [|discriminate].
    destruct (vif_list OLS_fit exog idxs) as [vs'|e] eqn:E'; [|discriminate].
    inversion H; subst vs. destruct (IH vs' eq_refl) as (lms & HF & ->).
    exists (lm :: lms). split; [now constructor|reflexivity].
Qed.

Lemma vif_list_first_failure exog : forall pre i post lms e,
  Forall2 (auxiliary_fit OLS_fit exog) pre lms ->
  OLS_fit (column_cells i exog) (map (remove_at i) exog) = Failed e ->
  vif_list OLS_fit exog (pre ++ i :: post) = Failed e.
Proof.
  induction pre as [|j pre IH]; intros i post lms e HF Hfail; simpl.
  - unfold variance_inflation_factor. now rewrite Hfail.
  - inversion HF as [|? lm ? lms' Hj Hrest]; subst.
    unfold variance_inflation_factor. unfold auxiliary_fit in Hj. rewrite Hj.
    now rewrite (IH i post lms' e Hrest Hfail).
Qed.

Lemma regression_vif_fst h X x0 :
  nth_error h X = Some (Frame x0) ->
  fst (regression_vif OLS_fit X h)
  = match vif_list OLS_fit (values (add_constant_frame x0))
            (seq 0 (ncols (add_constant_frame x0))) with
    | Returned _ => Ok (S (length h))
    | Failed e => Raise (Lib e)
    end.
Proof.
  intros Hx.
  destruct (vif_list OLS_fit (values (add_constant_frame x0))
              (seq 0 (ncols (add_constant_frame x0)))) as [vs|e] eqn:Ev.
  - destruct (vif_list_inv _ _ _ Ev) as (lms & HF & _).
    now rewrite (regression_vif_run OLS_fit h X x0 lms Hx HF).
  - unfold regression_vif, bindM, read_frame, read_mixed, alloc, lift, call,
      store, ret.
    rewrite Hx. simpl.
    set (X1 := add_constant_frame x0) in *.
    rewrite (nth_error_old (h ++ [Frame X1]) [Mixed (mkOF [] [])] _ _
               (nth_error_snoc h (Frame X1))).
    simpl. rewrite nth_error_snoc. simpl.
    rewrite update_snoc.
    rewrite (nth_error_old (h ++ [Frame X1]) _ _ _ (nth_error_snoc h (Frame X1))).
    simpl. rewrite Ev. reflexivity.
Qed.

End VifFailures.

(** X11.  [regression_vif] fails exactly through its auxiliary
    regressions: called on a table of floats, it returns if and only if the
    OLS fit of every column of the augmented matrix on the other columns
    returns; otherwise it raises the exception of the first column, in
    column order, whose fit fails. *)
Theorem vif_fails_with_its_first_regression :
  forall (OLS_fit : list float -> matrix -> outcome RegressionResults)
         (h : heap) (X : loc) (x0 : DataFrame),
    nth_error h X = Some (Frame x0) ->
    ((exists lms,
         Forall2 (auxiliary_fit OLS_fit (values (add_constant_frame x0)))
                 (seq 0 (ncols (add_constant_frame x0))) lms)
     <-> (exists l, fst (regression_vif OLS_fit X h) = Ok l))
    /\ (forall pre i post lms e,
           seq 0 (ncols (add_constant_frame x0)) = pre ++ i :: post ->
           Forall2 (auxiliary_fit OLS_fit (values (add_constant_frame x0))) pre lms ->
           OLS_fit (column_cells i (values (add_constant_frame x0)))
                   (map (remove_at i) (values (add_constant_frame x0)))
             = Failed e ->
           fst (regression_vif OLS_fit X h) = Raise (Lib e)).
Proof.
  intros OLS h X x0 Hx. split; [split|].
  - intros [lms HF]. exists (S (length h)).
    now rewrite (regression_vif_run OLS h X x0 lms Hx HF).
  - intros [l Hl]. rewrite (regression_vif_fst OLS h X x0 Hx) in Hl.
    destruct (vif_list OLS (values (add_constant_frame x0))
                (seq 0 (ncols (add_constant_frame x0)))) as [vs|e] eqn:Ev;
      [|discriminate].
    destruct (vif_list_inv OLS _ _ _ Ev) as (lms & HF & _). eauto.
  - intros pre i post lms e Hseq HF Hfail.
    rewrite (regression_vif_fst OLS h X x0 Hx), Hseq.
    now rewrite (vif_list_first_failure OLS _ pre i post lms e HF Hfail).
Qed.

Lemma vif_fails_with_its_first_regression_witness :
  nth_error demo_heap 2%nat = Some (Frame demo_funds_gap)
  /\ fst (regression_vif zero_OLS 2%nat demo_heap) = Raise (Lib LinAlgError).
Proof.
  split; [reflexivity|].
  apply (proj2 (vif_fails_with_its_first_regression zero_OLS demo_heap 2%nat
                  demo_funds_gap eq_refl)
               [] 0%nat [1%nat; 2%nat] [] LinAlgError).
  - reflexivity.
  - constructor.
  - reflexivity.
Defined.

Lemma vif_of_range lm r2 :
  rsquared lm = Fin r2 -> (0 <= r2)%Q -> (r2 < 1)%Q ->
  exists v, vif_of lm = Fin v /\ (1 <= v)%Q.
Proof.
  intros Hr H0 H1. unfold vif_of. rewrite Hr.
  set (z := Qred (1 + Qred (- r2))).
  assert (Hz : (z == 1 - r2)%Q).
  { unfold z. rewrite !Qred_correct. reflexivity. }
  assert (Hzpos : (0 < z)%Q).
  { rewrite Hz. unfold Qminus. rewrite <- (Qplus_opp_r r2).
    apply Qplus_lt_l. exact H1. }
  assert (Hzle : (z <= 1)%Q).
  { rewrite Hz. unfold Qminus. rewrite <- (Qplus_0_r 1) at 2.
    apply Qplus_le_r. apply (Qopp_le_compat 0 r2) in H0. exact H0. }
  assert (Hz0 : Qeq_bool z 0 = false).
  { destruct (Qeq_bool z 0) eqn:E; [|reflexivity].
    apply Qeq_bool_iff in E. rewrite E in Hzpos.
    now apply Qlt_irrefl in Hzpos. }
  change (exists v, fdiv (Fin 1) (Fin z) = Fin v /\ (1 <= v)%Q).
  unfold fdiv. rewrite Hz0.
  exists (Qred (1 / z)). split; [reflexivity|].
  rewrite Qred_correct. apply Qle_shift_div_l; [exact Hzpos|].
  now rewrite Qmult_1_l.
Qed.

Lemma vif_list_range lms :
  Forall (fun lm => exists r2, rsquared lm = Fin r2 /\ (0 <= r2)%Q /\ (r2 < 1)%Q)
         lms ->
  exists vs, map vif_of lms = map Fin vs /\ Forall (fun v => (1 <= v)%Q) vs.
Proof.
  induction 1 as [|lm lms (r2 & Hr & H0 & H1) _ (vs & E & Hvs)].
  - exists []. split; constructor.
  - destruct (vif_of_range lm r2 Hr H0 H1) as (v & Ev & Hv).
    exists (v :: vs). simpl. rewrite Ev, E. split; [reflexivity|now constructor].
Qed.

Lemma nth_error_second (h : heap) a b :
  nth_error (h ++ [a; b]) (S (length h)) = Some b.
Proof.
  change (h ++ [a; b]) with (h ++ [a] ++ [b]). rewrite app_assoc.
  replace (S (length h)) with (length (h ++ [a])) by (rewrite length_app; simpl; lia).
  apply nth_error_snoc.
Qed.

(** X12.  The VIF reported for a column is a finite number not below 1
    whenever the R2 of its auxiliary regression lies in [0, 1): the table
    returned then holds, under 'VIF', such a number for every column. *)
Theorem vif_is_at_least_one :
  forall (OLS_fit : list float -> matrix -> outcome RegressionResults)
         (h : heap) (X : loc) (x0 : DataFrame) (lms : list RegressionResults),
    nth_error h X = Some (Frame x0) ->
    Forall2 (auxiliary_fit OLS_fit (values (add_constant_frame x0)))
            (seq 0 (ncols (add_constant_frame x0))) lms ->
    Forall (fun lm => exists r2,
                rsquared lm = Fin r2 /\ (0 <= r2)%Q /\ (r2 < 1)%Q) lms ->
    exists vs,
      fst (regression_vif OLS_fit X h) = Ok (S (length h))
      /\ nth_error (snd (regression_vif OLS_fit X h)) (S (length h))
         = Some (Mixed (mkOF (range_index (ncols (add_constant_frame x0)))
                             [(LStr "variables",
                               map CLabel (columns (add_constant_frame x0)));
                              (LStr "VIF", map CNum (map Fin vs))]))
      /\ length vs = ncols (add_constant_frame x0)
      /\ Forall (fun v => (1 <= v)%Q) vs.
Proof.
  intros OLS h X x0 lms Hx HF Hrange.
  destruct (vif_list_range lms Hrange) as (vs & E & Hvs).
  exists vs. rewrite (regression_vif_run OLS h X x0 lms Hx HF). cbn [fst snd].
  split; [reflexivity|]. split.
  - rewrite nth_error_second, E. reflexivity.
  - split; [|exact Hvs].
    apply Forall2_length in HF. rewrite length_seq in HF.
    apply (f_equal (@length float)) in E. rewrite !length_map in E. lia.
Qed.

Lemma vif_is_at_least_one_witness :
  exists vs,
    fst (regression_vif zero_OLS 1%nat demo_heap) = Ok 6%nat
    /\ length vs = 3%nat /\ Forall (fun v => (1 <= v)%Q) vs.
Proof.
  destruct (vif_is_at_least_one zero_OLS demo_heap 1%nat demo_factors
              (repeat (mkResults [(LStr "const", Fin 0); (LStr "x1", Fin 0)] (Fin 0))
                      3)
              eq_refl) as (vs & H1 & _ & H3 & H4).
  - repeat constructor.
  - repeat constructor; exists 0%Q; repeat split; discriminate.
  - exists vs. auto.
Defined.

Lemma fold_fmax_ones : forall n, fold_left fmax (repeat fone n) fone = fone.
Proof. induction n as [|n IH]; simpl; [reflexivity|exact IH]. Qed.

Lemma fold_fmin_ones : forall n, fold_left fmin (repeat fone n) fone = fone.
Proof. induction n as [|n IH]; simpl; [reflexivity|exact IH]. Qed.

Lemma ones_column (rows : matrix) :
  column_cells 0 (map (cons fone) rows) = repeat fone (length rows).
Proof.
  unfold column_cells. rewrite map_map. simpl.
  induction rows as [|r rows IH]; simpl; [reflexivity|]. now rewrite IH.
Qed.

Lemma ones_are_constant n : (0 < n)%nat -> safe_is_const (repeat fone n) = true.
Proof.
  destruct n as [|n]; [lia|]. intros _. unfold safe_is_const, ptp. simpl.
  now rewrite fold_fmax_ones, fold_fmin_ones.
Qed.

Lemma add_constant_frame_idempotent x0 :
  values x0 <> [] ->
  add_constant_frame (add_constant_frame x0) = add_constant_frame x0.
Proof.
  intros Hv. unfold add_constant_frame at 2.
  destruct (existsb _ (seq 0 (ncols x0))) eqn:E.
  - unfold add_constant_frame. now rewrite E.
  - unfold add_constant_frame.
    assert (E1 : existsb
                   (fun j => safe_is_const
                               (frame_column
                                  (mkDF (index x0) (LStr "const" :: columns x0)
                                        (map (cons fone) (values x0))) j))
                   (seq 0 (ncols (mkDF (index x0) (LStr "const" :: columns x0)
                                       (map (cons fone) (values x0))))) = true).
    { apply existsb_exists. exists 0%nat. split.
      - apply in_seq. unfold ncols. simpl. lia.
      - unfold frame_column. simpl values. rewrite ones_column.
        apply ones_are_constant. destruct (values x0); simpl; [congruence|lia]. }
    rewrite E1, E. reflexivity.
Qed.

(** X13.  Passing [regression_vif] a design that already went through
    [add_constant] changes nothing: for a design with at least one row, the
    call on the augmented table does exactly what the call on the design
    does (same outcome, same new objects), so the constant is never counted
    twice. *)
Theorem vif_of_an_augmented_design :
  forall (OLS_fit : list float -> matrix -> outcome RegressionResults)
         (h : heap) (X X' : loc) (x0 : DataFrame),
    nth_error h X = Some (Frame x0) ->
    nth_error h X' = Some (Frame (add_constant_frame x0)) ->
    values x0 <> [] ->
    regression_vif OLS_fit X' h = regression_vif OLS_fit X h.
Proof.
  intros OLS h X X' x0 Hx Hx' Hv.
  unfold regression_vif, bindM, read_frame.
  rewrite Hx, Hx'. simpl.
  now rewrite (add_constant_frame_idempotent x0 Hv).
Qed.

Lemma vif_of_an_augmented_design_witness :
  regression_vif zero_OLS 5%nat
    (demo_heap ++ [Frame (add_constant_frame demo_factors)])
  = regression_vif zero_OLS 1%nat
      (demo_heap ++ [Frame (add_constant_frame demo_factors)]).
Proof.
  apply (vif_of_an_augmented_design zero_OLS
           (demo_heap ++ [Frame (add_constant_frame demo_factors)])
           1%nat 5%nat demo_factors).
  - reflexivity.
  - reflexivity.
  - discriminate.
Defined.

(** ** Shape of the result tables *)

Lemma rectangular_concat a b c :
  rectangular a -> rectangular b -> concat_axis1 a b = Ok c -> rectangular c.
Proof.
  intros [Hla Hwa] [Hlb Hwb] H. unfold concat_axis1 in H.
  destruct (is_empty a); [inversion H; subst; now split|].
  destruct (is_empty b); [inversion H; subst; now split|].
  destruct (labels_eqb (index a) (index b)) eqn:El.
  - inversion H; subst c. clear H. apply labels_eqb_length in El.
    split; simpl.
    + unfold nrows in *. simpl. rewrite length_map, length_combine. lia.
    + unfold ncols. simpl. apply Forall_forall. intros row Hrow.
      apply in_map_iff in Hrow. destruct Hrow as [[ra rb] [<- Hin]]. simpl.
      rewrite !length_app. rewrite Forall_forall in Hwa, Hwb.
      rewrite (Hwa ra (in_combine_l _ _ _ _ Hin)).
      now rewrite (Hwb rb (in_combine_r _ _ _ _ Hin)).
  - destruct (has_duplicates (index a) || has_duplicates (index b));
      [discriminate|].
    inversion H; subst c. clear H. split; simpl.
    + unfold nrows. simpl. now rewrite length_map.
    + unfold ncols at 1. simpl. apply Forall_forall. intros row Hrow.
      apply in_map_iff in Hrow. destruct Hrow as [l [<- _]].
      rewrite !length_app. now rewrite !lookup_row_length.
Qed.

Lemma rectangular_empty : rectangular empty_frame.
Proof. split; simpl; auto. Qed.

Lemma rectangular_series s : rectangular (series_frame s).
Proof.
  split; simpl.
  - unfold nrows. simpl. now rewrite !length_map.
  - apply Forall_forall. intros row Hrow.
    apply in_map_iff in Hrow. now destruct Hrow as [? [<- _]].
Qed.

Lemma rectangular_drop_rows df name df' :
  rectangular df -> drop_rows df name = Ok df' -> rectangular df'.
Proof.
  intros [Hl Hw] H. unfold drop_rows in H.
  destruct (mem_label name (index df)); [|discriminate].
  inversion H; subst df'. clear H. split; simpl.
  - unfold nrows. simpl. now rewrite !length_map.
  - unfold ncols. simpl. rewrite Forall_forall in *. intros row Hrow.
    apply in_map_iff in Hrow. destruct Hrow as [[l r'] [<- Hin]].
    apply filter_In in Hin. destruct Hin as [Hin _].
    apply Hw. simpl. eapply in_combine_r; eauto.
Qed.

Lemma rectangular_finish r f T T' :
  rectangular T -> ols_finish r f T = Ok T' ->
  rectangular T' /\ nrows T' = ncols f /\ ncols T' = ncols r.
Proof.
  intros HT H. unfold ols_finish in H.
  destruct (drop_rows T (LStr "const")) as [dr|e] eqn:Ed; simpl in H;
    [|discriminate].
  destruct (rectangular_drop_rows T _ dr HT Ed) as [Hl Hw].
  unfold set_index in H.
  destruct (Nat.eqb (length (columns f)) (nrows dr)) eqn:E1; simpl in H;
    [|discriminate].
  unfold set_columns in H. simpl in H. unfold ncols at 1 in H. simpl in H.
  destruct (Nat.eqb (length (columns r)) (length (columns dr))) eqn:E2;
    [|discriminate].
  apply Nat.eqb_eq in E1, E2. inversion H; subst T'. clear H.
  unfold rectangular, nrows, ncols in *. simpl. repeat split; auto.
  - lia.
  - now rewrite E2.
Qed.

Lemma rectangular_coef_table idx tickers cs :
  length cs = length tickers -> rectangular (coef_table idx tickers cs).
Proof.
  intros L. unfold coef_table.
  destruct tickers as [|t tickers]; [apply rectangular_empty|].
  split; simpl.
  - unfold nrows. simpl. now rewrite length_map, length_seq.
  - unfold ncols. simpl. apply Forall_forall. intros row Hrow.
    apply in_map_iff in Hrow. destruct Hrow as [i [<- _]].
    now rewrite length_map.
Qed.

Section ResultShapes.

Variable OLS_fit : list float -> matrix -> outcome RegressionResults.

Lemma rectangular_ols_table r f : forall tickers T T',
  rectangular T -> ols_table OLS_fit r f tickers T = Ok T' -> rectangular T'.
Proof.
  induction tickers as [|t rest IH]; intros T T' HT H; simpl in H.
  - now inversion H; subst.
  - destruct (ols_step OLS_fit r f T t) as [T1|e] eqn:E; simpl in H;
      [|discriminate].
    apply (IH T1 T'); auto.
    unfold ols_step in E.
    destruct (getitem r t) as [y|e]; simpl in E; [|discriminate].
    destruct (dense_fit OLS_fit (values f) y) as [lm|e]; simpl in E;
      [|discriminate].
    exact (rectangular_concat T (series_frame (params lm)) T1 HT
             (rectangular_series _) E).
Qed.

End ResultShapes.

(** X14.  A result table is rectangular with one row per factor and one
    cell per instrument in every row: this holds for every table
    [multiple_lin_reg] returns, whatever names and however many parameters
    the OLS fits report (a mismatch raises instead), and for every table
    [lasso_lars_regression] returns for at least one instrument. *)
Theorem result_tables_are_factor_by_instrument :
  forall (OLS_fit : list float -> matrix -> outcome RegressionResults)
         (StandardScaler_fit : matrix -> outcome Scaler)
         (LassoLarsIC_fit : string -> bool -> matrix -> list float -> outcome float)
         (LassoLars_fit : float -> bool -> matrix -> list float -> outcome (list float))
         (h : heap) (returns factor_returns : loc) (add_const : bool)
         (r f : DataFrame),
    nth_error h returns = Some (Frame r) ->
    nth_error h factor_returns = Some (Frame f) ->
    (forall l,
        fst (multiple_lin_reg OLS_fit returns factor_returns add_const h) = Ok l ->
        exists T,
          nth_error (snd (multiple_lin_reg OLS_fit returns factor_returns
                            add_const h)) l = Some (Frame T)
          /\ rectangular T /\ nrows T = ncols f /\ ncols T = ncols r)
    /\ (forall l,
        columns r <> [] ->
        fst (lasso_lars_regression StandardScaler_fit LassoLarsIC_fit
               LassoLars_fit returns factor_returns h) = Ok l ->
        exists T,
          nth_error (snd (lasso_lars_regression StandardScaler_fit
                            LassoLarsIC_fit LassoLars_fit returns
                            factor_returns h)) l = Some (Frame T)
          /\ rectangular T /\ nrows T = ncols f /\ ncols T = ncols r).
Proof.
  intros OLS SS IC LL h returns factor_returns add_const r f Hr Hf. split.
  - intros l Hl.
    pose proof (multiple_lin_reg_computes OLS h returns factor_returns add_const
                  r f Hr Hf) as C.
    unfold computes in C.
    destruct (ols_table OLS r f (columns r) empty_frame) as [T0|e0] eqn:E0;
      simpl in C; [|rewrite Hl in C; discriminate].
    destruct (ols_finish r f T0) as [T|e1] eqn:E1;
      [|rewrite Hl in C; discriminate].
    destruct C as [l' [El HT]]. rewrite Hl in El. inversion El; subst l'.
    exists T. split; [exact HT|].
    apply (rectangular_finish r f T0 T); auto.
    apply (rectangular_ols_table OLS r f (columns r) empty_frame T0); auto.
    apply rectangular_empty.
  - intros l Hne Hl.
    pose proof (lasso_lars_regression_computes SS IC LL h returns factor_returns
                  r f Hr Hf) as C.
    unfold computes in C.
    destruct (lasso_table SS IC LL r f (columns r) empty_frame) as [T|e0] eqn:E0;
      [|rewrite Hl in C; discriminate].
    destruct C as [l' [El HT]]. rewrite Hl in El. inversion El; subst l'.
    exists T. split; [exact HT|].
    destruct (lasso_table_inv SS IC LL r f (columns r) [] [] T eq_refl E0)
      as (cs & HF & ->).
    simpl. split.
    + apply rectangular_coef_table. symmetry. now apply Forall2_length in HF.
    + unfold coef_table.
      destruct (columns r) as [|t ts] eqn:Ec; [congruence|].
      split; [reflexivity|]. unfold ncols. simpl. now rewrite Ec.
Qed.

Lemma result_tables_are_factor_by_instrument_witness :
  exists T,
    nth_error (snd (multiple_lin_reg zero_OLS 0%nat 1%nat true demo_heap)) 9%nat
      = Some (Frame T)
    /\ rectangular T /\ nrows T = 2%nat /\ ncols T = 2%nat.
Proof.
  apply (proj1 (result_tables_are_factor_by_instrument zero_OLS unit_scaler
                  large_alpha zero_LassoLars demo_heap 0%nat 1%nat true
                  demo_funds demo_factors eq_refl eq_refl) 9%nat).
  reflexivity.
Defined.


(** ** The script *)

Lemma label_lt_leb a b : label_lt a b -> label_leb a b = true.
Proof.
  destruct a, b; simpl; try contradiction.
  unfold date_leb. now intros ->.
Qed.

Lemma date_leb_lt_trans a b c :
  date_leb a b = true -> date_compare b c = Lt -> date_leb a c = true.
Proof.
  unfold date_leb, date_compare.
  destruct (Z.compare_spec (year a) (year b));
    destruct (Z.compare_spec (year b) (year c));
    destruct (Z.compare_spec (year a) (year c));
    try lia; try discriminate; try reflexivity;
    destruct (Z.compare_spec (month a) (month b));
    destruct (Z.compare_spec (month b) (month c));
    destruct (Z.compare_spec (month a) (month c));
    try lia; try discriminate; try reflexivity;
    destruct (Z.compare_spec (day a) (day b));
    destruct (Z.compare_spec (day b) (day c));
    destruct (Z.compare_spec (day a) (day c));
    try lia; try discriminate; try reflexivity.
Qed.

Lemma label_leb_lt_trans s x y :
  label_leb s x = true -> label_lt x y -> label_leb s y = true.
Proof.
  destruct x, y; simpl; try contradiction.
  destruct s; simpl; try reflexivity.
  apply date_leb_lt_trans.
Qed.

Lemma sorted_is_monotonic idx :
  StronglySorted label_lt idx -> is_monotonic_increasing idx = true.
Proof.
  induction 1 as [|a rest Hs IH Ha]; [reflexivity|].
  simpl. destruct rest as [|b rest]; [reflexivity|].
  inversion Ha; subst. rewrite label_lt_leb by assumption. exact IH.
Qed.

Lemma rows_from_filter start : forall rows,
  StronglySorted label_lt (map fst rows) ->
  rows_from start rows = filter (fun lr => label_leb start (fst lr)) rows.
Proof.
  induction rows as [|lr rows IH]; intros H; simpl; [reflexivity|].
  inversion H as [|? ? Hs Ha]; subst.
  destruct (label_leb start (fst lr)) eqn:E.
  - f_equal. symmetry. apply filter_all. apply forallb_forall.
    intros lr' Hin. rewrite Forall_forall in Ha.
    apply (label_leb_lt_trans start (fst lr)); [exact E|].
    apply Ha. now apply in_map.
  - now apply IH.
Qed.

Lemma map_fst_combine {A B} : forall (l : list A) (l' : list B),
  length l = length l' -> map fst (combine l l') = l.
Proof.
  induction l as [|a l IH]; intros [|b l'] H; simpl in *; try discriminate; auto.
  f_equal. apply IH. lia.
Qed.

Lemma loc_from_sorted df start :
  StronglySorted label_lt (index df) ->
  length (values df) = nrows df ->
  exists T,
    loc_from df start = Ok T
    /\ columns T = columns df
    /\ labelled_rows T
       = filter (fun lr => label_leb start (fst lr)) (labelled_rows df).
Proof.
  intros Hs Hl. unfold loc_from. rewrite (sorted_is_monotonic _ Hs).
  eexists. split; [reflexivity|]. split; [reflexivity|].
  unfold labelled_rows. simpl. rewrite combine_fst_snd.
  apply rows_from_filter. rewrite map_fst_combine; auto.
Qed.

Section ScriptFacts.

Variable eod_api : string -> string -> string -> outcome (list eod_row).
Variable OLS_fit : list float -> matrix -> outcome RegressionResults.
Variable StandardScaler_fit : matrix -> outcome Scaler.
Variable LassoLarsIC_fit : string -> bool -> matrix -> list float -> outcome float.
Variable LassoLars_fit : float -> bool -> matrix -> list float
                         -> outcome (list float).
Variable summary : RegressionResults -> outcome unit.

Lemma nth_error_third (h : heap) a b c :
  nth_error (h ++ [a; b; c]) (S (S (length h))) = Some c.
Proof.
  change (h ++ [a; b; c]) with (h ++ [a; b] ++ [c]). rewrite app_assoc.
  replace (S (S (length h))) with (length (h ++ [a; b]))
    by (rewrite length_app; simpl; lia).
  apply nth_error_snoc.
Qed.

Lemma prepare_runs h funds factors :
  get_returns eod_api factor_analysis.tickers factor_analysis.start_date
    factor_analysis.end_date "M" = Ok funds ->
  retrieve_factor_returns eod_api factor_analysis.factors_dict
    factor_analysis.start_date factor_analysis.end_date "M" = Ok factors ->
  factor_analysis.prepare eod_api h
  = match hd_error (index factors) with
    | None => (Stopped IndexError, h ++ [Frame funds; Frame factors])
    | Some first =>
        match loc_from funds first with
        | Ok T => (Done (S (S (length h)), S (length h)),
                   h ++ [Frame funds; Frame factors; Frame T])
        | Raise e => (Stopped (Raised e), h ++ [Frame funds; Frame factors])
        end
    end.
Proof.
  intros Hfu Hfa.
  assert (N1 : nth_error (h ++ [Frame funds; Frame factors]) (length h)
               = Some (Frame funds)).
  { change (h ++ [Frame funds; Frame factors])
      with (h ++ [Frame funds] ++ [Frame factors]).
    rewrite app_assoc. apply nth_error_old. apply nth_error_snoc. }
  unfold factor_analysis.prepare, bindS, run, lift, alloc, read_frame, positional.
  rewrite Hfu. simpl. rewrite Hfa. simpl.
  rewrite length_app. simpl. rewrite Nat.add_1_r.
  rewrite <- !app_assoc. simpl.
  change (match h ++ [Frame funds; Frame factors] with
          | [] => None
          | _ :: l' => nth_error l' (length h)
          end)
    with (nth_error (h ++ [Frame funds; Frame factors]) (S (length h))).
  rewrite nth_error_second.
  destruct (hd_error (index factors)) as [first|]; [|reflexivity].
  rewrite N1.
  destruct (loc_from funds first) as [T|e]; [|reflexivity].
  rewrite length_app. simpl.
  replace (length h + 2)%nat with (S (S (length h))) by lia.
  rewrite <- !app_assoc. reflexivity.
Qed.

End ScriptFacts.

Lemma bindS_index_error {A B} (m : Script A) (f : A -> Script B) h :
  fst (bindS m f h) = Stopped IndexError ->
  fst (m h) = Stopped IndexError
  \/ exists a h', m h = (Done a, h') /\ fst (f a h') = Stopped IndexError.
Proof.
  unfold bindS. destruct (m h) as [[a|e] h'] eqn:E; simpl; intros H.
  - right. eauto.
  - left. inversion H. reflexivity.
Qed.

Lemma run_index_error {A} (m : M A) h : fst (run m h) <> Stopped IndexError.
Proof. unfold run. destruct (m h) as [[a|e] h']; simpl; discriminate. Qed.

Lemma run_done {A} (m : M A) h a h' : run m h = (Done a, h') -> m h = (Ok a, h').
Proof.
  unfold run. destruct (m h) as [[a0|e] h0]; intros H; inversion H; reflexivity.
Qed.

Lemma never_run {A} (m : M A) : never_index_error (run m).
Proof. intros h. apply run_index_error. Qed.

Lemma never_bind {A B} (m : Script A) (f : A -> Script B) :
  never_index_error m -> (forall a, never_index_error (f a)) ->
  never_index_error (bindS m f).
Proof.
  intros Hm Hf h H. apply bindS_index_error in H.
  destruct H as [H | (a & h' & _ & H)]; [now apply (Hm h)|now apply (Hf a h')].
Qed.

Lemma truncation_rows api h funds factors first :
  get_returns api factor_analysis.tickers factor_analysis.start_date
    factor_analysis.end_date "M" = Ok funds ->
  retrieve_factor_returns api factor_analysis.factors_dict
    factor_analysis.start_date factor_analysis.end_date "M" = Ok factors ->
  hd_error (index factors) = Some first ->
  exists T,
    factor_analysis.prepare api h
    = (Done (S (S (length h)), S (length h)),
       h ++ [Frame funds; Frame factors; Frame T])
    /\ columns T = map LStr factor_analysis.tickers.
Proof.
  intros Hfu Hfa Hfirst.
  pose proof Hfu as Hfu'. rewrite get_returns_body in Hfu'.
  destruct (monthly_index _ _ _ _ _ _ Hfu') as [_ Hsorted].
  destruct (returns_table_complete _ _ _ _ _ _ _ Hfu') as (Hcols & Hlen & _).
  destruct (loc_from_sorted funds first Hsorted Hlen) as (T & HT & HcT & Hrows).
  exists T. split.
  - rewrite (prepare_runs api h funds factors Hfu Hfa), Hfirst, HT. reflexivity.
  - now rewrite HcT.
Qed.

(** X15.  The truncation [df_funds.loc[df_factors.index[0]:]] of the
    script never fails once the factor table has a row: the monthly index
    of the funds is sorted, so the rows kept are exactly those dated on or
    after the first factor date, under the fund names; the two tables
    retrieved stay as they are, the truncated table is a new object. *)
Theorem truncation_keeps_rows_from_first_factor_date :
  forall (eod_api : string -> string -> string -> outcome (list eod_row))
         (h : heap) (funds factors : DataFrame) (first : label),
    get_returns eod_api factor_analysis.tickers factor_analysis.start_date
      factor_analysis.end_date "M" = Ok funds ->
    retrieve_factor_returns eod_api factor_analysis.factors_dict
      factor_analysis.start_date factor_analysis.end_date "M" = Ok factors ->
    hd_error (index factors) = Some first ->
    exists T,
      factor_analysis.prepare eod_api h
      = (Done (S (S (length h)), S (length h)),
         h ++ [Frame funds; Frame factors; Frame T])
      /\ columns T = map LStr factor_analysis.tickers
      /\ labelled_rows T
         = filter (fun lr => label_leb first (fst lr)) (labelled_rows funds).
Proof.
  intros api h funds factors first Hfu Hfa Hfirst.
  pose proof Hfu as Hfu'. rewrite get_returns_body in Hfu'.
  destruct (monthly_index _ _ _ _ _ _ Hfu') as [_ Hsorted].
  destruct (returns_table_complete _ _ _ _ _ _ _ Hfu') as (Hcols & Hlen & _).
  destruct (loc_from_sorted funds first Hsorted Hlen) as (T & HT & HcT & Hrows).
  exists T. split.
  - rewrite (prepare_runs api h funds factors Hfu Hfa), Hfirst, HT. reflexivity.
  - split; [now rewrite HcT|exact Hrows].
Qed.

Lemma truncation_keeps_rows_from_first_factor_date_witness :
  exists T,
    factor_analysis.prepare three_months_api []
    = (Done (2%nat, 1%nat),
       [Frame three_months_funds; Frame three_months_factors; Frame T])
    /\ columns T = map LStr factor_analysis.tickers.
Proof.
  destruct (truncation_keeps_rows_from_first_factor_date three_months_api []
              three_months_funds three_months_factors (LDate (d 2020 2 29))
              eq_refl eq_refl eq_refl) as (T & H1 & H2 & _).
  exists T. split; [exact H1|exact H2].
Defined.

(** X16.  Once both retrievals have returned, the script stops with
    [IndexError] exactly when the factor table has no row: then
    [df_factors.index[0]] fails before any estimator has run; otherwise no
    positional access fails ([iloc[:, 3]] finds the fourth of the four fund
    columns), and whatever stops the script is an exception of one of its
    functions. *)
Theorem script_index_error_iff_no_factor_row :
  forall (eod_api : string -> string -> string -> outcome (list eod_row))
         (OLS_fit : list float -> matrix -> outcome RegressionResults)
         (StandardScaler_fit : matrix -> outcome Scaler)
         (LassoLarsIC_fit : string -> bool -> matrix -> list float -> outcome float)
         (LassoLars_fit : float -> bool -> matrix -> list float -> outcome (list float))
         (summary : RegressionResults -> outcome unit)
         (h : heap) (funds factors : DataFrame),
    get_returns eod_api factor_analysis.tickers factor_analysis.start_date
      factor_analysis.end_date "M" = Ok funds ->
    retrieve_factor_returns eod_api factor_analysis.factors_dict
      factor_analysis.start_date factor_analysis.end_date "M" = Ok factors ->
    (index factors = [] ->
       factor_analysis.script eod_api OLS_fit StandardScaler_fit LassoLarsIC_fit
         LassoLars_fit summary h
       = (Stopped IndexError, h ++ [Frame funds; Frame factors]))
    /\ (fst (factor_analysis.script eod_api OLS_fit StandardScaler_fit
               LassoLarsIC_fit LassoLars_fit summary h) = Stopped IndexError ->
        index factors = []).
Proof.
  intros api OLS SS IC LL summary h funds factors Hfu Hfa. split.
  - intros Hi. unfold factor_analysis.script, bindS.
    rewrite (prepare_runs api h funds factors Hfu Hfa), Hi. reflexivity.
  - intros H. destruct (index factors) as [|first rest] eqn:Ei; [reflexivity|].
    exfalso.
    destruct (truncation_rows api h funds factors first Hfu Hfa)
      as (T & Hp & HcT).
    { now rewrite Ei. }
    unfold factor_analysis.script in H.
    apply bindS_index_error in H. rewrite Hp in H.
    destruct H as [H | (tables & h3 & Ht & H)]; [discriminate H|].
    inversion Ht; subst tables h3. clear Ht. cbn [fst snd] in H.
    apply bindS_index_error in H.
    destruct H as [H | (vif & h4 & Hv & H)]; [now apply run_index_error in H|].
    apply run_done in Hv.
    destruct (new_regression_vif OLS
                (h ++ [Frame funds; Frame factors; Frame T]) (S (length h))
                (h ++ [Frame funds; Frame factors; Frame T])
                (extends_refl _)) as [Hext _].
    rewrite Hv in Hext. simpl in Hext.
    apply bindS_index_error in H.
    destruct H as [H | (cur & h5 & Hc & H)]; [now apply run_index_error in H|].
    apply run_done in Hc. unfold read_frame in Hc.
    rewrite (extends_old _ h4 _ _ Hext (nth_error_third h _ _ (Frame T))) in Hc.
    inversion Hc; subst cur h5. clear Hc.
    apply bindS_index_error in H.
    assert (Hy : iloc_column T 3 = Some (frame_column T 3)).
    { unfold iloc_column, ncols. now rewrite HcT. }
    unfold positional at 1 2 in H. rewrite Hy in H.
    destruct H as [H | (y & h6 & Hd & H)]; [discriminate H|].
    revert H. apply never_bind; [apply never_run|]. intros lin_reg.
    apply never_bind; [apply never_run|]. intros _u.
    apply never_bind; [apply never_run|]. intros simple.
    apply never_bind; [apply never_run|]. intros results.
    intros h7. simpl. discriminate.
Qed.

Lemma script_index_error_iff_no_factor_row_witness :
  factor_analysis.script one_day_api zero_OLS unit_scaler large_alpha
    zero_LassoLars plain_summary []
  = (Stopped IndexError, [Frame one_day_funds; Frame one_day_factors]).
Proof.
  apply (proj1 (script_index_error_iff_no_factor_row one_day_api zero_OLS
                  unit_scaler large_alpha zero_LassoLars plain_summary []
                  one_day_funds one_day_factors eq_refl eq_refl)).
  reflexivity.
Defined.

(** ** The two returns functions are one *)

Lemma returns_table_rename api symbols names1 names2 s e frequency :
  length names1 = length names2 ->
  match returns_table api symbols names1 s e frequency with
  | Ok a =>
      returns_table api symbols names2 s e frequency
      = Ok (mkDF (index a) (map LStr names2) (values a))
  | Raise err => returns_table api symbols names2 s e frequency = Raise err
  end.
Proof.
  intros L. unfold returns_table.
  destruct (fetch_prices api symbols s e empty_frame) as [df|e1]; simpl;
    [|reflexivity].
  destruct (returns_by_frequency frequency df) as [[t|]|e2]; simpl;
    try reflexivity.
  unfold set_columns. rewrite !length_map, L.
  destruct (Nat.eqb (length names2) (ncols t)); reflexivity.
Qed.

(** X17.  [retrieve_factor_returns(factors, ...)] is
    [get_returns(list(factors.values()), ...)] with the columns renamed to
    the keys: the two fail alike, and when they return, the row labels and
    the cells are the same. *)
Theorem factor_returns_are_renamed_returns :
  forall (eod_api : string -> string -> string -> outcome (list eod_row))
         (factors : list (string * string))
         (start_date end_date frequency : string),
    match get_returns eod_api (map snd factors) start_date end_date frequency with
    | Ok a =>
        retrieve_factor_returns eod_api factors start_date end_date frequency
        = Ok (mkDF (index a) (map LStr (map fst factors)) (values a))
    | Raise err =>
        retrieve_factor_returns eod_api factors start_date end_date frequency
        = Raise err
    end.
Proof.
  intros api factors s e frequency.
  rewrite get_returns_body, retrieve_factor_returns_body.
  apply returns_table_rename. now rewrite !length_map.
Qed.

(** ** Instruments do not influence each other *)

Lemma Forall2_nth_error {A B} (P : A -> B -> Prop) : forall l l' j a,
  Forall2 P l l' -> nth_error l j = Some a ->
  exists b, nth_error l' j = Some b /\ P a b.
Proof.
  induction l as [|x l IH]; intros l' j a HF Hj; [destruct j; discriminate|].
  inversion HF; subst. destruct j as [|j]; simpl in *.
  - inversion Hj; subst. eauto.
  - eapply IH; eauto.
Qed.

Lemma nth_map_nth (cs : list (list float)) j i c :
  nth_error cs j = Some c ->
  nth j (map (fun c0 => nth i c0 NaN) cs) NaN = nth i c NaN.
Proof.
  revert j. induction cs as [|c0 cs IH]; intros [|j] H; simpl in *;
    try discriminate.
  - now inversion H.
  - now apply IH.
Qed.

Lemma coef_table_column idx tickers cs j t c :
  nth_error tickers j = Some t -> nth_error cs j = Some c ->
  length c = length idx ->
  frame_column (coef_table idx tickers cs) j = c.
Proof.
  intros Ht Hc L. unfold coef_table.
  destruct tickers as [|t0 ts]; [destruct j; discriminate|].
  unfold frame_column, column_cells. simpl. rewrite map_map.
  transitivity (map (fun i => nth i c NaN) (seq 0 (length c)));
    [|apply list_as_nth].
  rewrite L. apply map_ext. intros i. now apply nth_map_nth.
Qed.

(** X18.  In [lasso_lars_regression] the coefficients reported for an
    instrument depend on the design matrix and on that instrument's own
    returns only: two batches over the same design, in which an instrument
    has the same returns, report the same column for it, whatever the other
    instruments are and wherever it stands. *)
Theorem lasso_columns_are_independent :
  forall (StandardScaler_fit : matrix -> outcome Scaler)
         (LassoLarsIC_fit : string -> bool -> matrix -> list float -> outcome float)
         (LassoLars_fit : float -> bool -> matrix -> list float -> outcome (list float))
         (h : heap) (returns returns' factor_returns : loc)
         (r r' f : DataFrame) (ticker : label) (j j' : nat) (y : list float)
         (l l' : loc) (T T' : DataFrame),
    nth_error h returns = Some (Frame r) ->
    nth_error h returns' = Some (Frame r') ->
    nth_error h factor_returns = Some (Frame f) ->
    nth_error (columns r) j = Some ticker ->
    nth_error (columns r') j' = Some ticker ->
    getitem r ticker = Ok y ->
    getitem r' ticker = Ok y ->
    fst (lasso_lars_regression StandardScaler_fit LassoLarsIC_fit LassoLars_fit
           returns factor_returns h) = Ok l ->
    nth_error (snd (lasso_lars_regression StandardScaler_fit LassoLarsIC_fit
                      LassoLars_fit returns factor_returns h)) l
      = Some (Frame T) ->
    fst (lasso_lars_regression StandardScaler_fit LassoLarsIC_fit LassoLars_fit
           returns' factor_returns h) = Ok l' ->
    nth_error (snd (lasso_lars_regression StandardScaler_fit LassoLarsIC_fit
                      LassoLars_fit returns' factor_returns h)) l'
      = Some (Frame T') ->
    frame_column T j = frame_column T' j'.
Proof.
  intros SS IC LL h returns returns' factor_returns r r' f ticker j j' y
    l l' T T' Hr Hr' Hf Hj Hj' Hy Hy' Hl HT Hl' HT'.
  assert (column_of : forall ret rr jj ll TT,
             nth_error h ret = Some (Frame rr) ->
             nth_error (columns rr) jj = Some ticker ->
             getitem rr ticker = Ok y ->
             fst (lasso_lars_regression SS IC LL ret factor_returns h) = Ok ll ->
             nth_error (snd (lasso_lars_regression SS IC LL ret factor_returns h)) ll
               = Some (Frame TT) ->
             exists c, sparse_fit SS IC LL (values f) y = Returned c
                       /\ frame_column TT jj = c).
  { intros ret rr jj ll TT Hrr Hjj Hyy Hll HTT.
    pose proof (lasso_lars_regression_computes SS IC LL h ret factor_returns
                  rr f Hrr Hf) as C.
    unfold computes in C.
    destruct (lasso_table SS IC LL rr f (columns rr) empty_frame) as [T0|e0] eqn:E0;
      [|rewrite Hll in C; discriminate].
    destruct C as [l0 [El HT0]]. rewrite Hll in El. inversion El; subst l0.
    rewrite HTT in HT0. inversion HT0; subst T0.
    destruct (lasso_table_inv SS IC LL rr f (columns rr) [] [] TT eq_refl E0)
      as (cs & HF & ->).
    destruct (Forall2_nth_error _ _ _ _ _ HF Hjj) as (c & Hc & y0 & Hy0 & Hfit & Hlen).
    rewrite Hyy in Hy0. inversion Hy0; subst y0.
    exists c. split; [now apply sparse_fit_two_phase|].
    simpl. now apply (coef_table_column (columns f) (columns rr) cs jj ticker c). }
  destruct (column_of returns r j l T Hr Hj Hy Hl HT) as (c & Hc & ->).
  destruct (column_of returns' r' j' l' T' Hr' Hj' Hy' Hl' HT') as (c' & Hc' & ->).
  rewrite Hc in Hc'. now inversion Hc'.
Qed.

Lemma lasso_columns_are_independent_witness :
  frame_column (mkDF [LStr "US Growth"; LStr "US Value"]
                     [LStr "QIACX"; LStr "VTSAX"]
                     [[Fin 0; Fin 0]; [Fin 0; Fin 0]]) 0
  = frame_column (mkDF [LStr "US Growth"; LStr "US Value"] [LStr "QIACX"]
                       [[Fin 0]; [Fin 0]]) 0.
Proof.
  apply (lasso_columns_are_independent unit_scaler large_alpha zero_LassoLars
           (demo_heap ++ [Frame (mkDF demo_dates [LStr "QIACX"]
                                      [[q 1 100]; [q (-1) 100]; [q 2 100]])])
           0%nat 5%nat 1%nat demo_funds
           (mkDF demo_dates [LStr "QIACX"] [[q 1 100]; [q (-1) 100]; [q 2 100]])
           demo_factors (LStr "QIACX") 0%nat 0%nat (frame_column demo_funds 0)
           12%nat 9%nat);
    reflexivity.
Defined.

(** * Names and data, from the inputs to the result tables *)

(** ** Joining one-column tables *)

Lemma label_eqb_eq a b : label_eqb a b = true -> a = b.
Proof.
  destruct a as [s|n|x], b as [t|m|y]; simpl; try discriminate.
  - intros H. apply String.eqb_eq in H. now subst.
  - intros H. apply Z.eqb_eq in H. now subst.
  - unfold date_eqb, date_compare.
    destruct x as [y1 m1 d1], y as [y2 m2 d2]; simpl.
    destruct (Z.compare_spec y1 y2); try discriminate.
    destruct (Z.compare_spec m1 m2); try discriminate.
    destruct (Z.compare_spec d1 d2); try discriminate.
    intros _. now subst.
Qed.

Lemma labels_eqb_eq : forall a b, labels_eqb a b = true -> a = b.
Proof.
  induction a as [|x a IH]; intros [|y b]; simpl; try discriminate; auto.
  intros H. apply andb_true_iff in H. destruct H as [H1 H2].
  apply label_eqb_eq in H1. subst. f_equal. now apply IH.
Qed.

Lemma mem_label_In l ls : mem_label l ls = true <-> In l ls.
Proof.
  unfold mem_label. rewrite existsb_exists. split.
  - intros [x [Hin Heq]]. apply label_eqb_eq in Heq. now subst.
  - intros H. exists l. split; [exact H|apply label_eqb_refl].
Qed.

Lemma insert_label_In x l : forall s, In x (insert_label l s) <-> x = l \/ In x s.
Proof.
  induction s as [|k s IH]; simpl.
  - intuition.
  - destruct (label_leb l k); simpl; [intuition|].
    rewrite IH. intuition.
Qed.

Lemma sort_labels_In x : forall ls, In x (sort_labels ls) <-> In x ls.
Proof.
  induction ls as [|l ls IH]; simpl; [reflexivity|].
  unfold sort_labels in *. simpl. rewrite insert_label_In, IH. intuition.
Qed.

Lemma union_index_In x a b : In x (union_index a b) <-> In x a \/ In x b.
Proof.
  unfold union_index.
  assert (U : In x (a ++ filter (fun l => negb (mem_label l a)) b)
              <-> In x a \/ In x b).
  { rewrite in_app_iff, filter_In. split.
    - intuition.
    - intros [H|H]; [now left|].
      destruct (mem_label x a) eqn:E.
      + left. now apply mem_label_In.
      + right. split; [exact H|]. cbv beta. try rewrite E. reflexivity. }
  destruct (forallb is_date a && forallb is_date b); [rewrite sort_labels_In|];
    exact U.
Qed.

Lemma lookup_row_found l w : forall idx rows,
  length idx = length rows ->
  (exists i, nth_error idx i = Some l
             /\ nth_error rows i = Some (lookup_row l idx rows w))
  \/ (~ In l idx /\ lookup_row l idx rows w = repeat NaN w).
Proof.
  induction idx as [|k idx IH]; intros [|r rows] L; simpl in *; try discriminate.
  - right. split; auto.
  - destruct (label_eqb l k) eqn:E.
    + left. exists 0%nat. apply label_eqb_eq in E. subst. split; reflexivity.
    + destruct (IH rows) as [[i [H1 H2]]|[H1 H2]]; [lia| |].
      * left. exists (S i). split; assumption.
      * right. split; [|exact H2]. intros [->|H]; [|contradiction].
        rewrite label_eqb_refl in E. discriminate.
Qed.

Lemma nth_error_In_combine {A B} : forall (l1 : list A) (l2 : list B) i x y,
  nth_error l1 i = Some x -> nth_error l2 i = Some y -> In (x, y) (combine l1 l2).
Proof.
  induction l1 as [|a l1 IH]; intros [|b l2] [|i] x y H1 H2; simpl in *;
    try discriminate.
  - inversion H1; inversion H2. now left.
  - right. eapply IH; eauto.
Qed.

Lemma Forall2_from_combine {A B} (P : A -> B -> Prop) :
  forall (l1 : list A) (l2 : list B),
    length l1 = length l2 ->
    (forall x y, In (x, y) (combine l1 l2) -> P x y) ->
    Forall2 P l1 l2.
Proof.
  induction l1 as [|a l1 IH]; intros [|b l2] L H; simpl in *; try discriminate.
  - constructor.
  - constructor; [apply H; now left|]. apply IH; [lia|].
    intros x y Hin. apply H. now right.
Qed.

Lemma Forall2_map_same {A B} (P : A -> B -> Prop) (g : A -> B) :
  forall l, (forall x, In x l -> P x (g x)) -> Forall2 P l (map g l).
Proof.
  induction l as [|a l IH]; intros H; simpl; constructor.
  - apply H. now left.
  - apply IH. intros x Hx. apply H. now right.
Qed.

Lemma column_zip_left n k : forall (va vb : matrix),
  Forall (fun r => length r = n) va -> length va = length vb -> (k < n)%nat ->
  column_cells k (map (fun rr => fst rr ++ snd rr) (combine va vb))
  = column_cells k va.
Proof.
  induction va as [|ra va IH]; intros [|rb vb] W L Hk; simpl in *;
    try discriminate; [reflexivity|].
  apply Forall_cons_iff in W. destruct W as [Hr W].
  rewrite app_nth1 by lia. f_equal. apply IH; auto.
Qed.

Lemma column_zip_right n : forall (va vb : matrix),
  Forall (fun r => length r = n) va -> length va = length vb ->
  column_cells n (map (fun rr => fst rr ++ snd rr) (combine va vb))
  = column_cells 0 vb.
Proof.
  induction va as [|ra va IH]; intros [|rb vb] W L; simpl in *;
    try discriminate; [reflexivity|].
  apply Forall_cons_iff in W. destruct W as [Hr W].
  rewrite app_nth2 by lia. rewrite Hr, Nat.sub_diag. f_equal. apply IH; auto.
Qed.

Lemma self_aligned b :
  rectangular b -> Forall2 (cell_of b) (index b) (frame_column b 0).
Proof.
  intros [Hr _]. apply Forall2_from_combine.
  - unfold frame_column, column_cells. rewrite length_map. unfold nrows in Hr. lia.
  - intros l v Hin. now left.
Qed.

Lemma concat_axis1_ncols a b c :
  ncols b = 1%nat -> concat_axis1 a b = Ok c ->
  ncols c = (ncols a + 1)%nat.
Proof.
  intros Hb. unfold concat_axis1.
  destruct (is_empty a) eqn:Ea.
  - intros H. inversion H; subst c. unfold is_empty in Ea.
    apply Nat.eqb_eq in Ea. lia.
  - assert (Eb : is_empty b = false).
    { unfold is_empty. apply Nat.eqb_neq. lia. }
    rewrite Eb.
    destruct (labels_eqb (index a) (index b)).
    + intros H. inversion H. unfold ncols. simpl. rewrite length_app.
      unfold ncols in Hb. lia.
    + destruct (has_duplicates (index a) || has_duplicates (index b));
        [discriminate|].
      intros H. inversion H. unfold ncols. simpl. rewrite length_app.
      unfold ncols in Hb. lia.
Qed.

(** One more column: the columns already there stay aligned with their
    tables, and the new column is aligned with the table joined. *)
Lemma concat_axis1_aligned a b c ts :
  rectangular a -> rectangular b -> ncols b = 1%nat -> ncols a = length ts ->
  (forall k t, nth_error ts k = Some t -> aligned a k t) ->
  concat_axis1 a b = Ok c ->
  forall k t, nth_error (ts ++ [b]) k = Some t -> aligned c k t.
Proof.
  intros Ra Rb Nb Na A H k t Hk.
  assert (Hcase : (k < length ts)%nat /\ nth_error ts k = Some t
                  \/ k = length ts /\ t = b).
  { destruct (Nat.lt_ge_cases k (length ts)) as [L|L].
    - left. split; [exact L|]. now rewrite nth_error_app1 in Hk.
    - right. rewrite nth_error_app2 in Hk by lia.
      destruct (k - length ts)%nat as [|m] eqn:E; simpl in Hk.
      + inversion Hk. split; [lia|reflexivity].
      + destruct m; discriminate. }
  destruct Ra as [Ra1 Ra2]. pose proof Rb as [Rb1 Rb2].
  unfold concat_axis1 in H.
  destruct (is_empty a) eqn:Ea.
  { inversion H; subst c. unfold is_empty in Ea. apply Nat.eqb_eq in Ea.
    destruct Hcase as [[L _]|[-> ->]]; [lia|].
    assert (E0 : length ts = 0%nat) by lia. rewrite E0.
    split; [apply incl_refl|now apply self_aligned]. }
  assert (Eb : is_empty b = false).
  { unfold is_empty. apply Nat.eqb_neq. lia. }
  rewrite Eb in H.
  destruct (labels_eqb (index a) (index b)) eqn:El.
  { apply labels_eqb_eq in El. inversion H; subst c. clear H.
    assert (Lv : length (values a) = length (values b)).
    { unfold nrows in *. rewrite Ra1, Rb1, El. reflexivity. }
    destruct Hcase as [[L Ht]|[-> ->]].
    - destruct (A k t Ht) as [Hi Hc]. split; [exact Hi|].
      unfold frame_column in *. simpl.
      rewrite (column_zip_left (ncols a) k); auto. lia.
    - split; [simpl; rewrite El; apply incl_refl|].
      unfold frame_column. simpl. rewrite <- Na.
      rewrite (column_zip_right (ncols a)); auto.
      rewrite El. now apply self_aligned. }
  destruct (has_duplicates (index a) || has_duplicates (index b));
    [discriminate|].
  inversion H; subst c. clear H.
  set (idx := union_index (index a) (index b)).
  assert (La : forall l, length (lookup_row l (index a) (values a) (ncols a))
                         = ncols a).
  { intros l. now apply lookup_row_length. }
  destruct Hcase as [[L Ht]|[-> ->]].
  - destruct (A k t Ht) as [Hi Hc]. split.
    + simpl. intros l Hl. apply union_index_In. left. now apply Hi.
    + unfold frame_column, column_cells. simpl. rewrite map_map.
      apply Forall2_map_same. intros l _.
      rewrite app_nth1 by (rewrite La; lia).
      destruct (lookup_row_found l (ncols a) (index a) (values a))
        as [[i [H1 H2]]|[H1 H2]].
      * unfold nrows in Ra1. lia.
      * destruct (Forall2_nth_error _ _ _ i l Hc H1) as (v & Hv & Hcell).
        unfold frame_column, column_cells in Hv.
        rewrite nth_error_map, H2 in Hv. simpl in Hv. inversion Hv; subst v.
        exact Hcell.
      * rewrite H2. rewrite nth_repeat. right. split; [|reflexivity].
        intros Hin. apply H1. now apply Hi.
  - split.
    + simpl. intros l Hl. apply union_index_In. now right.
    + unfold frame_column, column_cells. simpl. rewrite map_map.
      apply Forall2_map_same. intros l _.
      rewrite app_nth2 by (rewrite La; lia).
      rewrite La, <- Na, Nat.sub_diag.
      destruct (lookup_row_found l (ncols b) (index b) (values b))
        as [[i [H1 H2]]|[H1 H2]].
      * unfold nrows in Rb1. lia.
      * left. apply (nth_error_In_combine _ _ i); [exact H1|].
        unfold frame_column, column_cells. rewrite nth_error_map, H2.
        reflexivity.
      * rewrite H2. rewrite nth_repeat. right. split; [exact H1|reflexivity].
Qed.

Lemma wf_rectangular n df : wf_prices n df -> rectangular df /\ ncols df = n.
Proof.
  intros [Hc Hr Hw Hd Hn]. split; [|exact Hc]. split; [exact Hr|].
  now rewrite Hc.
Qed.

Section PricesAligned.

Variable eod_api : string -> string -> string -> outcome (list eod_row).

(** The price table built by the loop holds, in column [k], the series of
    the [k]-th symbol. *)
Lemma fetch_prices_aligned s e : forall symbols ts0 df0 df,
  rectangular df0 -> ncols df0 = length ts0 ->
  (forall k t, nth_error ts0 k = Some t -> aligned df0 k t) ->
  fetch_prices eod_api symbols s e df0 = Ok df ->
  exists ts,
    Forall2 (fun symbol t => get_stock_prices eod_api symbol s e = Ok t)
            symbols ts
    /\ forall k t, nth_error (ts0 ++ ts) k = Some t -> aligned df k t.
Proof.
  induction symbols as [|symbol rest IH]; intros ts0 df0 df R N A H; simpl in H.
  - inversion H; subst. exists []. split; [constructor|]. now rewrite app_nil_r.
  - destruct (get_stock_prices eod_api symbol s e) as [t|err] eqn:Et;
      simpl in H; [|discriminate].
    destruct (concat_axis1 df0 t) as [df1|err] eqn:Ec; simpl in H;
      [|discriminate].
    destruct (wf_rectangular 1 t (get_stock_prices_wf eod_api symbol s e t Et))
      as [Rt Nt].
    destruct (IH (ts0 ++ [t]) df1 df) as (ts & HF & HA).
    + exact (rectangular_concat df0 t df1 R Rt Ec).
    + rewrite (concat_axis1_ncols df0 t df1 Nt Ec), length_app, N. reflexivity.
    + now apply (concat_axis1_aligned df0 t df1 ts0).
    + exact H.
    + exists (t :: ts). split; [now constructor|].
      intros k t' Hk. apply HA. rewrite <- app_assoc. exact Hk.
Qed.

Lemma fetch_prices_columns s e symbols df :
  fetch_prices eod_api symbols s e empty_frame = Ok df ->
  forall k symbol, nth_error symbols k = Some symbol ->
    exists t, get_stock_prices eod_api symbol s e = Ok t /\ aligned df k t.
Proof.
  intros H k symbol Hk.
  destruct (fetch_prices_aligned s e symbols [] empty_frame df) as (ts & HF & HA).
  - apply rectangular_empty.
  - reflexivity.
  - intros j t Hj. destruct j; discriminate.
  - exact H.
  - destruct (Forall2_nth_error _ _ _ k symbol HF Hk) as (t & Ht & Hget).
    exists t. split; [exact Hget|]. now apply HA.
Qed.

End PricesAligned.

(** ** Returns and monthly prices, column by column *)

Lemma nth_map_combine {A B C} (f : A * B -> C) (da : A) (db : B) (dc : C) :
  forall (l1 : list A) (l2 : list B) k,
    (k < length l1)%nat -> (k < length l2)%nat ->
    nth k (map f (combine l1 l2)) dc = f (nth k l1 da, nth k l2 db).
Proof.
  induction l1 as [|a l1 IH]; intros [|b l2] [|k] H1 H2; simpl in *; try lia.
  - reflexivity.
  - apply IH; lia.
Qed.

Lemma ffill_rows_column n k : forall rows prev,
  length prev = n -> Forall (fun r => length r = n) rows -> (k < n)%nat ->
  column_cells k (ffill_rows prev rows)
  = pad_from (nth k prev NaN) (column_cells k rows).
Proof.
  induction rows as [|r rows IH]; intros prev Lp W Hk; simpl; [reflexivity|].
  apply Forall_cons_iff in W. destruct W as [Lr W].
  set (r' := map (fun xp => if isnan (fst xp) then snd xp else fst xp)
                 (combine r prev)).
  assert (E : nth k r' NaN
              = if isnan (nth k r NaN) then nth k prev NaN else nth k r NaN).
  { unfold r'. rewrite (nth_map_combine _ NaN NaN NaN) by lia. reflexivity. }
  assert (Lr' : length r' = n).
  { unfold r'. rewrite length_map, length_combine. lia. }
  rewrite E. f_equal. rewrite (IH r' Lr' W Hk). now rewrite E.
Qed.

Lemma ffill_column n k rows :
  Forall (fun r => length r = n) rows -> (k < n)%nat ->
  column_cells k (ffill rows) = pad_column (column_cells k rows).
Proof.
  destruct rows as [|r rows]; simpl; intros W Hk; [reflexivity|].
  apply Forall_cons_iff in W. destruct W as [Lr W].
  f_equal. now apply (ffill_rows_column n).
Qed.

Lemma pct_rows_column n k : forall rows prev,
  length prev = n -> Forall (fun r => length r = n) rows -> (k < n)%nat ->
  column_cells k (pct_rows prev rows)
  = pct_from (nth k prev NaN) (column_cells k rows).
Proof.
  induction rows as [|r rows IH]; intros prev Lp W Hk; simpl; [reflexivity|].
  apply Forall_cons_iff in W. destruct W as [Lr W].
  rewrite (nth_map_combine _ NaN NaN NaN) by lia.
  f_equal. now apply IH.
Qed.

(** [pct_change] works column by column. *)
Lemma pct_change_column df k :
  Forall (fun r => length r = ncols df) (values df) -> (k < ncols df)%nat ->
  frame_column (pct_change df) k = pct_column (frame_column df k).
Proof.
  intros W Hk. unfold frame_column, pct_change, pct_column. simpl.
  rewrite (pct_rows_column (ncols df) k).
  - rewrite nth_repeat. now rewrite (ffill_column (ncols df) k).
  - apply repeat_length.
  - now apply ffill_width.
  - exact Hk.
Qed.

Lemma rows_in_month_column k bin : forall idx rows,
  column_cells k (rows_in_month bin idx rows)
  = map snd (filter (fun lv => Z.eqb (label_month (fst lv)) bin)
                    (combine idx (column_cells k rows))).
Proof.
  unfold rows_in_month.
  induction idx as [|l idx IH]; intros [|r rows]; simpl; try reflexivity.
  destruct (Z.eqb (label_month l) bin); simpl; [f_equal|]; apply IH.
Qed.

Lemma nth_map_seq {A} (f : nat -> A) (d : A) n k :
  (k < n)%nat -> nth k (map f (seq 0 n)) d = f k.
Proof.
  intros H. rewrite (nth_indep _ d (f 0%nat)) by (rewrite length_map, length_seq; lia).
  rewrite map_nth. now rewrite seq_nth.
Qed.

(** [resample('M').last()] works column by column. *)
Lemma resample_column df monthly k :
  resample_M_last df = Ok monthly -> (k < ncols df)%nat ->
  frame_column monthly k = monthly_last_column (index df) (frame_column df k).
Proof.
  unfold resample_M_last. destruct (is_datetime_index (index df)); [|discriminate].
  intros H Hk. inversion H; subst monthly. clear H.
  unfold frame_column, monthly_last_column. simpl.
  unfold column_cells at 1. rewrite map_map. apply map_ext. intros bin.
  rewrite (nth_map_seq _ NaN (ncols df) k Hk).
  now rewrite rows_in_month_column.
Qed.

(** ** The table of [multiple_lin_reg] when the fits agree on the names *)

Lemma filter_other_labels c : forall names (rows : matrix),
  mem_label c names = false ->
  filter (fun lr => negb (label_eqb c (fst lr))) (combine names rows)
  = combine names rows.
Proof.
  induction names as [|k names IH]; intros [|r rows] H; simpl in *;
    try reflexivity.
  apply orb_false_iff in H. destruct H as [H1 H2].
  rewrite H1. simpl. f_equal. now apply IH.
Qed.

Lemma map_snd_combine {A B} : forall (l : list A) (l' : list B),
  length l = length l' -> map snd (combine l l') = l'.
Proof.
  induction l as [|a l IH]; intros [|b l'] H; simpl in *; try discriminate; auto.
  f_equal. apply IH. lia.
Qed.

Section NamedFits.

Variable OLS_fit : list float -> matrix -> outcome RegressionResults.

Lemma ols_step_named r f ticker lm names done cs_done :
  length done = length cs_done ->
  dense_fitted_as OLS_fit r f names ticker lm ->
  ols_step OLS_fit r f (coef_table names done cs_done) ticker
  = Ok (coef_table names (done ++ [LInt 0]) (cs_done ++ [map snd (params lm)])).
Proof.
  intros L (y & Hy & Hfit & Hn). unfold ols_step. rewrite Hy. simpl.
  rewrite Hfit. simpl. unfold series_frame. rewrite Hn.
  replace (map (fun lv => [snd lv]) (params lm))
    with (map (fun v => [v]) (map snd (params lm))) by (now rewrite map_map).
  apply coef_table_snoc; [exact L|]. rewrite <- Hn. now rewrite !length_map.
Qed.

Lemma ols_table_named r f names : forall tickers lms done cs_done,
  length done = length cs_done ->
  Forall2 (dense_fitted_as OLS_fit r f names) tickers lms ->
  ols_table OLS_fit r f tickers (coef_table names done cs_done)
  = Ok (coef_table names (done ++ repeat (LInt 0) (length tickers))
                   (cs_done ++ map (fun lm => map snd (params lm)) lms)).
Proof.
  induction tickers as [|ticker tickers IH]; intros lms done cs_done L HF;
    inversion HF as [|? lm ? lms' Hlm Hrest]; subst; simpl.
  - now rewrite !app_nil_r.
  - rewrite (ols_step_named r f ticker lm names done cs_done L Hlm). simpl.
    rewrite (IH lms' (done ++ [LInt 0]) (cs_done ++ [map snd (params lm)])).
    + now rewrite <- !app_assoc.
    + rewrite !length_app. simpl. lia.
    + exact Hrest.
Qed.

Lemma ols_finish_named r f names cs :
  columns r <> [] -> mem_label (LStr "const") names = false ->
  length names = ncols f ->
  ols_finish r f (coef_table (LStr "const" :: names)
                             (repeat (LInt 0) (length (columns r))) cs)
  = Ok (coef_table (columns f) (columns r) (map (@tl float) cs)).
Proof.
  intros Hne Hc Ln. unfold ols_finish, coef_table.
  destruct (columns r) as [|t0 ts] eqn:Ec; [congruence|].
  cbn [length repeat]. unfold drop_rows.
  cbn [index values columns mem_label existsb label_eqb].
  rewrite String.eqb_refl. cbn [orb].
  cbn [seq map combine filter fst label_eqb]. rewrite String.eqb_refl.
  cbn [negb].
  rewrite (filter_other_labels (LStr "const") names _ Hc).
  cbn [bind]. unfold set_index, nrows. cbn [index columns values].
  rewrite map_fst_combine by (now rewrite length_map, length_seq).
  rewrite map_snd_combine by (now rewrite length_map, length_seq).
  unfold ncols in Ln. rewrite Ln, Nat.eqb_refl. cbn [bind].
  unfold set_columns, ncols. cbn [index columns values length].
  rewrite repeat_length, Nat.eqb_refl.
  f_equal. f_equal. rewrite <- seq_shift, map_map. apply map_ext. intros i.
  rewrite map_map. apply map_ext. intros c. destruct c; destruct i; reflexivity.
Qed.

Lemma multiple_lin_reg_named h returns factor_returns add_const r f names lms :
  nth_error h returns = Some (Frame r) ->
  nth_error h factor_returns = Some (Frame f) ->
  columns r <> [] -> mem_label (LStr "const") names = false ->
  length names = ncols f ->
  Forall2 (dense_fitted_as OLS_fit r f (LStr "const" :: names)) (columns r) lms ->
  exists l,
    fst (multiple_lin_reg OLS_fit returns factor_returns add_const h) = Ok l
    /\ nth_error (snd (multiple_lin_reg OLS_fit returns factor_returns
                         add_const h)) l
       = Some (Frame (coef_table (columns f) (columns r) (map slopes lms))).
Proof.
  intros Hr Hf Hne Hc Ln HF.
  pose proof (multiple_lin_reg_computes OLS_fit h returns factor_returns
                add_const r f Hr Hf) as C.
  change empty_frame with (coef_table (LStr "const" :: names) [] []) in C.
  rewrite (ols_table_named r f (LStr "const" :: names) (columns r) lms [] []
             eq_refl HF) in C.
  cbn [app bind] in C.
  rewrite (ols_finish_named r f names _ Hne Hc Ln) in C.
  rewrite map_map in C. exact C.
Qed.

End NamedFits.

(** ** Names *)

(** C7.  Names stay with their data from the inputs to the result tables.
    The table of [retrieve_factor_returns] has the keys of the factor
    mapping as column names, in insertion order, and its column [k] comes
    from the series of the [k]-th ticker alone: column [k] of the joined
    price table is that series aligned on the union of the dates, monthly
    prices and returns are computed column by column, and the rows kept are
    the complete ones.  The table of [multiple_lin_reg] and, when there is
    an instrument, the table of [lasso_lars_regression] have the column
    names of the design as row labels, in that order, and the instrument
    names as column labels; the column of an instrument holds the
    coefficients of the fit of that instrument's own returns, one per
    factor in the column order of the design. *)
Theorem names_are_preserved :
  forall (eod_api : string -> string -> string -> outcome (list eod_row))
         (OLS_fit : list float -> matrix -> outcome RegressionResults)
         (StandardScaler_fit : matrix -> outcome Scaler)
         (LassoLarsIC_fit : string -> bool -> matrix -> list float -> outcome float)
         (LassoLars_fit : float -> bool -> matrix -> list float -> outcome (list float))
         (factors : list (string * string)) (start_date end_date : string)
         (h : heap) (returns factor_returns : loc) (add_const : bool)
         (r f : DataFrame),
    nth_error h returns = Some (Frame r) ->
    nth_error h factor_returns = Some (Frame f) ->
    has_duplicates (columns r) = false ->
    (forall frequency out,
        retrieve_factor_returns eod_api factors start_date end_date frequency
          = Ok out ->
        columns out = map LStr (map fst factors))
    /\ (forall df_prices,
        factors <> [] ->
        fetch_prices eod_api (map snd factors) start_date end_date empty_frame
          = Ok df_prices ->
        (forall k name ticker,
            nth_error factors k = Some (name, ticker) ->
            exists t,
              get_stock_prices eod_api ticker start_date end_date = Ok t
              /\ aligned df_prices k t
              /\ frame_column (pct_change df_prices) k
                 = pct_column (frame_column df_prices k))
        /\ (exists out,
              retrieve_factor_returns eod_api factors start_date end_date "D"
                = Ok out
              /\ columns out = map LStr (map fst factors)
              /\ labelled_rows out = filter complete (tl (returns_rows df_prices)))
        /\ (exists monthly out,
              resample_M_last df_prices = Ok monthly
              /\ retrieve_factor_returns eod_api factors start_date end_date "M"
                 = Ok out
              /\ columns out = map LStr (map fst factors)
              /\ labelled_rows out = filter complete (tl (returns_rows monthly))
              /\ forall k, (k < length factors)%nat ->
                   frame_column monthly k
                   = monthly_last_column (index df_prices)
                                         (frame_column df_prices k)
                   /\ frame_column (pct_change monthly) k
                      = pct_column (frame_column monthly k)))
    /\ (forall l,
        fst (multiple_lin_reg OLS_fit returns factor_returns add_const h) = Ok l ->
        exists T,
          nth_error (snd (multiple_lin_reg OLS_fit returns factor_returns
                            add_const h)) l = Some (Frame T)
          /\ index T = columns f /\ columns T = columns r)
    /\ (forall names lms,
        columns r <> [] ->
        mem_label (LStr "const") names = false ->
        length names = ncols f ->
        Forall2 (dense_fitted_as OLS_fit r f (LStr "const" :: names))
                (columns r) lms ->
        exists l,
          fst (multiple_lin_reg OLS_fit returns factor_returns add_const h) = Ok l
          /\ nth_error (snd (multiple_lin_reg OLS_fit returns factor_returns
                               add_const h)) l
             = Some (Frame (coef_table (columns f) (columns r)
                                       (map slopes lms))))
    /\ (forall l,
        columns r <> [] ->
        fst (lasso_lars_regression StandardScaler_fit LassoLarsIC_fit
               LassoLars_fit returns factor_returns h) = Ok l ->
        exists T cs,
          nth_error (snd (lasso_lars_regression StandardScaler_fit
                            LassoLarsIC_fit LassoLars_fit returns
                            factor_returns h)) l = Some (Frame T)
          /\ index T = columns f /\ columns T = columns r
          /\ Forall2 (sparse_fitted StandardScaler_fit LassoLarsIC_fit
                        LassoLars_fit r f) (columns r) cs
          /\ T = coef_table (columns f) (columns r) cs)
    /\ (forall cs,
        Forall2 (sparse_fitted StandardScaler_fit LassoLarsIC_fit
                   LassoLars_fit r f) (columns r) cs ->
        exists l,
          fst (lasso_lars_regression StandardScaler_fit LassoLarsIC_fit
                 LassoLars_fit returns factor_returns h) = Ok l
          /\ nth_error (snd (lasso_lars_regression StandardScaler_fit
                               LassoLarsIC_fit LassoLars_fit returns
                               factor_returns h)) l
             = Some (Frame (coef_table (columns f) (columns r) cs)))
    /\ (forall cs i ticker c,
        nth_error (columns r) i = Some ticker -> nth_error cs i = Some c ->
        length c = ncols f ->
        frame_column (coef_table (columns f) (columns r) cs) i = c).
Proof.
  intros api OLS SS IC LL factors s e h returns factor_returns
    add_const r f Hr Hf _.
  split; [|split; [|split; [|split; [|split; [|split]]]]].
  - intros frequency out H. rewrite retrieve_factor_returns_body in H.
    now apply returns_table_columns in H.
  - intros df Hne F.
    pose proof (fetch_prices_shape api s e (map snd factors) df F) as W.
    rewrite length_map in W.
    assert (Hpos : (0 < length factors)%nat).
    { destruct factors; simpl; [congruence|lia]. }
    assert (Hsym : map snd factors <> []).
    { destruct factors; simpl; [congruence|discriminate]. }
    assert (L : length (map fst factors) = length (map snd factors))
      by now rewrite !length_map.
    split; [|split].
    + intros k name ticker Hk.
      assert (Hk' : nth_error (map snd factors) k = Some ticker).
      { rewrite nth_error_map, Hk. reflexivity. }
      destruct (fetch_prices_columns api s e _ df F k ticker Hk')
        as (t & Ht & Ha).
      exists t. split; [exact Ht|]. split; [exact Ha|].
      destruct W as [Hc _ Hw _ _].
      apply pct_change_column; rewrite Hc; [exact Hw|].
      apply nth_error_Some. congruence.
    + destruct (returns_table_daily api (map snd factors) (map fst factors)
                  s e df L Hsym F) as (out & Hout & Hc & Hrows & _).
      exists out. rewrite retrieve_factor_returns_body. auto.
    + assert (R : resample_M_last df
                  = Ok (mkDF (map month_end (month_bins (index df))) (columns df)
                          (map (fun k =>
                                  let grp := rows_in_month k (index df) (values df) in
                                  map (fun j => last_valid (column_cells j grp))
                                      (seq 0 (ncols df)))
                               (month_bins (index df))))).
      { unfold resample_M_last.
        destruct W as [_ _ _ Hd Hn]. specialize (Hn Hpos).
        unfold is_datetime_index. destruct (index df); [congruence|].
        now rewrite Hd. }
      destruct (returns_table_monthly api (map snd factors) (map fst factors)
                  s e df _ L F R) as (out & Hout & Hnames & Hrows & _).
      eexists. exists out. split; [exact R|].
      rewrite retrieve_factor_returns_body.
      split; [exact Hout|]. split; [exact Hnames|]. split; [exact Hrows|].
      intros k Hk. split.
      * apply (resample_column df _ k R). destruct W as [Hcols _ _ _ _]. lia.
      * pose proof (resample_wf _ df _ W R) as [Hcm _ Hwm _ _].
        apply pct_change_column; rewrite Hcm; [exact Hwm|exact Hk].
  - intros l Hl.
    pose proof (multiple_lin_reg_computes OLS h returns factor_returns add_const
                  r f Hr Hf) as C.
    unfold computes in C.
    destruct (T <- ols_table OLS r f (columns r) empty_frame ;; ols_finish r f T)
      as [T'|e'] eqn:E.
    + destruct C as [l' [El HT]]. rewrite Hl in El. inversion El; subst l'.
      exists T'. split; [exact HT|].
      destruct (ols_table OLS r f (columns r) empty_frame) as [T|e1];
        simpl in E; [|discriminate].
      now apply ols_finish_names in E.
    + rewrite Hl in C. discriminate.
  - intros names lms Hne Hc Ln HF.
    now apply (multiple_lin_reg_named OLS h returns factor_returns add_const
                 r f names lms).
  - intros l Hne Hl.
    pose proof (lasso_lars_regression_computes SS IC LL h returns factor_returns
                  r f Hr Hf) as C.
    unfold computes in C.
    destruct (lasso_table SS IC LL r f (columns r) empty_frame) as [T|e'] eqn:E.
    + destruct C as [l' [El HT]]. rewrite Hl in El. inversion El; subst l'.
      destruct (lasso_table_inv SS IC LL r f (columns r) [] [] T eq_refl E)
        as (cs & HF & ->).
      eexists. exists cs. split; [exact HT|].
      simpl. unfold coef_table. destruct (columns r); [congruence|]. auto.
    + rewrite Hl in C. discriminate.
  - intros cs HF.
    pose proof (lasso_lars_regression_computes SS IC LL h returns factor_returns
                  r f Hr Hf) as C.
    unfold computes in C.
    pose proof (lasso_table_fitted SS IC LL r f (columns r) cs [] [] eq_refl HF)
      as E.
    simpl in E. rewrite E in C. exact C.
  - intros cs i ticker c Hi Hc Lc.
    now apply (coef_table_column (columns f) (columns r) cs i ticker c).
Qed.

Lemma names_are_preserved_witness :
  (exists t,
      get_stock_prices demo_api "BBB" "2012-01-01" "2023-02-28" = Ok t
      /\ aligned demo_prices 1 t)
  /\ (exists monthly out,
      resample_M_last demo_prices = Ok monthly
      /\ retrieve_factor_returns demo_api
           [("US Growth", "AAA"); ("US Value", "BBB")]
           "2012-01-01" "2023-02-28" "M" = Ok out
      /\ columns out = [LStr "US Growth"; LStr "US Value"]
      /\ frame_column monthly 1
         = monthly_last_column (index demo_prices) (frame_column demo_prices 1))
  /\ (exists l,
      fst (multiple_lin_reg zero_OLS 0%nat 1%nat true demo_heap) = Ok l
      /\ nth_error (snd (multiple_lin_reg zero_OLS 0%nat 1%nat true demo_heap)) l
         = Some (Frame (mkDF [LStr "US Growth"; LStr "US Value"]
                             [LStr "QIACX"; LStr "VTSAX"]
                             [[Fin 0; Fin 0]; [Fin 0; Fin 0]])))
  /\ (exists T,
      nth_error (snd (lasso_lars_regression unit_scaler large_alpha zero_LassoLars
                        0%nat 1%nat demo_heap)) 11%nat = Some (Frame T)
      /\ index T = [LStr "US Growth"; LStr "US Value"]
      /\ columns T = [LStr "QIACX"; LStr "VTSAX"]).
Proof.
  destruct (names_are_preserved demo_api zero_OLS unit_scaler large_alpha
              zero_LassoLars [("US Growth", "AAA"); ("US Value", "BBB")]
              "2012-01-01" "2023-02-28"
              demo_heap 0%nat 1%nat true demo_funds demo_factors
              eq_refl eq_refl eq_refl) as (_ & H2 & _ & H4 & H5 & _).
  destruct (H2 demo_prices) as (Hk & _ & (monthly & out & R & Hout & Hc & _ & Hm));
    [discriminate|reflexivity|].
  split; [|split; [|split]].
  - destruct (Hk 1%nat "US Value" "BBB" eq_refl) as (t & Ht & Ha & _).
    exists t. split; assumption.
  - exists monthly, out. split; [exact R|]. split; [exact Hout|].
    split; [exact Hc|]. apply (Hm 1%nat). simpl. lia.
  - apply (H4 [LStr "x1"; LStr "x2"]
              [mkResults [(LStr "const", Fin 0); (LStr "x1", Fin 0);
                          (LStr "x2", Fin 0)] (Fin 0);
               mkResults [(LStr "const", Fin 0); (LStr "x1", Fin 0);
                          (LStr "x2", Fin 0)] (Fin 0)]).
    + discriminate.
    + reflexivity.
    + reflexivity.
    + constructor; [|constructor; [|constructor]].
      * exists (frame_column demo_funds 0). repeat split.
      * exists (frame_column demo_funds 1). repeat split.
  - destruct (H5 11%nat) as (T & cs & HT & Hrows & Hcols & _).
    + discriminate.
    + reflexivity.
    + exists T. repeat split; assumption.
Defined.

(** * The two phases of the sparse estimator *)

(** ** The two phases of the sparse fit, spelled out *)










(** *** [np.argmin] *)


Lemma fleb_weak a b :
  isnan a = false -> isnan b = false -> fleb a b = false -> fleb b a = true.
Proof. apply fleb_total. Qed.
















(** * The dense estimator and least squares *)

(** ** Sums of rationals *)

Section Sums.

Local Open Scope Qc_scope.

Import lstsq.

Lemma sum_ext n (f g : nat -> Qc) :
  (forall i, (i < n)%nat -> f i = g i) -> sum n f = sum n g.
Proof.
  induction n as [|n IH]; intros H; simpl; [reflexivity|].
  rewrite IH by (intros i Hi; apply H; lia). now rewrite (H n) by lia.
Qed.

Lemma sum_const_zero n : sum n (fun _ => 0) = 0.
Proof. induction n as [|n IH]; simpl; [reflexivity|]. rewrite IH. ring. Qed.

Lemma sum_plus n (f g : nat -> Qc) :
  sum n (fun i => f i + g i) = sum n f + sum n g.
Proof. induction n as [|n IH]; simpl; [ring|]. rewrite IH. ring. Qed.

Lemma sum_scale n c (f : nat -> Qc) : sum n (fun i => c * f i) = c * sum n f.
Proof. induction n as [|n IH]; simpl; [ring|]. rewrite IH. ring. Qed.

Lemma sum_swap n m (f : nat -> nat -> Qc) :
  sum n (fun k => sum m (fun i => f i k)) = sum m (fun i => sum n (fun k => f i k)).
Proof.
  induction n as [|n IH]; simpl.
  - now rewrite sum_const_zero.
  - rewrite IH, <- sum_plus. reflexivity.
Qed.

Lemma sum_shift n (f : nat -> Qc) :
  sum (S n) f = f 0%nat + sum n (fun i => f (S i)).
Proof.
  induction n as [|n IH]; [simpl; ring|].
  change (sum (S (S n)) f) with (sum (S n) f + f (S n)).
  rewrite IH. simpl. ring.
Qed.

Lemma square_nonneg (x : Qc) : 0 <= x * x.
Proof.
  destruct (Qclt_le_dec x 0) as [L|L].
  - replace (x * x) with ((- x) * (- x)) by ring.
    assert (H : 0 <= - x).
    { apply Qclt_le_weak in L. apply Qcle_minus_iff in L.
      now replace (0 + - x) with (- x) in L by ring. }
    replace 0 with (0 * - x) by ring.
    now apply Qcmult_le_compat_r.
  - replace 0 with (0 * x) by ring. now apply Qcmult_le_compat_r.
Qed.

Lemma sum_nonneg n (f : nat -> Qc) :
  (forall i, (i < n)%nat -> 0 <= f i) -> 0 <= sum n f.
Proof.
  induction n as [|n IH]; intros H; simpl; [apply Qcle_refl|].
  replace 0 with (0 + 0) by ring.
  apply Qcplus_le_compat; [apply IH; intros i Hi; apply H; lia|apply H; lia].
Qed.

Lemma sum_zero_terms n (f : nat -> Qc) :
  (forall i, (i < n)%nat -> 0 <= f i) -> sum n f = 0 ->
  forall i, (i < n)%nat -> f i = 0.
Proof.
  induction n as [|n IH]; intros H E i Hi; [lia|].
  simpl in E.
  assert (H1 : 0 <= sum n f) by (apply sum_nonneg; intros; apply H; lia).
  assert (H2 : 0 <= f n) by (apply H; lia).
  assert (E1 : sum n f = 0).
  { apply Qcle_antisym; [|exact H1].
    assert (L : sum n f + 0 <= sum n f + f n)
      by (apply Qcplus_le_compat; [apply Qcle_refl|exact H2]).
    rewrite E in L. now replace (sum n f + 0) with (sum n f) in L by ring. }
  assert (E2 : f n = 0).
  { rewrite E1 in E. now replace (0 + f n) with (f n) in E by ring. }
  destruct (Nat.eq_dec i n) as [->|Hne]; [exact E2|].
  apply IH; [intros j Hj; apply H; lia|exact E1|lia].
Qed.

Lemma squares_zero n (f : nat -> Qc) :
  sum n (fun i => f i * f i) = 0 -> forall i, (i < n)%nat -> f i = 0.
Proof.
  intros E i Hi.
  pose proof (sum_zero_terms n (fun i => f i * f i)
                (fun j _ => square_nonneg (f j)) E i Hi) as H.
  apply Qcmult_integral in H. tauto.
Qed.

Lemma le_plus_cancel (a s : Qc) : a + s <= a -> s <= 0.
Proof.
  intros H. apply Qcle_minus_iff in H. apply Qcle_minus_iff.
  now replace (a + - (a + s)) with (0 + - s) in H by ring.
Qed.

End Sums.

(** ** Orthogonal projection *)

Section Projection.

Local Open Scope Qc_scope.

Import lstsq.

Variable d : nat.

Lemma dot_ext (u u' v v' : vec) :
  (forall i, (i < d)%nat -> u i = u' i) ->
  (forall i, (i < d)%nat -> v i = v' i) ->
  dot d u v = dot d u' v'.
Proof.
  intros Hu Hv. unfold dot. apply sum_ext. intros i Hi.
  now rewrite Hu, Hv.
Qed.

Lemma dot_sym (u v : vec) : dot d u v = dot d v u.
Proof. unfold dot. apply sum_ext. intros i _. ring. Qed.

Lemma dot_minus_scaled (u v g : vec) t :
  dot d (fun i => u i - t * v i) g = dot d u g - t * dot d v g.
Proof.
  unfold dot. rewrite <- sum_scale.
  replace (sum d (fun i => u i * g i) - sum d (fun i => t * (v i * g i)))
    with (sum d (fun i => u i * g i) + sum d (fun i => - (t * (v i * g i)))).
  - rewrite <- sum_plus. apply sum_ext. intros i _. ring.
  - replace (sum d (fun i => - (t * (v i * g i))))
      with (sum d (fun i => (- (1)) * (t * (v i * g i)))).
    + rewrite sum_scale. ring.
    + apply sum_ext. intros i _. ring.
Qed.

Lemma dot_plus_r (v a b : vec) :
  dot d v (fun i => a i + b i) = dot d v a + dot d v b.
Proof.
  unfold dot. rewrite <- sum_plus. apply sum_ext. intros i _. ring.
Qed.

Lemma dot_scale_r (v g : vec) a :
  dot d v (fun i => a * g i) = a * dot d v g.
Proof.
  unfold dot. rewrite <- sum_scale. apply sum_ext. intros i _. ring.
Qed.

Lemma dot_zero_r (v : vec) : dot d v (fun _ => 0) = 0.
Proof.
  unfold dot. transitivity (sum d (fun _ => 0)).
  - apply sum_ext. intros i _. ring.
  - apply sum_const_zero.
Qed.

(** A vector orthogonal to every generator is orthogonal to their
    combinations. *)
Lemma dot_comb_zero (v : vec) : forall gens w,
  Forall (fun g => dot d v g = 0) gens -> dot d v (comb w gens) = 0.
Proof.
  induction gens as [|g gens IH]; intros [|a w] H; simpl;
    try apply dot_zero_r.
  apply Forall_cons_iff in H. destruct H as [Hg Hgens].
  rewrite (dot_plus_r v (fun i => a * g i) (comb w gens)).
  rewrite dot_scale_r, Hg, (IH w Hgens). ring.
Qed.

Lemma comb_combine t : forall (gs : list vec) (a b : list Qc) i,
  length a = length gs -> length b = length gs ->
  comb (map (fun ba => fst ba - t * snd ba) (combine b a)) gs i
  = comb b gs i - t * comb a gs i.
Proof.
  induction gs as [|g gs IH]; intros [|x a] [|z b] i La Lb; simpl in *;
    try discriminate; try ring.
  rewrite IH by lia. ring.
Qed.

Lemma project_length : forall gens u, length (project d gens u) = length gens.
Proof.
  induction gens as [|g gs IH]; intros u; simpl; [reflexivity|].
  destruct (Qeq_bool _ 0); simpl.
  - now rewrite IH.
  - rewrite length_map, length_combine, !IH. f_equal. apply Nat.min_id.
Qed.

(** What is left of [u] after its projection is orthogonal to every
    generator. *)
Lemma project_orthogonal : forall gens u,
  Forall (fun g => dot d (fun i => u i - comb (project d gens u) gens i) g = 0)
         gens.
Proof.
  induction gens as [|g gs IH]; intros u; [constructor|].
  pose proof (IH g) as Oa. pose proof (IH u) as Ob.
  cbn [project].
  set (a := project d gs g) in *. set (b := project d gs u) in *.
  set (ra := fun i => g i - comb a gs i) in *.
  set (rb := fun i => u i - comb b gs i) in *.
  assert (La : length a = length gs) by apply project_length.
  assert (Lb : length b = length gs) by apply project_length.
  assert (Hg : forall i, g i = ra i + comb a gs i).
  { intros i. unfold ra. ring. }
  destruct (Qeq_bool (this (dot d ra ra)) 0) eqn:E.
  - apply Qeq_bool_iff in E.
    assert (E0 : dot d ra ra = 0) by (now apply Qc_is_canon).
    assert (Z : forall i, (i < d)%nat -> ra i = 0).
    { apply squares_zero. exact E0. }
    assert (R : forall i, u i - comb (0 :: b) (g :: gs) i = rb i).
    { intros i. unfold rb. simpl. ring. }
    constructor.
    + rewrite (dot_ext _ rb g (comb a gs)).
      * now apply dot_comb_zero.
      * intros i _. apply R.
      * intros i Hi. rewrite Hg, (Z i Hi). ring.
    + rewrite Forall_forall in *. intros h Hh.
      rewrite (dot_ext _ rb h h); auto.
  - assert (Hn : dot d ra ra <> 0).
    { intros H0. rewrite H0 in E. discriminate. }
    set (t := dot d u ra / dot d ra ra).
    assert (R : forall i,
               u i - comb (t :: map (fun ba => fst ba - t * snd ba) (combine b a))
                          (g :: gs) i
               = rb i - t * ra i).
    { intros i. cbn [comb]. rewrite (comb_combine t gs a b i La Lb).
      unfold rb, ra. ring. }
    assert (Orth : forall h, In h gs ->
                     dot d (fun i => rb i - t * ra i) h = 0).
    { intros h Hh. rewrite dot_minus_scaled.
      rewrite Forall_forall in Oa, Ob.
      rewrite (Ob h Hh), (Oa h Hh). ring. }
    constructor.
    + rewrite (dot_ext _ (fun i => rb i - t * ra i) g
                 (fun i => ra i + comb a gs i));
        [|intros i _; apply R|intros i _; apply Hg].
      rewrite dot_plus_r.
      rewrite (dot_comb_zero (fun i => rb i - t * ra i) gs a)
        by (apply Forall_forall; exact Orth).
      rewrite dot_minus_scaled.
      assert (Hrb : dot d rb ra = dot d u ra).
      { unfold rb at 1.
        rewrite (dot_ext (fun i => u i - comb b gs i)
                         (fun i => u i - 1 * comb b gs i) ra ra)
          by (intros; ring).
        rewrite dot_minus_scaled.
        rewrite (dot_sym (comb b gs) ra), (dot_comb_zero ra gs b Oa). ring. }
      rewrite Hrb. unfold t. field. exact Hn.
    + apply Forall_forall. intros h Hh.
      rewrite (dot_ext _ (fun i => rb i - t * ra i) h h);
        [now apply Orth|intros i _; apply R|reflexivity].
Qed.

End Projection.

(** ** The least-norm least-squares solution *)

Section LeastSquares.

Local Open Scope Qc_scope.

Import lstsq.

Variables (m n : nat) (X : nat -> nat -> Qc) (y : vec).

Lemma comb_tabulated (F : nat -> vec) i : forall k a (w : list Qc),
  comb w (map F (seq a k)) i = sum k (fun j => nth j w 0 * F (a + j)%nat i).
Proof.
  induction k as [|k IH]; intros a w.
  - destruct w; reflexivity.
  - rewrite sum_shift. cbn [seq map]. destruct w as [|b w]; cbn [comb nth].
    + rewrite (sum_ext k _ (fun _ => 0)) by (intros j _; destruct j; simpl; ring).
      rewrite sum_const_zero. ring.
    + rewrite IH. rewrite Nat.add_0_r. f_equal.
      apply sum_ext. intros j _. now rewrite Nat.add_succ_r.
Qed.

Lemma Forall_tabulated {A} (P : A -> Prop) (F : nat -> A) k :
  Forall P (map F (seq 0 k)) -> forall j, (j < k)%nat -> P (F j).
Proof.
  intros H j Hj. rewrite Forall_forall in H. apply H.
  apply in_map. apply in_seq. lia.
Qed.

Lemma times_plus (b c : vec) i :
  times n X (fun k => b k + c k) i = times n X b i + times n X c i.
Proof.
  unfold times. rewrite <- sum_plus. apply sum_ext. intros k _. ring.
Qed.

Lemma times_ext (b c : vec) i :
  (forall k, (k < n)%nat -> b k = c k) -> times n X b i = times n X c i.
Proof.
  intros H. unfold times. apply sum_ext. intros k Hk. now rewrite H.
Qed.

(** A residual orthogonal to the columns is orthogonal to the image. *)
Lemma cross_zero (r c : vec) :
  (forall j, (j < n)%nat -> sum m (fun i => r i * X i j) = 0) ->
  sum m (fun i => r i * times n X c i) = 0.
Proof.
  intros H. unfold times.
  rewrite (sum_ext m _ (fun i => sum n (fun k => c k * (r i * X i k)))).
  - rewrite <- sum_swap.
    rewrite (sum_ext n _ (fun _ => 0)); [apply sum_const_zero|].
    intros k Hk. rewrite sum_scale, (H k Hk). ring.
  - intros i _. rewrite <- sum_scale. apply sum_ext. intros k _. ring.
Qed.

(** With the normal equations at [b], the residual sum of squares at
    [b'] is the one at [b] plus the squared image of the difference. *)
Lemma rss_split (b b' : vec) :
  (forall j, (j < n)%nat ->
     sum m (fun i => (times n X b i - y i) * X i j) = 0) ->
  rss m n X y b'
  = rss m n X y b
    + sum m (fun i => times n X (fun k => b' k - b k) i
                      * times n X (fun k => b' k - b k) i).
Proof.
  intros N. unfold rss.
  set (r := fun i => times n X b i - y i).
  set (dl := fun i => times n X (fun k => b' k - b k) i).
  assert (C : sum m (fun i => r i * dl i) = 0) by (now apply cross_zero).
  assert (E : forall i, times n X b' i - y i = r i + dl i).
  { intros i. unfold r, dl.
    rewrite (times_ext b' (fun k => b k + (b' k - b k)) i)
      by (intros; ring).
    rewrite times_plus. ring. }
  rewrite (sum_ext m _ (fun i => (r i * r i + dl i * dl i) + (1 + 1) * (r i * dl i))).
  - rewrite sum_plus, sum_plus, sum_scale, C. unfold r, dl. ring.
  - intros i _. rewrite E. ring.
Qed.

Lemma le_plus_square (a : Qc) (f : nat -> Qc) k :
  a <= a + sum k (fun i => f i * f i).
Proof.
  replace a with (a + 0) at 1 by ring.
  apply Qcplus_le_compat; [apply Qcle_refl|].
  apply sum_nonneg. intros i _. apply square_nonneg.
Qed.

Lemma normal_least_squares (b : vec) :
  (forall j, (j < n)%nat ->
     sum m (fun i => (times n X b i - y i) * X i j) = 0) ->
  least_squares m n X y b.
Proof.
  intros N b'. rewrite (rss_split b b' N). apply le_plus_square.
Qed.

(** A least-squares solution in the span of the rows has the least
    norm. *)
Lemma row_space_least_norm (b : vec) (w : list Qc) :
  (forall j, (j < n)%nat ->
     sum m (fun i => (times n X b i - y i) * X i j) = 0) ->
  (forall k, (k < n)%nat -> b k = sum m (fun i => nth i w 0 * X i k)) ->
  forall b', least_squares m n X y b' ->
    norm2 n b' = norm2 n b + norm2 n (fun k => b' k - b k).
Proof.
  intros N R b' LS.
  set (dl := fun k => b' k - b k).
  assert (Z : forall i, (i < m)%nat -> times n X dl i = 0).
  { apply squares_zero.
    pose proof (LS b) as L. rewrite (rss_split b b' N) in L.
    fold dl in L.
    apply Qcle_antisym.
    - now apply (le_plus_cancel (rss m n X y b)).
    - apply sum_nonneg. intros i _. apply square_nonneg. }
  assert (C : dot n b dl = 0).
  { unfold dot.
    rewrite (sum_ext n _ (fun k => sum m (fun i => nth i w 0 * (X i k * dl k)))).
    - rewrite sum_swap.
      rewrite (sum_ext m _ (fun _ => 0)); [apply sum_const_zero|].
      intros i Hi. rewrite sum_scale. fold (times n X dl i).
      rewrite (Z i Hi). ring.
    - intros k Hk. rewrite (R k Hk).
      rewrite Qcmult_comm, <- sum_scale. apply sum_ext. intros i _. ring. }
  unfold norm2.
  rewrite (dot_ext n b' (fun k => b k + dl k) b' (fun k => b k + dl k))
    by (intros; unfold dl; ring).
  unfold dot in *.
  rewrite (sum_ext n _ (fun k => (b k * b k + dl k * dl k) + (1 + 1) * (b k * dl k)))
    by (intros; ring).
  rewrite sum_plus, sum_plus, sum_scale, C. ring.
Qed.

(** [solve] computes the least-norm least-squares solution. *)
Theorem solve_least_norm :
  least_norm m n X y (fun k => nth k (solve m n X y) 0)
  /\ forall b', least_norm m n X y b' ->
       forall k, (k < n)%nat -> b' k = nth k (solve m n X y) 0.
Proof.
  unfold solve.
  set (cols := map (fun j => fun i => X i j) (seq 0 n)).
  set (rows := map (fun i => fun j => X i j) (seq 0 m)).
  set (b0 := project m cols y).
  set (b0v := fun j => nth j b0 0).
  set (w := project n rows b0v).
  set (b := fun k => nth k (map (comb w rows) (seq 0 n)) 0).
  assert (Hb : forall k, (k < n)%nat -> b k = sum m (fun i => nth i w 0 * X i k)).
  { intros k Hk. unfold b. rewrite (nth_map_seq _ 0 n k Hk).
    unfold rows. rewrite comb_tabulated. reflexivity. }
  assert (N0 : forall j, (j < n)%nat ->
                 sum m (fun i => (y i - times n X b0v i) * X i j) = 0).
  { intros j Hj.
    pose proof (Forall_tabulated _ _ n (project_orthogonal m cols y) j Hj) as H.
    cbv beta in H. fold b0 in H. unfold dot in H. rewrite <- H.
    apply sum_ext. intros i _. f_equal. f_equal.
    unfold cols. rewrite comb_tabulated. unfold times.
    apply sum_ext. intros k _. unfold b0v. simpl. ring. }
  assert (T : forall i, (i < m)%nat -> times n X b i = times n X b0v i).
  { intros i Hi.
    pose proof (Forall_tabulated _ _ m (project_orthogonal n rows b0v) i Hi) as H.
    cbv beta in H. fold w in H. unfold dot in H.
    unfold times.
    rewrite (sum_ext n _ (fun k => X i k * b0v k
                                   + (- (1)) * ((b0v k - comb w rows k) * X i k))).
    - rewrite sum_plus, sum_scale, H. ring.
    - intros k Hk. rewrite (Hb k Hk). unfold rows. rewrite comb_tabulated.
      simpl. ring. }
  assert (N : forall j, (j < n)%nat ->
                sum m (fun i => (times n X b i - y i) * X i j) = 0).
  { intros j Hj.
    rewrite (sum_ext m _ (fun i => (- (1)) * ((y i - times n X b0v i) * X i j))).
    - rewrite sum_scale, (N0 j Hj). ring.
    - intros i Hi. rewrite (T i Hi). ring. }
  assert (LN : least_norm m n X y b).
  { split; [now apply normal_least_squares|].
    intros b' LS. rewrite (row_space_least_norm b w N Hb b' LS).
    unfold norm2, dot. apply le_plus_square. }
  split; [exact LN|].
  intros b' [LS' Hmin] k Hk.
  pose proof (row_space_least_norm b w N Hb b' LS') as E.
  pose proof (Hmin b (proj1 LN)) as L. rewrite E in L.
  assert (Z : norm2 n (fun k => b' k - b k) = 0).
  { apply Qcle_antisym.
    - now apply (le_plus_cancel (norm2 n b)).
    - unfold norm2, dot. apply sum_nonneg. intros i _. apply square_nonneg. }
  pose proof (squares_zero n (fun k => b' k - b k) Z k Hk) as D.
  cbv beta in D. change (b' k = b k).
  replace (b' k) with (b' k - b k + b k) by ring. rewrite D. ring.
Qed.

End LeastSquares.

(** ** From rationals to the tables of the script *)

Section Coefficients.

Local Open Scope Qc_scope.

Import lstsq.

Lemma least_norm_ext m n X y (b c : vec) :
  (forall k, (k < n)%nat -> b k = c k) ->
  least_norm m n X y b -> least_norm m n X y c.
Proof.
  intros H.
  assert (R : rss m n X y b = rss m n X y c).
  { unfold rss. apply sum_ext. intros i _.
    now rewrite (times_ext n X b c i H). }
  assert (Nm : norm2 n b = norm2 n c).
  { unfold norm2. now apply dot_ext. }
  intros [LS LN]. split.
  - intros b'. rewrite <- R. apply LS.
  - intros b' LS'. rewrite <- Nm. apply LN. exact LS'.
Qed.

Lemma to_Qc_of_Qc c : to_Qc (of_Qc c) = c.
Proof.
  unfold to_Qc, of_Qc. apply Qc_is_canon. simpl. apply Qred_correct.
Qed.

Lemma component_of_Qc (l : list Qc) i :
  component (map of_Qc l) i = nth i l 0.
Proof.
  unfold component. revert i.
  induction l as [|c l IH]; intros [|i]; simpl; try reflexivity.
  - apply to_Qc_of_Qc.
  - apply IH.
Qed.

Lemma finite_of_Qc (l : list Qc) : forallb isfinite (map of_Qc l) = true.
Proof. induction l as [|c l IH]; simpl; auto. Qed.

(** The exact kernel returns the least-norm least-squares solution, and
    every such solution has the same components. *)
Lemma exact_solution_least_norm X y :
  least_norm_solution X y (exact_solution X y)
  /\ forall b, least_norm_solution X y b ->
       forall k, component b k = component (exact_solution X y) k.
Proof.
  unfold least_norm_solution, exact_solution.
  destruct (solve_least_norm (length X) (width X) (entry X) (component y))
    as [LN U].
  assert (L : length (solve (length X) (width X) (entry X) (component y))
              = width X).
  { unfold solve. now rewrite length_map, length_seq. }
  split.
  - split; [now rewrite length_map|]. split; [apply finite_of_Qc|].
    eapply least_norm_ext; [|exact LN].
    intros k _. symmetry. apply component_of_Qc.
  - intros b (Lb & Fb & LNb) k. rewrite component_of_Qc.
    destruct (Nat.lt_ge_cases k (width X)) as [Hk|Hk].
    + now apply U.
    + unfold component at 1. rewrite (nth_overflow b NaN) by lia.
      rewrite nth_overflow by (rewrite L; lia). reflexivity.
Qed.

End Coefficients.

Lemma exog_names_length k : length (exog_names k) = k.
Proof.
  destruct k as [|k]; simpl; [reflexivity|].
  now rewrite length_map, length_seq.
Qed.

(** The exact kernel does what [pinv_fit] asks for. *)
Lemma exact_OLS_pinv : pinv_fit exact_OLS.
Proof.
  intros y X (Hne & W & Ly & FX & Fy). unfold exact_OLS.
  rewrite Ly, Nat.eqb_refl, FX, Fy. cbn [negb andb].
  eexists. split; [reflexivity|]. cbn [params].
  rewrite map_snd_combine.
  - apply exact_solution_least_norm.
  - rewrite exog_names_length. unfold exact_solution, lstsq.solve.
    now rewrite !length_map, length_seq.
Qed.

(** [add_constant] keeps regular data regular. *)
Lemma add_constant_regular X y :
  regular X y ->
  exists X1,
    add_constant_array X = Returned X1
    /\ ((exists j, (j < width X)%nat /\ constant_nonzero_column X j) -> X1 = X)
    /\ (~ (exists j, (j < width X)%nat /\ constant_nonzero_column X j) ->
        X1 = map (cons fone) X)
    /\ regular X1 y.
Proof.
  intros R0. pose proof R0 as (Hne & W & Ly & FX & Fy).
  assert (Ww : width (map (cons fone) X) = S (width X))
    by (destruct X; [congruence|reflexivity]).
  assert (R1 : regular (map (cons fone) X) y).
  { split; [destruct X; [congruence|discriminate]|].
    split; [|split; [|split]].
    - rewrite Ww, Forall_map. eapply Forall_impl; [|exact W].
      intros r Hr. simpl. now rewrite Hr.
    - now rewrite length_map.
    - unfold all_finite in *. rewrite forallb_forall in *.
      intros r Hr. apply in_map_iff in Hr. destruct Hr as (r0 & <- & Hr0).
      cbn [forallb isfinite fone]. now apply FX.
    - exact Fy. }
  destruct X as [|row rest]; [congruence|].
  destruct (add_constant_array_cases row rest) as [Hskip Hadd].
  cbn [width].
  destruct (add_constant_array (row :: rest)) as [X1|e] eqn:E.
  - exists X1. split; [reflexivity|].
    assert (Hor : X1 = row :: rest \/ X1 = map (cons fone) (row :: rest)).
    { revert E.
      change (add_constant_array (row :: rest))
        with (if existsb
                   (fun j => match ptp (column_cells j (row :: rest)) with
                             | None => false
                             | Some p => feqb p fzero
                                         && forallb nonzero
                                              (column_cells j (row :: rest))
                             end) (seq 0 (length row))
              then Returned (row :: rest)
              else Returned (map (cons fone) (row :: rest))).
      destruct (existsb _ (seq 0 (length row))); intros E; inversion E; auto. }
    split; [|split].
    + intros H. specialize (Hskip H). congruence.
    + intros H. specialize (Hadd H). congruence.
    + destruct Hor as [->| ->]; assumption.
  - exfalso. revert E.
    change (add_constant_array (row :: rest))
      with (if existsb
                 (fun j => match ptp (column_cells j (row :: rest)) with
                           | None => false
                           | Some p => feqb p fzero
                                       && forallb nonzero
                                            (column_cells j (row :: rest))
                           end) (seq 0 (length row))
            then Returned (row :: rest)
            else Returned (map (cons fone) (row :: rest))).
    destruct (existsb _ (seq 0 (length row))); discriminate.
Qed.

(** C3, as the code has it.  [linear_reg] never raises
    [SingularDesignError] and takes no fallback policy from its caller: it
    makes no rank test and hands [add_constant(x.values)], the design with
    a column of ones in front unless it has a constant column already, to
    [OLS(...).fit()], whose default is the pseudo-inverse.  On every design
    of finite numbers with a row at least, exactly rank deficient or not,
    it therefore returns a model, and the parameters of the model are the
    least-norm least-squares solution: finite numbers, never NaN, that
    minimise the residual sum of squares and among the minimisers the norm;
    that solution is unique, so the parameters are determined by the
    data. *)
Theorem linear_reg_has_no_rank_check :
  forall (OLS_fit : list float -> matrix -> outcome RegressionResults)
         (y : list float) (x : loc) (add_const : bool) (h : heap),
    fst (linear_reg OLS_fit y x add_const h) <> Raise SingularDesignError
    /\ (forall df,
          pinv_fit OLS_fit ->
          nth_error h x = Some (Frame df) ->
          regular (values df) y ->
          exists X1 lm,
            ((exists j, (j < width (values df))%nat
                        /\ constant_nonzero_column (values df) j) ->
             X1 = values df)
            /\ (~ (exists j, (j < width (values df))%nat
                             /\ constant_nonzero_column (values df) j) ->
                X1 = map (cons fone) (values df))
            /\ fst (linear_reg OLS_fit y x add_const h) = Ok lm
            /\ least_norm_solution X1 y (map snd (params lm))
            /\ forall b, least_norm_solution X1 y b ->
                 forall k, component b k = component (map snd (params lm)) k).
Proof.
  intros OLS_fit y x add_const h. rewrite linear_reg_result. split.
  - destruct (nth_error h x) as [[df|t]|]; try discriminate.
    destruct (dense_fit OLS_fit (values df) y); discriminate.
  - intros df P E R. rewrite E. unfold dense_fit.
    destruct (add_constant_regular (values df) y R)
      as (X1 & HX1 & Hskip & Hadd & R1).
    destruct (P y X1 R1) as (lm & Hlm & LN).
    exists X1, lm. rewrite HX1, Hlm.
    split; [exact Hskip|]. split; [exact Hadd|]. split; [reflexivity|].
    split; [exact LN|].
    intros b Hb k.
    destruct (exact_solution_least_norm X1 y) as [_ U].
    rewrite (U b Hb k). symmetry. now apply U.
Qed.

Lemma linear_reg_has_no_rank_check_witness :
  nth_error demo_heap 3%nat = Some (Frame demo_collinear)
  /\ exists lm,
       fst (linear_reg exact_OLS [Fin 1; Fin 2; Fin 3] 3%nat false demo_heap)
       = Ok lm
       /\ least_norm_solution
            [[Fin 1; Fin 1; Fin 2]; [Fin 1; Fin 2; Fin 4]; [Fin 1; Fin 3; Fin 6]]
            [Fin 1; Fin 2; Fin 3] (map snd (params lm)).
Proof.
  split; [reflexivity|].
  assert (R : regular (values demo_collinear) [Fin 1; Fin 2; Fin 3]).
  { split; [discriminate|]. split; [repeat constructor|].
    repeat split. }
  destruct (proj2 (linear_reg_has_no_rank_check exact_OLS [Fin 1; Fin 2; Fin 3]
                     3%nat false demo_heap)
                  demo_collinear exact_OLS_pinv eq_refl R)
    as (X1 & lm & _ & Hadd & H2 & H3 & _).
  exists lm. split; [exact H2|].
  rewrite Hadd in H3; [exact H3|].
  intros (j & Hj & c & Hc & Hall).
  apply Forall_cons_iff in Hall. destruct Hall as [(c1 & E1 & H1) Hall].
  apply Forall_cons_iff in Hall. destruct Hall as [(c2 & E2 & H2') _].
  rewrite <- H2' in H1.
  destruct j as [|[|j]]; simpl in Hj; [| |lia];
    simpl in E1, E2; inversion E1; inversion E2; subst c1 c2;
    discriminate H1.
Defined.

(** C3 as stated fails: the design with the columns (1,2,3) and (2,4,6) is
    rank deficient once the constant is in front (twice the second column
    minus the third is zero), the caller gives no fallback policy, and
    [linear_reg] with the pseudo-inverse fit raises nothing: it returns the
    model with the parameters 0, 1/5 and 2/5, which fit the target exactly
    and have the least norm of all that do. *)
Lemma linear_reg_rank_deficient_returns :
  add_constant_array (values demo_collinear)
    = Returned [[Fin 1; Fin 1; Fin 2]; [Fin 1; Fin 2; Fin 4]; [Fin 1; Fin 3; Fin 6]]
  /\ mat_vec [[Fin 1; Fin 1; Fin 2]; [Fin 1; Fin 2; Fin 4]; [Fin 1; Fin 3; Fin 6]]
             [Fin 0; Fin 2; Fin (-1)]
     = [Fin 0; Fin 0; Fin 0]
  /\ fst (linear_reg exact_OLS [Fin 1; Fin 2; Fin 3] 3%nat false demo_heap)
     = Ok (mkResults [(LStr "const", Fin 0); (LStr "x1", Fin (1 # 5));
                      (LStr "x2", Fin (2 # 5))] (Fin 1))
  /\ mat_vec [[Fin 1; Fin 1; Fin 2]; [Fin 1; Fin 2; Fin 4]; [Fin 1; Fin 3; Fin 6]]
             [Fin 0; Fin (1 # 5); Fin (2 # 5)]
     = [Fin 1; Fin 2; Fin 3]
  /\ fst (linear_reg exact_OLS [Fin 1; Fin 2; Fin 3] 3%nat false demo_heap)
     <> Raise SingularDesignError.
Proof.
  split; [reflexivity|]. split; [reflexivity|]. split; [vm_compute; reflexivity|].
  split; [reflexivity|]. vm_compute. discriminate.
Qed.
